(** * XRP price bot: the synchronisation engine of [xrpbot.py]

    A shallow embedding of the price fetcher ([_fetch_one_id],
    [get_price_data]), the per-guild update ([update_guild]) and the
    updater loop ([updater_loop]) of the bot, together with the properties
    proved about them.

    Coroutines are embedded as finite trees of actions ([proc]); everything
    outside the program (the price API, Discord, the clock, the logger) is an
    environment that answers each action.  A sequential interpreter ([run])
    executes one coroutine; a small scheduler ([Machine]) interleaves the
    coroutines started by [asyncio.gather].

    Conventions: durations are in milliseconds; a float is an IEEE binary64
    value with its exact mantissa and exponent; a string is a list of code
    points; the [while] loop of the updater is unrolled a given number of
    passes; task cancellation (the shutdown path) is not part of the model,
    so a sleep always returns. *)

From Stdlib Require Import String Ascii ZArith NArith List Bool Lia.
From Stdlib Require Import SpecFloat DecimalN.
Import ListNotations.

Local Open Scope list_scope.
Local Open Scope Z_scope.

(** ** Python strings

    A Python [str] is a sequence of code points; [len] counts code points,
    so the two circle emoji used by the bot are one character each. *)

Definition pychar := N.
Definition pystr := list pychar.

Definition lit (s : string) : pystr :=
  map (fun a => N_of_ascii a) (list_ascii_of_string s).

Definition pystr_eqb (a b : pystr) : bool :=
  if list_eq_dec N.eq_dec a b then true else false.

(** Decimal digits of a natural number, as [str(n)] prints them. *)
Fixpoint digits_of_uint (d : Decimal.uint) : pystr :=
  match d with
  | Decimal.Nil => []
  | Decimal.D0 d => 48%N :: digits_of_uint d
  | Decimal.D1 d => 49%N :: digits_of_uint d
  | Decimal.D2 d => 50%N :: digits_of_uint d
  | Decimal.D3 d => 51%N :: digits_of_uint d
  | Decimal.D4 d => 52%N :: digits_of_uint d
  | Decimal.D5 d => 53%N :: digits_of_uint d
  | Decimal.D6 d => 54%N :: digits_of_uint d
  | Decimal.D7 d => 55%N :: digits_of_uint d
  | Decimal.D8 d => 56%N :: digits_of_uint d
  | Decimal.D9 d => 57%N :: digits_of_uint d
  end.

(** The inverse reading: a string of ASCII digits back to a [uint]. *)
Fixpoint uint_of_digits (s : pystr) : option Decimal.uint :=
  match s with
  | [] => Some Decimal.Nil
  | c :: s' =>
      match uint_of_digits s' with
      | None => None
      | Some d =>
          match c with
          | 48%N => Some (Decimal.D0 d) | 49%N => Some (Decimal.D1 d)
          | 50%N => Some (Decimal.D2 d) | 51%N => Some (Decimal.D3 d)
          | 52%N => Some (Decimal.D4 d) | 53%N => Some (Decimal.D5 d)
          | 54%N => Some (Decimal.D6 d) | 55%N => Some (Decimal.D7 d)
          | 56%N => Some (Decimal.D8 d) | 57%N => Some (Decimal.D9 d)
          | _ => None
          end
      end
  end.

Definition dec_of_N (n : N) : pystr := digits_of_uint (N.to_uint n).

Definition N_of_dec (s : pystr) : option N :=
  option_map N.of_uint (uint_of_digits s).

Definition dec_of_Z (z : Z) : pystr :=
  match z with
  | Zneg p => lit "-" ++ dec_of_N (Npos p)
  | _ => dec_of_N (Z.to_N z)
  end.

(** ** Python floats and the [.Nf] format

    A [float] is an IEEE binary64 value, here a [spec_float] (sign, mantissa
    and binary exponent, or a zero, an infinity or a NaN). *)

Definition float := spec_float.

Definition float_zero : float := S754_zero false.

(** [float(n)] for a Python [int]: the nearest binary64, [None] when the
    integer is too large (CPython raises [OverflowError]). *)
Definition float_of_int (z : Z) : option float :=
  match binary_normalize 53 1024 z 0 false with
  | S754_infinity _ => None
  | S754_nan => None
  | f => Some f
  end.

(** [x >= 0] on a float: false for a NaN, true for both zeros. *)
Definition float_ge_zero (x : float) : bool := SFleb float_zero x.

(** The integer nearest to [m * 2^e * 10^d], ties to the even one: the
    digits a correctly rounded [.{d}f] conversion prints for the magnitude
    [m * 2^e]. *)
Definition round_scaled (d : nat) (m : positive) (e : Z) : Z :=
  let num := Zpos m * 10 ^ Z.of_nat d in
  if 0 <=? e then num * 2 ^ e
  else
    let den := 2 ^ (- e) in
    let q := num / den in
    let r := num mod den in
    match 2 * r ?= den with
    | Lt => q
    | Gt => q + 1
    | Eq => if Z.even q then q else q + 1
    end.

Definition zero_pad (width : nat) (s : pystr) : pystr :=
  repeat 48%N (width - length s) ++ s.

(** The scaled integer [n] printed with [d] digits after the point. *)
Definition fixed_digits (d : nat) (n : Z) : pystr :=
  let p := 10 ^ Z.of_nat d in
  dec_of_N (Z.to_N (n / p)) ++
  match d with
  | O => []
  | _ => lit "." ++ zero_pad d (dec_of_N (Z.to_N (n mod p)))
  end.

Definition sign_prefix (plus neg : bool) : pystr :=
  if neg then lit "-" else if plus then lit "+" else [].

(** [format(x, '.{d}f')], and with [plus] the [+] flag: [format(x, '+.{d}f')]. *)
Definition format_f (plus : bool) (d : nat) (x : float) : pystr :=
  match x with
  | S754_nan => sign_prefix plus false ++ lit "nan"
  | S754_infinity s => sign_prefix plus s ++ lit "inf"
  | S754_zero s => sign_prefix plus s ++ fixed_digits d 0
  | S754_finite s m e => sign_prefix plus s ++ fixed_digits d (round_scaled d m e)
  end.

(** A decimal literal [num / den] (with [den] a power of ten) read as a
    float: the nearest binary64, ties to even, as [float("1.23456")] and the
    JSON decoder give it. *)
Definition float_lit (neg : bool) (num den : positive) : float :=
  SFdiv 53 1024 (S754_finite neg num 0) (S754_finite false den 0).

(** ** Python exceptions

    The classes the bot raises, catches or can be handed by its
    collaborators, with the base class of each. *)

Inductive exn_class : Set :=
| BaseException | CancelledError | Exception
| AssertionError | RuntimeError | TypeError
| ValueError | JSONDecodeError
| LookupError | KeyError
| ArithmeticError | OverflowError
| OSError | TimeoutError           (* asyncio.TimeoutError *)
| ClientError | ContentTypeError   (* aiohttp *)
| DiscordException | HTTPException | Forbidden | NotFound | RateLimited.

Definition parent (c : exn_class) : option exn_class :=
  match c with
  | BaseException => None
  | CancelledError | Exception => Some BaseException
  | AssertionError | RuntimeError | TypeError | ValueError | LookupError
  | ArithmeticError | OSError | ClientError | DiscordException => Some Exception
  | JSONDecodeError => Some ValueError
  | KeyError => Some LookupError
  | OverflowError => Some ArithmeticError
  | TimeoutError => Some OSError
  | ContentTypeError => Some ClientError
  | HTTPException | RateLimited => Some DiscordException
  | Forbidden | NotFound => Some HTTPException
  end.

Definition exn_class_eqb (a b : exn_class) : bool :=
  match a, b with
  | BaseException, BaseException | CancelledError, CancelledError
  | Exception, Exception | AssertionError, AssertionError
  | RuntimeError, RuntimeError | TypeError, TypeError
  | ValueError, ValueError | JSONDecodeError, JSONDecodeError
  | LookupError, LookupError | KeyError, KeyError
  | ArithmeticError, ArithmeticError | OverflowError, OverflowError
  | OSError, OSError | TimeoutError, TimeoutError
  | ClientError, ClientError | ContentTypeError, ContentTypeError
  | DiscordException, DiscordException | HTTPException, HTTPException
  | Forbidden, Forbidden | NotFound, NotFound | RateLimited, RateLimited => true
  | _, _ => false
  end.

(** [issubclass(c, base)]; the hierarchy above is four levels deep. *)
Fixpoint issubclass_fuel (fuel : nat) (c base : exn_class) : bool :=
  exn_class_eqb c base ||
  match fuel with
  | O => false
  | S n => match parent c with
           | Some p => issubclass_fuel n p base
           | None => false
           end
  end.

Definition issubclass : exn_class -> exn_class -> bool := issubclass_fuel 4.

(** An exception value: its class and [str(e)]. *)
Record exn : Type := Exn { exn_cls : exn_class; exn_str : pystr }.

(** [isinstance(e, (c1, ..., cn))], the test of an [except] clause. *)
Definition isinstance (e : exn) (classes : list exn_class) : bool :=
  existsb (issubclass (exn_cls e)) classes.

(** ** JSON payloads

    What [resp.json()] returns.  An object keeps its members in document
    order; the decoder lets a later member with the same key win. *)

#[local] Set Warnings "-register-all".
Inductive json : Type :=
| JNull
| JBool (b : bool)
| JInt (z : Z)
| JFloat (f : float)
| JStr (s : pystr)
| JArr (items : list json)
| JObj (members : list (pystr * json)).

Fixpoint dict_get (members : list (pystr * json)) (key : pystr) : option json :=
  match members with
  | [] => None
  | (k, v) :: rest =>
      match dict_get rest key with
      | Some v' => Some v'
      | None => if pystr_eqb k key then Some v else None
      end
  end.

(** ** Discord data *)

Record permissions : Type :=
  { change_nickname : bool; manage_nicknames : bool }.

Record member : Type :=
  { member_id : Z; guild_permissions : permissions }.

Record guild : Type :=
  { guild_id : Z; guild_name : pystr; guild_me : option member }.

(** ** Logging *)

Inductive level : Set := DEBUG | INFO | WARNING | ERROR.

Definition level_rank (l : level) : nat :=
  match l with DEBUG => 10 | INFO => 20 | WARNING => 30 | ERROR => 40 end%nat.

(** ** Actions: what a coroutine asks of the outside world

    Each action is indexed by the type of its answer.  An [await] that can
    raise answers with the exception or the value. *)

(** What [session.get(...)] followed by [resp.json()] can do: raise while
    the request is made, or deliver a status and, when the body is read, the
    decoded payload or the exception the decoding raises. *)
Inductive http_outcome : Type :=
| HttpRaises (e : exn)
| HttpResponse (status : Z) (body : exn + json).

Inductive action : Type -> Type :=
| WaitUntilReady : action unit
| IsClosed : action bool
| GetGuild (id : Z) : action (option guild)
| Guilds : action (list guild)
| FetchMember (g : guild) : action (exn + member)
| EditNick (g : guild) (nick reason : pystr) : action (option exn)
| ChangePresence (name : pystr) : action (option exn)
| HttpGet (url : pystr) (timeout_seconds : Z) (user_agent : pystr) : action http_outcome
| FloatOfStr (s : pystr) : action (option float)
| Sleep (milliseconds : Z) : action unit
| Log (lvl : level) (msg : pystr) : action unit
| Gather (targets : list guild) : action (option exn).

(** ** Coroutines as action trees *)

Inductive proc (R : Type) : Type :=
| Ret (r : R)
| Raise (e : exn)
| Do {X : Type} (a : action X) (k : X -> proc R).

Arguments Ret {R} r.
Arguments Raise {R} e.
Arguments Do {R X} a k.

Fixpoint bind {A B : Type} (p : proc A) (f : A -> proc B) : proc B :=
  match p with
  | Ret r => f r
  | Raise e => Raise e
  | Do a k => Do a (fun x => bind (k x) f)
  end.

(** [try: p except ...]: the handler answers [Some q] for an exception one
    of its clauses matches and [None] for one that propagates. *)
Fixpoint try_except {A : Type} (p : proc A) (handler : exn -> option (proc A)) : proc A :=
  match p with
  | Ret r => Ret r
  | Raise e => match handler e with
               | Some q => q
               | None => Raise e
               end
  | Do a k => Do a (fun x => try_except (k x) handler)
  end.

Definition perform {X : Type} (a : action X) : proc X := Do a Ret.

Declare Scope proc_scope.
Delimit Scope proc_scope with proc.
Notation "x <- p ;; q" := (bind p (fun x => q))
  (at level 61, p at next level, right associativity) : proc_scope.
Notation "p ;; q" := (bind p (fun _ => q))
  (at level 61, right associativity) : proc_scope.
Local Open Scope proc_scope.

(** [except (c1, ..., cn) as e: body]. *)
Definition except (classes : list exn_class) {A : Type} (body : exn -> proc A)
  : exn -> option (proc A) :=
  fun e => if isinstance e classes then Some (body e) else None.

(** ** The environment and the sequential interpreter *)

(** One performed action with its answer, and the coroutine that performed
    it: [0] is the updater loop, [S i] the [i]-th task a gather started. *)
Record entry : Type :=
  Entry { who : nat; ans_type : Type; act : action ans_type; ans : ans_type }.

Arguments Entry who {ans_type} act ans.

Definition trace := list entry.

(** The environment answers an action given everything that happened
    before it. *)
Definition env := forall X : Type, trace -> nat -> action X -> X.

Definition result (R : Type) : Type := (exn + R)%type.

Fixpoint run {R : Type} (E : env) (me : nat) (p : proc R) (h : trace)
  : result R * trace :=
  match p with
  | Ret r => (inr r, h)
  | Raise e => (inl e, h)
  | Do a k => let x := E _ h me a in run E me (k x) (h ++ [Entry me a x])
  end.

(** ** Configuration

    The module-level settings the functions read: [COIN_IDS],
    [INTERVAL_SECONDS], [GUILD_ID], and whether [_http_session] has been
    created ([on_ready] creates it before it starts the updater). *)

Record config : Type :=
  { COIN_IDS : list pystr;
    INTERVAL_SECONDS : Z;
    GUILD_ID : option Z;
    http_session : bool }.

(** ** [_fetch_one_id] *)

Definition quoted (s : pystr) : pystr := lit "'" ++ s ++ lit "'".

(** [row[key]] for a string key. *)
Definition subscript (row : json) (key : pystr) : proc json :=
  match row with
  | JObj members =>
      match dict_get members key with
      | Some v => Ret v
      | None => Raise (Exn KeyError (quoted key))
      end
  | JArr _ => Raise (Exn TypeError (lit "list indices must be integers or slices, not str"))
  | JStr _ => Raise (Exn TypeError (lit "string indices must be integers, not 'str'"))
  | JNull => Raise (Exn TypeError (lit "'NoneType' object is not subscriptable"))
  | JBool _ => Raise (Exn TypeError (lit "'bool' object is not subscriptable"))
  | JInt _ => Raise (Exn TypeError (lit "'int' object is not subscriptable"))
  | JFloat _ => Raise (Exn TypeError (lit "'float' object is not subscriptable"))
  end.

(** [float(v)] on a decoded JSON value.  Parsing a string is left to the
    runtime ([FloatOfStr]): it answers the value, or [None] where [float]
    raises [ValueError]. *)
Definition py_float (v : json) : proc float :=
  match v with
  | JFloat f => Ret f
  | JInt z =>
      match float_of_int z with
      | Some f => Ret f
      | None => Raise (Exn OverflowError (lit "int too large to convert to float"))
      end
  | JBool b => Ret (if b then float_lit false 1 1 else float_zero)
  | JStr s =>
      r <- perform (FloatOfStr s) ;;
      match r with
      | Some f => Ret f
      | None => Raise (Exn ValueError (lit "could not convert string to float: " ++ quoted s))
      end
  | JNull => Raise (Exn TypeError (lit "float() argument must be a string or a real number, not 'NoneType'"))
  | JArr _ => Raise (Exn TypeError (lit "float() argument must be a string or a real number, not 'list'"))
  | JObj _ => Raise (Exn TypeError (lit "float() argument must be a string or a real number, not 'dict'"))
  end.

Definition markets_url (coin_id : pystr) : pystr :=
  lit "https://api.coingecko.com/api/v3/coins/markets?vs_currency=usd&ids=" ++ coin_id.

Definition user_agent : pystr := lit "xrp-discord-bot/1.0".

(** What the body of [_fetch_one_id] does with the payload once the status
    is 200. *)
Definition parse_payload (data : json) : proc (float * float) :=
  match data with
  | JArr (row :: _) =>
      v <- subscript row (lit "current_price") ;;
      price <- py_float v ;;
      w <- subscript row (lit "price_change_percentage_24h") ;;
      change <- py_float w ;;
      Ret (price, change)
  | _ => Raise (Exn RuntimeError (lit "empty or invalid payload"))
  end.

Definition _fetch_one_id (coin_id : pystr) : proc (float * float) :=
  o <- perform (HttpGet (markets_url coin_id) 10 user_agent) ;;
  match o with
  | HttpRaises e => Raise e
  | HttpResponse status body =>
      if negb (status =? 200) then
        Raise (Exn RuntimeError (lit "HTTP " ++ dec_of_Z status))
      else
        match body with
        | inl e => Raise e
        | inr data => parse_payload data
        end
  end.

(** ** [get_price_data] *)

(** Waits before the attempts on one id, in milliseconds
    ([0, 1.5, 3.0, 5.0] seconds). *)
Definition backoffs : list Z := [0; 1500; 3000; 5000].

(** [enumerate(xs, start)]. *)
Fixpoint enumerate {A : Type} (start : nat) (xs : list A) : list (nat * A) :=
  match xs with
  | [] => []
  | x :: rest => (start, x) :: enumerate (S start) rest
  end.

Definition caught_by_fetcher : list exn_class := [ClientError; TimeoutError; RuntimeError].

(** How one pass through the body of the inner loop ends. *)
Inductive attempt_end : Type :=
| Returned (sample : float * float)
| Failed (e : exn).

Definition str_opt_exn (e : option exn) : pystr :=
  match e with
  | Some e => exn_str e
  | None => lit "None"
  end.

Definition one_attempt (first_id coin_id : pystr) (attempt : nat) (delay : Z)
  : proc attempt_end :=
  (if delay =? 0 then Ret tt else perform (Sleep delay)) ;;
  try_except
    (sample <- _fetch_one_id coin_id ;;
     (if pystr_eqb coin_id first_id then Ret tt
      else perform (Log INFO (lit "Using fallback CoinGecko id " ++ quoted coin_id ++ lit "."))) ;;
     Ret (Returned sample))
    (except caught_by_fetcher (fun e =>
       perform (Log WARNING
                  (lit "CoinGecko error for id " ++ quoted coin_id ++ lit " (attempt "
                   ++ dec_of_N (N.of_nat attempt) ++ lit "): " ++ exn_str e)) ;;
       Ret (Failed e))).

(** The inner [for attempt, delay in enumerate(backoffs, start=1)]: the
    sample, or the last error once the attempts are used up. *)
Fixpoint attempts_loop (first_id coin_id : pystr) (todo : list (nat * Z))
  (last_err : option exn) : proc ((float * float) + option exn) :=
  match todo with
  | [] => Ret (inr last_err)
  | (attempt, delay) :: rest =>
      r <- one_attempt first_id coin_id attempt delay ;;
      match r with
      | Returned sample => Ret (inl sample)
      | Failed e => attempts_loop first_id coin_id rest (Some e)
      end
  end.

(** The outer [for coin_id in COIN_IDS]. *)
Fixpoint ids_loop (first_id : pystr) (ids : list pystr) (last_err : option exn)
  : proc (float * float) :=
  match ids with
  | [] => Raise (Exn RuntimeError
                   (lit "Failed to fetch XRP price after retries: " ++ str_opt_exn last_err))
  | coin_id :: rest =>
      r <- attempts_loop first_id coin_id (enumerate 1 backoffs) last_err ;;
      match r with
      | inl sample => Ret sample
      | inr last_err' => ids_loop first_id rest last_err'
      end
  end.

Definition get_price_data (cfg : config) : proc (float * float) :=
  ids_loop (hd [] (COIN_IDS cfg)) (COIN_IDS cfg) None.

(** ** [update_guild] *)

Definition up_marker : pychar := 128994%N.    (* U+1F7E2, large green circle *)
Definition down_marker : pychar := 128308%N.  (* U+1F534, large red circle *)

Definition emoji_of (change_24h : float) : pychar :=
  if float_ge_zero change_24h then up_marker else down_marker.

(** The f-string of line 112. *)
Definition format_nickname (price change_24h : float) : pystr :=
  lit "$" ++ format_f false 3 price ++ lit " " ++ [emoji_of change_24h].

(** Lines 111 to 114: the nickname that is applied. *)
Definition nickname_of (price change_24h : float) : pystr :=
  let nickname := format_nickname price change_24h in
  if (32 <? length nickname)%nat then firstn 32 nickname else nickname.

Definition status_text (change_24h : float) : pystr :=
  lit "24h " ++ format_f true 2 change_24h ++ lit "%".

Definition tag (g : guild) : pystr := lit "[" ++ guild_name g ++ lit "] ".

(** An awaited call that answers with an exception raises it. *)
Definition raising (r : option exn) : proc unit :=
  match r with
  | Some e => Raise e
  | None => Ret tt
  end.

Definition resolve_me (g : guild) : proc member :=
  match guild_me g with
  | Some me => Ret me
  | None =>
      r <- perform (FetchMember g) ;;
      match r with
      | inl e => Raise e
      | inr me => Ret me
      end
  end.

Definition arrow : pychar := 8594%N.  (* U+2192 *)

(** Lines 95 to 128: what [update_guild] does once it holds the bot's
    membership [me]. *)
Definition update_as (cfg : config) (g : guild) (me : member) : proc unit :=
  let perms := guild_permissions me in
  if negb (change_nickname perms || manage_nicknames perms) then
    perform (Log INFO (tag g ++ lit "Missing permission: Change Nickname (or Manage Nicknames)."))
  else
    fetched <- try_except
         ((if http_session cfg then Ret tt
           else Raise (Exn AssertionError (lit "HTTP session not initialized"))) ;;
          sample <- get_price_data cfg ;;
          Ret (Some sample))
         (except [Exception] (fun e =>
            perform (Log WARNING (tag g ++ lit "Price fetch failed: " ++ exn_str e)) ;;
            try_except
              (r <- perform (ChangePresence (lit "API error")) ;; raising r)
              (except [Exception] (fun _ => Ret tt)) ;;
            Ret None)) ;;
    match fetched with
    | None => Ret tt
    | Some (price, change_24h) =>
        let nickname := nickname_of price change_24h in
        try_except
          (r <- perform (EditNick g nickname (lit "Auto price update")) ;; raising r)
          (fun e =>
             if isinstance e [Forbidden] then
               Some (perform (Log INFO (tag g ++ lit "Forbidden: role hierarchy/permissions block nickname change.")))
             else if isinstance e [HTTPException] then
               Some (perform (Log WARNING (tag g ++ lit "HTTP error updating nick: " ++ exn_str e)))
             else None) ;;
        try_except
          (r <- perform (ChangePresence (status_text change_24h)) ;; raising r)
          (except [Exception] (fun e =>
             perform (Log DEBUG (tag g ++ lit "Could not set presence: " ++ exn_str e)))) ;;
        perform (Log INFO (tag g ++ lit "Nick " ++ [arrow] ++ lit " " ++ nickname
                           ++ lit " | 24h " ++ [arrow] ++ lit " "
                           ++ format_f true 2 change_24h ++ lit "%"))
    end.

Definition update_guild (cfg : config) (g : guild) : proc unit :=
  r <- try_except
         (me <- resolve_me g ;; Ret (Some me))
         (except [HTTPException] (fun e =>
            perform (Log WARNING (tag g ++ lit "Could not fetch bot member: " ++ exn_str e)) ;;
            Ret None)) ;;
  match r with
  | None => Ret tt
  | Some me => update_as cfg g me
  end.

(** ** [updater_loop] *)

(** Lines 137 to 143: the targets of one pass. *)
Definition resolve_targets (cfg : config) : proc (list guild) :=
  match GUILD_ID cfg with
  | Some id =>
      if id =? 0 then perform Guilds
      else
        g <- perform (GetGuild id) ;;
        match g with
        | Some g => Ret [g]
        | None =>
            perform (Log INFO (lit "Configured GUILD_ID not found yet. Is the bot in that server?")) ;;
            Ret []
        end
  | None => perform Guilds
  end.

(** Line 148: the awaited [asyncio.gather] of one [update_guild(g)] per
    target. *)
Definition gather_all (targets : list guild) : proc unit :=
  r <- perform (Gather targets) ;; raising r.

(** Lines 145 to 148. *)
Definition fan_out (targets : list guild) : proc unit :=
  match targets with
  | [] => perform (Log INFO (lit "No guilds to update yet."))
  | _ => gather_all targets
  end.

(** The [try] statement of the loop body, lines 136 to 150. *)
Definition tick (cfg : config) : proc unit :=
  try_except
    (targets <- resolve_targets cfg ;; fan_out targets)
    (except [Exception] (fun e =>
       perform (Log ERROR (lit "Updater loop error: " ++ exn_str e)))).

(** How a bounded run of the loop ends: the client was closed, or the
    passes it was given are used up. *)
Inductive loop_end : Set := ClientClosed | PassesUsedUp.

(** The [while not client.is_closed()] loop, unrolled [passes] times. *)
Fixpoint loop_passes (cfg : config) (passes : nat) : proc loop_end :=
  match passes with
  | O => Ret PassesUsedUp
  | S n =>
      closed <- perform IsClosed ;;
      if closed then Ret ClientClosed
      else
        tick cfg ;;
        perform (Sleep (INTERVAL_SECONDS cfg * 1000)) ;;
        loop_passes cfg n
  end.

Definition updater_loop (cfg : config) (passes : nat) : proc loop_end :=
  perform WaitUntilReady ;;
  perform (Log INFO (lit "Updater loop started.")) ;;
  loop_passes cfg passes.

(** ** [COIN_IDS], lines 14 to 16

    [[s.strip() for s in os.environ.get("COINGECKO_IDS", "ripple,xrp").split(",")
      if s.strip()]]. *)

(** [c.isspace()] for one character: the code points Python counts as
    whitespace. *)
Definition isspace (c : pychar) : bool :=
  ((9 <=? c) && (c <=? 13) || (28 <=? c) && (c <=? 32) || (c =? 133) || (c =? 160)
   || (c =? 5760) || (8192 <=? c) && (c <=? 8202) || (c =? 8232) || (c =? 8233)
   || (c =? 8239) || (c =? 8287) || (c =? 12288))%N.

Fixpoint lstrip (s : pystr) : pystr :=
  match s with
  | [] => []
  | c :: rest => if isspace c then lstrip rest else s
  end.

Definition rstrip (s : pystr) : pystr := rev (lstrip (rev s)).

(** [s.strip()]. *)
Definition strip (s : pystr) : pystr := rstrip (lstrip s).

(** [s.split(sep)] for a separator of one character: the pieces between
    the separators, the empty ones included; one empty piece for the empty
    string. *)
Fixpoint str_split (sep : pychar) (s : pystr) : list pystr :=
  match s with
  | [] => [[]]
  | c :: rest =>
      if (c =? sep)%N then [] :: str_split sep rest
      else
        match str_split sep rest with
        | piece :: pieces => (c :: piece) :: pieces
        | [] => [[c]]
        end
  end.

Definition comma : pychar := 44%N.

(** The value of [COIN_IDS] when the variable [COINGECKO_IDS] holds [raw]
    ([None] when it is unset). *)
Definition parse_coin_ids (raw : option pystr) : list pystr :=
  let text := match raw with Some s => s | None => lit "ripple,xrp" end in
  map strip (filter (fun s => match strip s with [] => false | _ => true end)
                    (str_split comma text)).

(** ** [on_ready], lines 156 to 165

    The two globals the handler reads and writes, and what it does besides:
    its log line, the creation of a session, the start of the updater. *)

(** A global that holds [None], an object in use, or one that is over: a
    closed session, a task that is done. *)
Inductive handle : Set := Unset | Live | Over.

Record globals : Type :=
  { _http_session : handle;
    update_task : handle }.

Inductive startup_step : Type :=
| Logged (lvl : level) (msg : pystr)
| SessionCreated
| UpdaterStarted.

(** [x is None or x.closed], [x is None or x.done()]. *)
Definition to_replace (x : handle) : bool :=
  match x with
  | Live => false
  | Unset | Over => true
  end.

Definition on_ready (user : pystr) (guild_count : nat) (gl : globals)
  : globals * list startup_step :=
  let line := Logged INFO (lit "Logged in as " ++ user ++ lit " in "
                           ++ dec_of_N (N.of_nat guild_count) ++ lit " guild(s).") in
  let session := if to_replace (_http_session gl) then Live else _http_session gl in
  let created := if to_replace (_http_session gl) then [SessionCreated] else [] in
  let task := if to_replace (update_task gl) then Live else update_task gl in
  let started := if to_replace (update_task gl) then [UpdaterStarted] else [] in
  ({| _http_session := session; update_task := task |}, line :: created ++ started).

(** ** The scheduler: [asyncio.gather] on one event loop

    The updater loop is coroutine [0].  When it reaches a gather it starts
    one task per target and waits.  The event loop then advances one
    coroutine at a time, in an order the schedule gives.  A task that
    returns leaves the pool; when the last awaited task has left, the
    waiting coroutine resumes (a gather of nothing resumes at once).  A task
    that raises leaves the pool too, and
    (gather being called without [return_exceptions]) the waiting coroutine
    resumes at once with that exception; the other tasks are not cancelled
    and stay in the pool, where the schedule keeps advancing them. *)

Module Machine.

Section WithChild.

(** The coroutine a gather starts for one target. *)
Variable child : guild -> proc unit.
Variable E : env.
Variable R : Type.

Inductive status : Type :=
| Running (p : proc R)
| Waiting (targets : list guild) (ids : list nat) (k : option exn -> proc R).

Record state : Type :=
  { main : status;
    pool : list (nat * proc unit);
    next_id : nat;
    finished : list (nat * result unit);
    hist : trace }.

Definition init (p : proc R) : state :=
  {| main := Running p; pool := []; next_id := 0; finished := []; hist := [] |}.

(** A gather, with its targets and the way its outcome is passed on. *)
Definition as_gather {X : Type} (a : action X)
  : option (list guild * (option exn -> X)) :=
  match a in action X return option (list guild * (option exn -> X)) with
  | Gather targets => Some (targets, fun r => r)
  | _ => None
  end.

Fixpoint lookup (i : nat) (ps : list (nat * proc unit)) : option (proc unit) :=
  match ps with
  | [] => None
  | (j, p) :: rest => if Nat.eqb i j then Some p else lookup i rest
  end.

Fixpoint update (i : nat) (q : proc unit) (ps : list (nat * proc unit))
  : list (nat * proc unit) :=
  match ps with
  | [] => []
  | (j, p) :: rest =>
      if Nat.eqb i j then (j, q) :: rest else (j, p) :: update i q rest
  end.

Definition remove (i : nat) (ps : list (nat * proc unit)) : list (nat * proc unit) :=
  filter (fun jp => negb (Nat.eqb i (fst jp))) ps.

Definition live (ps : list (nat * proc unit)) (i : nat) : bool :=
  existsb (fun jp => Nat.eqb i (fst jp)) ps.

(** The updater coroutine reaches a gather: one task per target joins the
    pool and the coroutine waits for them; with no target it goes on at
    once. *)
Definition spawn (targets : list guild) (k : option exn -> proc R) (st : state) : state :=
  match targets with
  | [] =>
      {| main := Running (k None);
         pool := pool st;
         next_id := next_id st;
         finished := finished st;
         hist := hist st ++ [Entry 0%nat (Gather []) None] |}
  | _ =>
      let ids := seq (next_id st) (length targets) in
      {| main := Waiting targets ids k;
         pool := pool st ++ combine ids (map child targets);
         next_id := (next_id st + length targets)%nat;
         finished := finished st;
         hist := hist st |}
  end.

(** The updater coroutine takes one step. *)
Definition step_main (st : state) : state :=
  match main st with
  | Waiting _ _ _ => st
  | Running (Ret _) => st
  | Running (Raise _) => st
  | Running (Do a k) =>
      match as_gather a with
      | Some (targets, pass) => spawn targets (fun r => k (pass r)) st
      | None =>
          let x := E _ (hist st) 0%nat a in
          {| main := Running (k x);
             pool := pool st;
             next_id := next_id st;
             finished := finished st;
             hist := hist st ++ [Entry 0%nat a x] |}
      end
  end.

(** Task [i] has left the pool with outcome [r]: what the waiting
    coroutine does. *)
Definition wake (i : nat) (r : result unit) (left : list (nat * proc unit))
  (m : status) (h : trace) : status * trace :=
  match m with
  | Running _ => (m, h)
  | Waiting targets ids k =>
      match r with
      | inl e =>
          if existsb (Nat.eqb i) ids
          then (Running (k (Some e)), h ++ [Entry 0%nat (Gather targets) (Some e)])
          else (m, h)
      | inr _ =>
          if existsb (live left) ids then (m, h)
          else (Running (k None), h ++ [Entry 0%nat (Gather targets) None])
      end
  end.

Definition finish (i : nat) (r : result unit) (st : state) : state :=
  let left := remove i (pool st) in
  let '(m, h) := wake i r left (main st) (hist st) in
  {| main := m;
     pool := left;
     next_id := next_id st;
     finished := finished st ++ [(i, r)];
     hist := h |}.

(** Task [i] takes one step. *)
Definition step_task (i : nat) (st : state) : state :=
  match lookup i (pool st) with
  | None => st
  | Some (Ret r) => finish i (inr r) st
  | Some (Raise e) => finish i (inl e) st
  | Some (Do a k) =>
      let x := E _ (hist st) (S i) a in
      {| main := main st;
         pool := update i (k x) (pool st);
         next_id := next_id st;
         finished := finished st;
         hist := hist st ++ [Entry (S i) a x] |}
  end.

(** One step of the event loop: [0] advances the updater coroutine,
    [S i] the task [i]. *)
Definition step (choice : nat) (st : state) : state :=
  match choice with
  | O => step_main st
  | S i => step_task i st
  end.

Fixpoint exec (schedule : list nat) (st : state) : state :=
  match schedule with
  | [] => st
  | c :: rest => exec rest (step c st)
  end.

(** How a finished coroutine ended. *)
Definition ended (p : proc unit) : option (result unit) :=
  match p with
  | Ret r => Some (inr r)
  | Raise e => Some (inl e)
  | Do _ _ => None
  end.

(** The shapes a step of the event loop can take. *)
Inductive step_case (st st' : state) : Prop :=
| sc_idle : st' = st -> step_case st st'
| sc_main X (a : action X) k :
    main st = Running (Do a k) ->
    as_gather a = None ->
    st' = {| main := Running (k (E _ (hist st) 0%nat a));
             pool := pool st;
             next_id := next_id st;
             finished := finished st;
             hist := hist st ++ [Entry 0%nat a (E _ (hist st) 0%nat a)] |} ->
    step_case st st'
| sc_spawn targets k :
    main st = Running (Do (Gather targets) k) ->
    st' = spawn targets k st ->
    step_case st st'
| sc_task i X (a : action X) k :
    lookup i (pool st) = Some (Do a k) ->
    st' = {| main := main st;
             pool := update i (k (E _ (hist st) (S i) a)) (pool st);
             next_id := next_id st;
             finished := finished st;
             hist := hist st ++ [Entry (S i) a (E _ (hist st) (S i) a)] |} ->
    step_case st st'
| sc_end i p r :
    lookup i (pool st) = Some p ->
    ended p = Some r ->
    st' = finish i r st ->
    step_case st st'.

(** What is at the head of the updater coroutine when it is a gather, and
    how the coroutine goes on from its outcome. *)
Definition head_gather (m : status) : option (list guild) :=
  match m with
  | Running (Do a _) => option_map fst (as_gather a)
  | _ => None
  end.

Definition resume_with (m : status) (r : option exn) : option (proc R) :=
  match m with
  | Running (Do a k) =>
      match as_gather a with
      | Some (_, pass) => Some (k (pass r))
      | None => None
      end
  | _ => None
  end.

End WithChild.

Arguments Running {R} p.
Arguments Waiting {R} targets ids k.
Arguments main {R} s.
Arguments pool {R} s.
Arguments next_id {R} s.
Arguments finished {R} s.
Arguments hist {R} s.
Arguments init {R} p.
Arguments spawn child {R} targets k st.
Arguments step_main child E {R} st.
Arguments wake {R} i r left m h.
Arguments finish {R} i r st.
Arguments step_task E {R} i st.
Arguments step child E {R} choice st.
Arguments exec child E {R} schedule st.
Arguments step_case child E {R} st st'.
Arguments head_gather {R} m.
Arguments resume_with {R} m r.

End Machine.

(** ** Reading a trace *)

Definition is_http_get (e : entry) : bool :=
  match act e with HttpGet _ _ _ => true | _ => false end.

Definition is_sleep (e : entry) : bool :=
  match act e with Sleep _ => true | _ => false end.

Definition is_edit_nick (e : entry) : bool :=
  match act e with EditNick _ _ _ => true | _ => false end.

Definition is_change_presence (e : entry) : bool :=
  match act e with ChangePresence _ => true | _ => false end.

Definition is_log (e : entry) : bool :=
  match act e with Log _ _ => true | _ => false end.

Definition log_level (e : entry) : option level :=
  match act e with Log l _ => Some l | _ => None end.

Definition count (f : entry -> bool) (t : trace) : nat := length (filter f t).

(** The status line after a trace: the name of the last presence change
    that succeeded, whoever made it. *)
Definition presence_written (e : entry) : option pystr :=
  match e with
  | Entry _ a x =>
      match a in action X return X -> option pystr with
      | ChangePresence name => fun r => match r with None => Some name | Some _ => None end
      | _ => fun _ => None
      end x
  end.

Fixpoint presence_after (old : option pystr) (t : trace) : option pystr :=
  match t with
  | [] => old
  | e :: rest =>
      presence_after (match presence_written e with Some n => Some n | None => old end) rest
  end.

(** ** Exact value of a finite float, scaled

    [m * 2^e * 10^d] as the fraction [scaled_num / scaled_den]. *)

Definition scaled_num (d : nat) (m : positive) (e : Z) : Z :=
  if 0 <=? e then Zpos m * 10 ^ Z.of_nat d * 2 ^ e else Zpos m * 10 ^ Z.of_nat d.

Definition scaled_den (e : Z) : Z :=
  if 0 <=? e then 1 else 2 ^ (- e).

(** [n] is the integer nearest to [num / den], the even one of the two when
    [num / den] lies half way. *)
Definition nearest_even (num den n : Z) : Prop :=
  (forall k, Z.abs (num - n * den) <= Z.abs (num - k * den)) /\
  (forall k, k <> n -> Z.abs (num - n * den) = Z.abs (num - k * den) -> Z.even n = true).

(** The outcomes of the gathers the updater loop awaited, in order. *)
Definition gather_outcome (e : entry) : list (option exn) :=
  match e with
  | Entry O a x =>
      match a in action X return X -> list (option exn) with
      | Gather _ => fun r => [r]
      | _ => fun _ => []
      end x
  | Entry (S _) _ _ => []
  end.

Definition gathered (t : trace) : list (option exn) := flat_map gather_outcome t.

(** A short name for the action of an entry, to print traces. *)
Definition action_name (e : entry) : string :=
  match act e with
  | WaitUntilReady => "wait_until_ready"
  | IsClosed => "is_closed"
  | GetGuild _ => "get_guild"
  | Guilds => "guilds"
  | FetchMember _ => "fetch_member"
  | EditNick _ _ _ => "edit_nick"
  | ChangePresence _ => "change_presence"
  | HttpGet _ _ _ => "http_get"
  | FloatOfStr _ => "float"
  | Sleep _ => "sleep"
  | Log _ _ => "log"
  | Gather _ => "gather"
  end%string.

Definition summary (t : trace) : list (nat * string) :=
  map (fun e => (who e, action_name e)) t.

(** ** Sample worlds

    Environments built from a few answers, used to run the program on
    concrete inputs. *)

Record world : Type :=
  { on_http : trace -> nat -> pystr -> http_outcome;
    on_fetch_member : guild -> exn + member;
    on_edit : guild -> option exn;
    on_presence : pystr -> option exn;
    on_guilds : list guild;
    on_closed : bool }.

Definition answer (w : world) : env :=
  fun X h me a =>
    match a in action X return X with
    | WaitUntilReady => tt
    | IsClosed => on_closed w
    | GetGuild id => find (fun g => guild_id g =? id) (on_guilds w)
    | Guilds => on_guilds w
    | FetchMember g => on_fetch_member w g
    | EditNick g _ _ => on_edit w g
    | ChangePresence name => on_presence w name
    | HttpGet url _ _ => on_http w h me url
    | FloatOfStr _ => None
    | Sleep _ => tt
    | Log _ _ => tt
    | Gather _ => None
    end.

(** The environment [E] with every awaited gather ending in the exception
    [e], for runs of the updater loop by the sequential interpreter, which
    asks the environment for the outcome of a gather. *)
Definition gather_fails (e : exn) (E : env) : env :=
  fun X h me a =>
    match a in action X return X -> X with
    | Gather _ => fun _ => Some e
    | _ => fun x => x
    end (E X h me a).

(** The configuration the bot runs with when only [TOKEN] is set. *)
Definition default_config : config :=
  {| COIN_IDS := [lit "ripple"; lit "xrp"];
     INTERVAL_SECONDS := 60;
     GUILD_ID := None;
     http_session := true |}.

Definition may_nick : member :=
  {| member_id := 7;
     guild_permissions := {| change_nickname := true; manage_nicknames := false |} |}.

Definition may_not_nick : member :=
  {| member_id := 7;
     guild_permissions := {| change_nickname := false; manage_nicknames := false |} |}.

Definition guild_a : guild :=
  {| guild_id := 1; guild_name := lit "A"; guild_me := Some may_nick |}.

Definition guild_b : guild :=
  {| guild_id := 2; guild_name := lit "B"; guild_me := Some may_nick |}.

(** A guild whose member cache does not hold the bot. *)
Definition guild_c : guild :=
  {| guild_id := 3; guild_name := lit "C"; guild_me := None |}.

Definition guild_d : guild :=
  {| guild_id := 4; guild_name := lit "D"; guild_me := Some may_not_nick |}.

(** A well-formed market row: price 0.5, change +2.50. *)
Definition good_row : json :=
  JObj [(lit "current_price", JFloat (float_lit false 5 10));
        (lit "price_change_percentage_24h", JFloat (float_lit false 250 100))].

(** A row without its [current_price] member. *)
Definition row_without_price : json :=
  JObj [(lit "price_change_percentage_24h", JFloat (float_lit false 250 100))].

(** A row whose [current_price] is [null]. *)
Definition row_null_price : json :=
  JObj [(lit "current_price", JNull);
        (lit "price_change_percentage_24h", JFloat (float_lit false 250 100))].

Definition always (o : http_outcome) : trace -> nat -> pystr -> http_outcome :=
  fun _ _ _ => o.

Definition calm_world (http : trace -> nat -> pystr -> http_outcome) : world :=
  {| on_http := http;
     on_fetch_member := fun _ => inr may_nick;
     on_edit := fun _ => None;
     on_presence := fun _ => None;
     on_guilds := [guild_a; guild_b];
     on_closed := false |}.

(** The bot is in two guilds; in the first its membership is not cached
    and the request for it times out (an error the Discord client hands on
    as it is), in the second everything works. *)
Definition lookup_times_out : world :=
  {| on_http := always (HttpResponse 200 (inr (JArr [good_row])));
     on_fetch_member := fun _ => inl (Exn TimeoutError (lit ""));
     on_edit := fun _ => None;
     on_presence := fun _ => None;
     on_guilds := [guild_c; guild_a];
     on_closed := false |}.

(** The price API answers the first coroutine that asks and fails for any
    other (status 429, too many requests). *)
Definition second_caller_throttled : world :=
  calm_world (fun _ me _ =>
                match me with
                | 1%nat => HttpResponse 200 (inr (JArr [good_row]))
                | _ => HttpResponse 429 (inr JNull)
                end).

(** * Vocabulary of the properties

    Readers of traces, predicates on action trees and restrictions of the
    environment's answers, in which the properties below are stated. *)

Import Machine.

(** Three zero-padded digits read back as the number below 1000 they were
    printed from; checked on each of the thousand. *)
Definition pad3_reads_back (r : N) : bool :=
  let s := zero_pad 3 (dec_of_N r) in
  Nat.eqb (length s) 3 &&
  match N_of_dec s with
  | Some r' => N.eqb r' r
  | None => false
  end.

(** A decimal numeral as [str(n)] writes it: at least one character, and
    no zero in front unless it is "0" itself.  Together with its value this
    fixes the numeral. *)
Definition canonical (s : pystr) : Prop :=
  s <> [] /\ (hd 48%N s = 48%N -> s = [48%N]).

(** [all_actions P p]: every action [p] can come to perform, whatever the
    answers, satisfies [P]. *)
Fixpoint all_actions (P : forall X, action X -> Prop) {R : Type} (p : proc R) : Prop :=
  match p with
  | Ret _ => True
  | Raise _ => True
  | Do a k => P _ a /\ forall x, all_actions P (k x)
  end.

(** [lets_out ok C p]: whatever the environment answers within [ok], an
    exception that leaves [p] satisfies [C]. *)
Fixpoint lets_out (ok : forall X, action X -> X -> Prop) (C : exn -> Prop)
  {R : Type} (p : proc R) : Prop :=
  match p with
  | Ret _ => True
  | Raise e => C e
  | Do a k => forall x, ok _ a x -> lets_out ok C (k x)
  end.

(** Every answer of [E] is within [ok]. *)
Definition answers_within (ok : forall X, action X -> X -> Prop) (E : env) : Prop :=
  forall X h me (a : action X), ok X a (E X h me a).

(** What an attempt makes of the answer to its request when it ends in an
    exception the fetcher catches: that exception. *)
Definition fails_recoverably (o : http_outcome) : option exn :=
  match o with
  | HttpRaises e => if isinstance e caught_by_fetcher then Some e else None
  | HttpResponse status body =>
      if negb (status =? 200) then Some (Exn RuntimeError (lit "HTTP " ++ dec_of_Z status))
      else
        match body with
        | inl e => if isinstance e caught_by_fetcher then Some e else None
        | inr (JArr (_ :: _)) => None
        | inr _ => Some (Exn RuntimeError (lit "empty or invalid payload"))
        end
  end.

(** The same, read from the entry of a request. *)
Definition attempt_failure (e : entry) : option exn :=
  match e with
  | Entry _ a x =>
      match a in action X return X -> option exn with
      | HttpGet _ _ _ => fun o => fails_recoverably o
      | _ => fun _ => None
      end x
  end.

(** The failure of the last request of a trace, [acc] when it has none. *)
Fixpoint last_error_from (acc : option exn) (t : trace) : option exn :=
  match t with
  | [] => acc
  | e :: rest =>
      last_error_from (match attempt_failure e with Some x => Some x | None => acc end) rest
  end.

(** The error [get_price_data] holds in [last_err] after the trace [t]. *)
Definition last_error (t : trace) : option exn := last_error_from None t.

(** The requests and waits of a trace, in order. *)
Inductive io : Type :=
| Req (url : pystr)
| Wait (milliseconds : Z).

(** The request or the wait an entry stands for, nothing for the rest. *)
Definition io_of_entry (e : entry) : list io :=
  match act e with
  | HttpGet url _ _ => [Req url]
  | Sleep ms => [Wait ms]
  | _ => []
  end.

Definition io_of (t : trace) : list io := flat_map io_of_entry t.

(** One attempt on an id that fails: its wait, if any, and its request. *)
Definition attempt_io (coin_id : pystr) (nd : nat * Z) : list io :=
  (if snd nd =? 0 then [] else [Wait (snd nd)]) ++ [Req (markets_url coin_id)].

(** The requests and waits spent on one id when all four attempts fail. *)
Definition id_io (coin_id : pystr) : list io :=
  [Req (markets_url coin_id);
   Wait 1500; Req (markets_url coin_id);
   Wait 3000; Req (markets_url coin_id);
   Wait 5000; Req (markets_url coin_id)].

(** A nickname edit asks for at most 32 characters. *)
Definition nick_fits (X : Type) (a : action X) : Prop :=
  match a with
  | EditNick _ nick _ => (length nick <= 32)%nat
  | _ => True
  end.

(** [isinstance(e, Exception)]: what [except Exception] catches. *)
Definition is_exception (e : exn) : Prop := isinstance e [Exception] = true.


(** Answers whose exceptions are all instances of [Exception] (no
    cancellation is delivered). *)
Definition errors_are_exceptions (X : Type) (a : action X) : X -> Prop :=
  match a in action X return X -> Prop with
  | FetchMember _ =>
      fun r => match r with inl e => is_exception e | inr _ => True end
  | EditNick _ _ _ =>
      fun r => match r with Some e => is_exception e | None => True end
  | ChangePresence _ =>
      fun r => match r with Some e => is_exception e | None => True end
  | Gather _ =>
      fun r => match r with Some e => is_exception e | None => True end
  | HttpGet _ _ _ =>
      fun o => match o with
               | HttpRaises e => is_exception e
               | HttpResponse _ (inl e) => is_exception e
               | HttpResponse _ (inr _) => True
               end
  | _ => fun _ => True
  end.


(** A world where the edit is refused with [Forbidden] and the price
    request times out. *)
Definition refusing_world : world :=
  {| on_http := always (HttpRaises (Exn TimeoutError (lit "")));
     on_fetch_member := fun _ => inl (Exn NotFound (lit "404 Not Found"));
     on_edit := fun _ => Some (Exn Forbidden (lit "403 Forbidden"));
     on_presence := fun _ => Some (Exn HTTPException (lit "500 Internal Server Error"));
     on_guilds := [guild_a; guild_c];
     on_closed := false |}.

Definition closed_seen (e : entry) : bool :=
  match e with
  | Entry _ a x =>
      match a in action X return X -> bool with
      | IsClosed => fun b => b
      | _ => fun _ => false
      end x
  end.

(** The only action the reading of a payload can ask for: the parsing of a
    string by [float]. *)
Definition parse_action (X : Type) (a : action X) : Prop :=
  match a with
  | FloatOfStr _ => True
  | _ => False
  end.

(** How the updater loop goes on from the outcome [r] of the gather of a
    pass, with [n] passes to follow: the rest of the [try] statement (lines
    148 to 150), the sleep of line 152 and the next passes. *)
Definition after_gather (cfg : config) (n : nat) (r : option exn) : proc loop_end :=
  try_except (raising r)
    (except [Exception] (fun e =>
       perform (Log ERROR (lit "Updater loop error: " ++ exn_str e)))) ;;
  perform (Sleep (INTERVAL_SECONDS cfg * 1000)) ;;
  loop_passes cfg n.

(** Actions other than the loop's own sleep and its check of the client. *)
Definition inside_a_pass (X : Type) (a : action X) : Prop :=
  match a with
  | Sleep _ => False
  | IsClosed => False
  | _ => True
  end.

Fixpoint spends (cost : forall X, action X -> nat) {R : Type} (p : proc R) (n : nat)
  (post : result R -> nat -> Prop) : Prop :=
  match p with
  | Ret r => post (inr r) n
  | Raise e => post (inl e) n
  | Do a k => (cost _ a <= n)%nat /\ forall x, spends cost (k x) (n - cost _ a) post
  end.

Definition anyhow {R : Type} : result R -> nat -> Prop := fun _ _ => True.

Definition spent (cost : forall X, action X -> nat) (t : trace) : nat :=
  list_sum (map (fun e => cost _ (act e)) t).

Definition fetcher_action (X : Type) (a : action X) : Prop :=
  match a with
  | HttpGet _ _ _ | FloatOfStr _ | Sleep _ | Log _ _ => True
  | _ => False
  end.

Definition presence_cost (X : Type) (a : action X) : nat :=
  match a with
  | ChangePresence _ => 1
  | _ => 0
  end.

(** A reconciliation can change the presence unless the cached membership
    already shows it lacks the permission. *)
Definition may_write (g : guild) : bool :=
  match guild_me g with
  | Some me => change_nickname (guild_permissions me) || manage_nicknames (guild_permissions me)
  | None => true
  end.

Definition writes_of (g : guild) : nat := if may_write g then 1 else 0.

(** Two guilds in one pass; the price API serves the first reconciliation
    and throttles the second on both ids. *)
Definition throttled_pass : state unit :=
  exec (update_guild default_config) (answer second_caller_throttled)
       ([0; 0; 1; 1; 1; 1; 1] ++ repeat 2 25)%nat
       (init (tick default_config)).

Definition not_a_request (X : Type) (a : action X) : Prop :=
  match a with
  | HttpGet _ _ _ => False
  | _ => True
  end.

(** The float [float(v)] gives for a JSON number or boolean, without a
    string to parse. *)
Definition number_of (v : json) : option float :=
  match v with
  | JFloat f => Some f
  | JInt z => float_of_int z
  | JBool b => Some (if b then float_lit false 1 1 else float_zero)
  | _ => None
  end.

(** One credit per request to the price API. *)
Definition request_cost (X : Type) (a : action X) : nat :=
  match a with
  | HttpGet _ _ _ => 1
  | _ => 0
  end.

(** The milliseconds an action sleeps. *)
Definition sleep_cost (X : Type) (a : action X) : nat :=
  match a with
  | Sleep ms => Z.to_nat ms
  | _ => 0
  end.

(** One credit per nickname edit. *)
Definition edit_cost (X : Type) (a : action X) : nat :=
  match a with
  | EditNick _ _ _ => 1
  | _ => 0
  end.

(** The error [get_price_data] raises once every id is used up. *)
Definition exhausted (last_err : option exn) : exn :=
  Exn RuntimeError (lit "Failed to fetch XRP price after retries: " ++ str_opt_exn last_err).

(** The price API knows "xrp" but answers 500 for "ripple". *)
Definition ripple_down : world :=
  calm_world (fun _ _ url =>
                if pystr_eqb url (markets_url (lit "ripple"))
                then HttpResponse 500 (inr JNull)
                else HttpResponse 200 (inr (JArr [good_row]))).

(** No restriction on the answers. *)
Definition any_answer (X : Type) (a : action X) (x : X) : Prop := True.

(** What may leave [get_price_data]: an exception its retry loop does not
    catch, or its own final error. *)
Definition leaves_fetcher (e : exn) : Prop :=
  isinstance e caught_by_fetcher = false \/ exists last_err, e = exhausted last_err.

(** The line [update_guild] logs for a nickname edit refused with the
    [HTTPException] [e]: INFO for a [Forbidden], WARNING for any other. *)
Definition refusal_line (g : guild) (e : exn) : level * pystr :=
  if isinstance e [Forbidden]
  then (INFO, tag g ++ lit "Forbidden: role hierarchy/permissions block nickname change.")
  else (WARNING, tag g ++ lit "HTTP error updating nick: " ++ exn_str e).

(** The price API works; Discord refuses the nickname edit with [Forbidden]
    and fails the presence change with a server error. *)
Definition discord_refuses : world :=
  {| on_http := always (HttpResponse 200 (inr (JArr [good_row])));
     on_fetch_member := fun _ => inr may_nick;
     on_edit := fun _ => Some (Exn Forbidden (lit "403 Forbidden"));
     on_presence := fun _ => Some (Exn HTTPException (lit "500 Internal Server Error"));
     on_guilds := [guild_a; guild_b];
     on_closed := false |}.

(** The price API and the nickname edit work; the presence change fails. *)
Definition presence_fails : world :=
  {| on_http := always (HttpResponse 200 (inr (JArr [good_row])));
     on_fetch_member := fun _ => inr may_nick;
     on_edit := fun _ => None;
     on_presence := fun _ => Some (Exn HTTPException (lit "500 Internal Server Error"));
     on_guilds := [guild_a; guild_b];
     on_closed := false |}.

(** Two zero-padded digits read back as the number below 100 they were
    printed from. *)
Definition pad2_reads_back (r : N) : bool :=
  let s := zero_pad 2 (dec_of_N r) in
  Nat.eqb (length s) 2 &&
  match N_of_dec s with
  | Some r' => N.eqb r' r
  | None => false
  end.

(** What [update_guild] may ask of the outside world for the guild [g]:
    the price fetcher's actions, log lines, the membership of [g], a nickname
    edit on [g] with the audit reason, and a presence change to the degraded
    marker or to a 24h status.  It never lists guilds, gathers or checks the
    client. *)
Definition own_call (g : guild) (X : Type) (a : action X) : Prop :=
  match a with
  | HttpGet _ _ _ | FloatOfStr _ | Sleep _ | Log _ _ => True
  | FetchMember g' => g' = g
  | EditNick g' nick reason =>
      g' = g /\ reason = lit "Auto price update" /\
      exists price change_24h, nick = nickname_of price change_24h
  | ChangePresence name =>
      name = lit "API error" \/ exists change_24h, name = status_text change_24h
  | _ => False
  end.

(** The updater loop sleeps the configured interval and nothing else. *)
Definition loop_sleep (cfg : config) (X : Type) (a : action X) : Prop :=
  match a with
  | Sleep ms => ms = INTERVAL_SECONDS cfg * 1000
  | _ => True
  end.

(** A reconciliation sleeps only one of the fetcher's waits between
    attempts. *)
Definition backoff_sleep (X : Type) (a : action X) : Prop :=
  match a with
  | Sleep ms => ms = 1500 \/ ms = 3000 \/ ms = 5000
  | _ => True
  end.

(** An entry of the updater loop sleeps the interval, an entry of a task a
    backoff. *)
Definition sleeps_in_role (cfg : config) (e : entry) : Prop :=
  match who e with
  | O => loop_sleep cfg _ (act e)
  | S _ => backoff_sleep _ (act e)
  end.

(** What the updater loop asks of the client about guilds when [GUILD_ID]
    is [id]: the guild of that id, never the list of the joined guilds, and
    a gather of one target. *)
Definition one_guild_call (id : Z) (X : Type) (a : action X) : Prop :=
  match a with
  | Guilds => False
  | GetGuild id' => id' = id
  | Gather targets => length targets = 1%nat
  | _ => True
  end.

(** What the updater loop asks of the client about guilds when [GUILD_ID]
    is unset or zero: the list of the joined guilds, never a guild by id,
    and a gather of at least one target. *)
Definition all_guilds_call (X : Type) (a : action X) : Prop :=
  match a with
  | GetGuild _ => False
  | Gather targets => targets <> []
  | _ => True
  end.

(** The default configuration restricted to the guild 1. *)
Definition one_guild_config : config :=
  {| COIN_IDS := [lit "ripple"; lit "xrp"];
     INTERVAL_SECONDS := 60;
     GUILD_ID := Some 1;
     http_session := true |}.

(** What the updater loop asks of the client about guilds, by [GUILD_ID]. *)
Definition guild_calls (cfg : config) (X : Type) (a : action X) : Prop :=
  match GUILD_ID cfg with
  | Some id => if id =? 0 then all_guilds_call X a else one_guild_call id X a
  | None => all_guilds_call X a
  end.

(** An id as [COIN_IDS] holds them: not empty, without a comma, and with
    no whitespace at either end. *)
Definition clean_id (s : pystr) : Prop :=
  s <> [] /\ ~ In comma s /\ isspace (hd comma s) = false /\ isspace (last s comma) = false.

(** [sep.join(pieces)]. *)
Fixpoint join (sep : pychar) (pieces : list pystr) : pystr :=
  match pieces with
  | [] => []
  | [piece] => piece
  | piece :: rest => piece ++ sep :: join sep rest
  end.

(** A text of commas and whitespace only. *)
Definition blank (s : pystr) : bool := forallb (fun c => isspace c || (c =? comma)%N) s.

(** An id written between two runs of whitespace. *)
Definition padded (p : pystr * pystr * pystr) : pystr :=
  let '(before, id, after) := p in before ++ id ++ after.

Definition padded_id (p : pystr * pystr * pystr) : pystr := snd (fst p).

Definition well_padded (p : pystr * pystr * pystr) : Prop :=
  let '(before, id, after) := p in
  forallb isspace before = true /\ clean_id id /\ forallb isspace after = true.

(** The steps of a start-up other than its log line. *)
Definition is_logged (s : startup_step) : bool :=
  match s with
  | Logged _ _ => true
  | _ => false
  end.

Definition acts (steps : list startup_step) : list startup_step :=
  filter (fun s => negb (is_logged s)) steps.

(** * Properties *)

(** ** Strings and numbers *)

Lemma pystr_eqb_eq a b : pystr_eqb a b = true <-> a = b.
Proof.
  unfold pystr_eqb. destruct (list_eq_dec N.eq_dec a b); split; congruence.
Qed.

Lemma pystr_eqb_refl a : pystr_eqb a a = true.
Proof. now apply pystr_eqb_eq. Qed.

Lemma uint_of_digits_of_uint d : uint_of_digits (digits_of_uint d) = Some d.
Proof. induction d; simpl; try rewrite IHd; reflexivity. Qed.

Lemma N_of_dec_of_N n : N_of_dec (dec_of_N n) = Some n.
Proof.
  unfold N_of_dec, dec_of_N. rewrite uint_of_digits_of_uint. simpl.
  now rewrite Unsigned.of_to.
Qed.

Lemma pad3_table : forallb pad3_reads_back (map N.of_nat (seq 0 1000)) = true.
Proof. vm_compute. reflexivity. Qed.

Lemma pad3_ok r :
  (r < 1000)%N ->
  length (zero_pad 3 (dec_of_N r)) = 3%nat /\
  N_of_dec (zero_pad 3 (dec_of_N r)) = Some r.
Proof.
  intros Hr.
  assert (Hin : In r (map N.of_nat (seq 0 1000))).
  { apply in_map_iff. exists (N.to_nat r). split; [apply N2Nat.id|].
    apply in_seq. lia. }
  pose proof (proj1 (forallb_forall _ _) pad3_table r Hin) as H.
  unfold pad3_reads_back in H. apply andb_prop in H. destruct H as [Hl Hv].
  apply Nat.eqb_eq in Hl. split; [exact Hl|].
  destruct (N_of_dec (zero_pad 3 (dec_of_N r))) as [r'|]; [|discriminate].
  apply N.eqb_eq in Hv. now subst.
Qed.

Lemma nearest_even_div num den :
  0 < den ->
  nearest_even num den
    (match 2 * (num mod den) ?= den with
     | Lt => num / den
     | Gt => num / den + 1
     | Eq => if Z.even (num / den) then num / den else num / den + 1
     end).
Proof.
  intros Hden.
  pose proof (Z.div_mod num den ltac:(lia)) as Hdm.
  pose proof (Z.mod_pos_bound num den Hden) as Hr.
  set (q := num / den) in *. set (r := num mod den) in *.
  assert (Hk : forall k, k <= q - 1 \/ k = q \/ k = q + 1 \/ q + 2 <= k) by (intros; lia).
  destruct (Z.compare_spec (2 * r) den) as [He|Hl|Hg].
  - destruct (Z.even q) eqn:Hev.
    + split; [|auto]. intros k. destruct (Hk k) as [H|[H|[H|H]]]; nia.
    + split.
      * intros k. destruct (Hk k) as [H|[H|[H|H]]]; nia.
      * intros k Hne Habs. rewrite Z.even_add, Hev. reflexivity.
  - split.
    + intros k. destruct (Hk k) as [H|[H|[H|H]]]; nia.
    + intros k Hne Habs. exfalso. destruct (Hk k) as [H|[H|[H|H]]]; nia.
  - split.
    + intros k. destruct (Hk k) as [H|[H|[H|H]]]; nia.
    + intros k Hne Habs. exfalso. destruct (Hk k) as [H|[H|[H|H]]]; nia.
Qed.

Lemma round_scaled_nearest d m e :
  nearest_even (scaled_num d m e) (scaled_den e) (round_scaled d m e).
Proof.
  unfold scaled_num, scaled_den, round_scaled. cbv zeta.
  destruct (0 <=? e) eqn:He.
  - set (num := Zpos m * 10 ^ Z.of_nat d * 2 ^ e).
    split; intros k; [|intros Hne Habs; exfalso]; lia.
  - apply nearest_even_div. apply Z.pow_pos_nonneg; lia.
Qed.

Lemma round_scaled_nonneg d m e : 0 <= round_scaled d m e.
Proof.
  unfold round_scaled. cbv zeta.
  assert (Hnum : 0 <= Zpos m * 10 ^ Z.of_nat d).
  { apply Z.mul_nonneg_nonneg; [lia|]. apply Z.pow_nonneg. lia. }
  destruct (0 <=? e) eqn:He.
  - apply Z.mul_nonneg_nonneg; [exact Hnum|]. apply Z.pow_nonneg. lia.
  - assert (Hden : 0 < 2 ^ (- e)) by (apply Z.pow_pos_nonneg; lia).
    pose proof (Z.div_pos _ _ Hnum Hden) as Hq.
    destruct (2 * _ ?= _); [destruct (Z.even _)| |]; lia.
Qed.

(** *** Numerals without leading zeros *)

Lemma digits_of_uint_of_digits s d : uint_of_digits s = Some d -> digits_of_uint d = s.
Proof.
  revert d. induction s as [|c s IH]; intros d; simpl.
  - intros [= <-]. reflexivity.
  - destruct (uint_of_digits s) as [d'|]; [|discriminate].
    specialize (IH d' eq_refl).
    destruct c as [|p]; [discriminate|].
    do 6 (destruct p as [p|p|]; try discriminate);
      intros [= <-]; simpl; rewrite IH; reflexivity.
Qed.

Lemma unorm_fixed_head d :
  Decimal.unorm d = d ->
  d <> Decimal.Nil /\ (forall d', d = Decimal.D0 d' -> d' = Decimal.Nil).
Proof.
  intros Hd. split.
  - rewrite <- Hd. apply DecimalFacts.unorm_nonnil.
  - intros d' ->. rewrite DecimalFacts.unorm_D0 in Hd.
    destruct (Decimal.uint_eq_dec d' Decimal.Nil) as [Hnil|Hne]; [exact Hnil|].
    exfalso. pose proof (DecimalFacts.nb_digits_unorm d' Hne) as Hlen.
    rewrite Hd in Hlen. simpl in Hlen. lia.
Qed.

Lemma to_uint_normal n : Decimal.unorm (N.to_uint n) = N.to_uint n.
Proof.
  rewrite <- (DecimalN.Unsigned.of_to n) at 2.
  symmetry. apply DecimalN.Unsigned.to_of.
Qed.

Lemma dec_of_N_canonical n : canonical (dec_of_N n).
Proof.
  unfold canonical, dec_of_N.
  destruct (unorm_fixed_head _ (to_uint_normal n)) as [Hne Hzero].
  destruct (N.to_uint n) as [|d|d|d|d|d|d|d|d|d|d]; simpl;
    try (split; [discriminate|discriminate]).
  - contradiction.
  - split; [discriminate|]. intros _. rewrite (Hzero d eq_refl). reflexivity.
Qed.

Lemma canonical_normal s d : canonical s -> uint_of_digits s = Some d -> Decimal.unorm d = d.
Proof.
  intros [Hne Hzero] Hd. pose proof (digits_of_uint_of_digits s d Hd) as Hs. subst s.
  destruct d as [|d|d|d|d|d|d|d|d|d|d]; simpl in *; try reflexivity.
  - contradiction.
  - specialize (Hzero eq_refl). injection Hzero as Hnil.
    destruct d; simpl in Hnil; try discriminate. reflexivity.
Qed.

(** Two canonical numerals of one value are the same string. *)
Lemma canonical_unique s s' n :
  canonical s -> canonical s' -> N_of_dec s = Some n -> N_of_dec s' = Some n -> s = s'.
Proof.
  unfold N_of_dec. intros Hs Hs' Hn Hn'.
  destruct (uint_of_digits s) as [d|] eqn:Hd; [|discriminate].
  destruct (uint_of_digits s') as [d'|] eqn:Hd'; [|discriminate].
  simpl in Hn, Hn'. injection Hn as Hn. injection Hn' as Hn'.
  assert (Heq : Decimal.unorm d = Decimal.unorm d').
  { apply DecimalN.Unsigned.of_inj. congruence. }
  rewrite (canonical_normal s d Hs Hd), (canonical_normal s' d' Hs' Hd') in Heq.
  rewrite <- (digits_of_uint_of_digits s d Hd), <- (digits_of_uint_of_digits s' d' Hd').
  now rewrite Heq.
Qed.

(** The digits [fixed_digits] prints for three decimals. *)
Lemma fixed_digits_3 n :
  0 <= n ->
  exists int_part frac_part,
    fixed_digits 3 n = int_part ++ lit "." ++ frac_part /\
    canonical int_part /\
    N_of_dec int_part = Some (Z.to_N (n / 1000)) /\
    length frac_part = 3%nat /\
    N_of_dec frac_part = Some (Z.to_N (n mod 1000)).
Proof.
  intros Hn. unfold fixed_digits. cbv zeta.
  change (10 ^ Z.of_nat 3) with 1000.
  exists (dec_of_N (Z.to_N (n / 1000))), (zero_pad 3 (dec_of_N (Z.to_N (n mod 1000)))).
  split; [reflexivity|]. split; [apply dec_of_N_canonical|]. split; [apply N_of_dec_of_N|].
  apply pad3_ok. pose proof (Z.mod_pos_bound n 1000 ltac:(lia)). lia.
Qed.

Lemma emoji_of_finite s m e :
  emoji_of (S754_finite s m e) = if s then down_marker else up_marker.
Proof. destruct s; reflexivity. Qed.

Lemma nickname_of_length price change_24h :
  (length (nickname_of price change_24h) <= 32)%nat.
Proof.
  unfold nickname_of. cbv zeta.
  destruct (32 <? length (format_nickname price change_24h))%nat eqn:H.
  - rewrite length_firstn. lia.
  - apply Nat.ltb_ge in H. exact H.
Qed.

(** C4: the nickname is "$", the price rounded to three decimals, a space
    and a marker.  For a positive finite price [m * 2^e] the text between
    "$" and the space is the decimal numeral of [n / 1000] (without leading
    zeros, so the numeral is fixed by its value), a point, and the three
    digits of [n mod 1000], where [n] is the integer nearest to
    [1000 * m * 2^e] (ties to even).  The marker is U+1F7E2, the green
    circle, for a non-negative change (a zero of either sign, or a finite
    value with a clear sign bit) and U+1F534, the red circle, for a negative
    one; NaN, which is not [>= 0], gets the red one too.  The applied
    nickname is this text whenever it fits in 32 characters, and on the two
    samples of the specification it reads "$1.235 " with the green circle and
    "$0.500 " with the red one. *)
Theorem nickname_format :
  (forall m e change_24h,
      exists n int_part frac_part,
        format_nickname (S754_finite false m e) change_24h
        = lit "$" ++ int_part ++ lit "." ++ frac_part ++ lit " " ++ [emoji_of change_24h] /\
        nearest_even (scaled_num 3 m e) (scaled_den e) n /\
        canonical int_part /\
        N_of_dec int_part = Some (Z.to_N (n / 1000)) /\
        length frac_part = 3%nat /\
        N_of_dec frac_part = Some (Z.to_N (n mod 1000))) /\
  (forall s m e, emoji_of (S754_finite s m e) = if s then 128308%N else 128994%N) /\
  (forall s, emoji_of (S754_zero s) = 128994%N) /\
  emoji_of (S754_infinity false) = 128994%N /\
  emoji_of (S754_infinity true) = 128308%N /\
  emoji_of S754_nan = 128308%N /\
  (forall price change_24h,
      (length (format_nickname price change_24h) <= 32)%nat ->
      nickname_of price change_24h = format_nickname price change_24h) /\
  nickname_of (float_lit false 123456 100000) (float_lit false 250 100)
  = [36; 49; 46; 50; 51; 53; 32; 128994]%N /\
  nickname_of (float_lit false 5 10) (float_lit true 310 100)
  = [36; 48; 46; 53; 48; 48; 32; 128308]%N /\
  lit "$1.235 " = [36; 49; 46; 50; 51; 53; 32]%N /\
  lit "$0.500 " = [36; 48; 46; 53; 48; 48; 32]%N.
Proof.
  split; [|split; [|split; [|split; [|split; [|split; [|split; [|split; [|split; [|split]]]]]]]]].
  - intros m e change_24h.
    destruct (fixed_digits_3 (round_scaled 3 m e) (round_scaled_nonneg 3 m e))
      as (ip & fp & Hfix & Hcan & Hip & Hlen & Hfp).
    exists (round_scaled 3 m e), ip, fp.
    split; [|split; [apply round_scaled_nearest|auto]].
    unfold format_nickname, format_f, sign_prefix. rewrite Hfix.
    simpl. rewrite <- !app_assoc. reflexivity.
  - intros [] m e; reflexivity.
  - intros []; reflexivity.
  - reflexivity.
  - reflexivity.
  - reflexivity.
  - intros price change_24h Hfit. unfold nickname_of. cbv zeta.
    destruct (32 <? _)%nat eqn:H; [|reflexivity].
    apply Nat.ltb_lt in H. lia.
  - vm_compute. reflexivity.
  - vm_compute. reflexivity.
  - reflexivity.
  - reflexivity.
Qed.

(** ** The sequential interpreter *)

Lemma run_bind {A B : Type} (E : env) (me : nat) (p : proc A) (f : A -> proc B) (h : trace) :
  run E me (bind p f) h =
  match run E me p h with
  | (inl e, h') => (inl e, h')
  | (inr x, h') => run E me (f x) h'
  end.
Proof. revert h. induction p as [r|e|X a k IH]; intros h; simpl; auto. Qed.

Lemma run_try {A : Type} (E : env) (me : nat) (p : proc A) handler (h : trace) :
  run E me (try_except p handler) h =
  match run E me p h with
  | (inl e, h') =>
      match handler e with
      | Some q => run E me q h'
      | None => (inl e, h')
      end
  | (inr x, h') => (inr x, h')
  end.
Proof.
  revert h. induction p as [r|e|X a k IH]; intros h; simpl; auto.
  destruct (handler e); reflexivity.
Qed.

Lemma run_perform {X : Type} (E : env) (me : nat) (a : action X) (h : trace) :
  run E me (perform a) h = (inr (E _ h me a), h ++ [Entry me a (E _ h me a)]).
Proof. reflexivity. Qed.

(** A run only adds to the trace. *)
Lemma run_extends {R : Type} (E : env) (me : nat) (p : proc R) (h : trace) :
  exists t, snd (run E me p h) = h ++ t.
Proof.
  revert h. induction p as [r|e|X a k IH]; intros h; simpl.
  - exists []. now rewrite app_nil_r.
  - exists []. now rewrite app_nil_r.
  - destruct (IH (E _ h me a) (h ++ [Entry me a (E _ h me a)])) as [t Ht].
    exists (Entry me a (E _ h me a) :: t). rewrite Ht, <- app_assoc. reflexivity.
Qed.

(** ** Properties of every action a coroutine can perform *)

Lemma all_bind P {A B : Type} (p : proc A) (f : A -> proc B) :
  all_actions P p -> (forall x, all_actions P (f x)) -> all_actions P (bind p f).
Proof.
  induction p as [r|e|X a k IH]; simpl; intros Hp Hf; auto.
  split; [tauto|]. intros x. apply IH; [apply Hp|exact Hf].
Qed.

Lemma all_try P {A : Type} (p : proc A) handler :
  all_actions P p ->
  (forall e q, handler e = Some q -> all_actions P q) ->
  all_actions P (try_except p handler).
Proof.
  induction p as [r|e|X a k IH]; simpl; intros Hp Hh; auto.
  - destruct (handler e) eqn:He; simpl; eauto.
  - split; [tauto|]. intros x. apply IH; [apply Hp|exact Hh].
Qed.

Lemma all_except P {A : Type} classes (body : exn -> proc A) e q :
  (forall e, all_actions P (body e)) ->
  except classes body e = Some q -> all_actions P q.
Proof.
  unfold except. intros Hb. destruct (isinstance e classes); [|discriminate].
  intros [= <-]. apply Hb.
Qed.

Lemma all_impl (P Q : forall X, action X -> Prop) {R : Type} (p : proc R) :
  (forall X a, P X a -> Q X a) -> all_actions P p -> all_actions Q p.
Proof.
  intros HPQ. induction p as [r|e|X a k IH]; simpl; auto.
  intros [Ha Hk]. split; auto.
Qed.

Lemma run_all P {R : Type} (E : env) (me : nat) (p : proc R) (h : trace) :
  all_actions P p ->
  exists t, snd (run E me p h) = h ++ t /\
            Forall (fun e => P _ (act e) /\ who e = me) t.
Proof.
  revert h. induction p as [r|e|X a k IH]; intros h Hp; simpl.
  - exists []. now rewrite app_nil_r.
  - exists []. now rewrite app_nil_r.
  - destruct Hp as [Ha Hk].
    destruct (IH (E _ h me a) (h ++ [Entry me a (E _ h me a)]) (Hk _)) as (t & Ht & HP).
    exists (Entry me a (E _ h me a) :: t). rewrite Ht, <- app_assoc.
    split; [reflexivity|]. constructor; auto.
Qed.

(** ** Which exceptions a coroutine can let out

    [lets_out ok C p]: whatever the environment answers within [ok], an
    exception that leaves [p] satisfies [C]. *)

Lemma lo_bind ok C {A B : Type} (p : proc A) (f : A -> proc B) :
  lets_out ok C p -> (forall x, lets_out ok C (f x)) -> lets_out ok C (bind p f).
Proof. induction p as [r|e|X a k IH]; simpl; intros Hp Hf; auto. Qed.

Lemma lo_try ok (C D : exn -> Prop) {A : Type} (p : proc A) handler :
  lets_out ok C p ->
  (forall e, C e -> match handler e with
                    | Some q => lets_out ok D q
                    | None => D e
                    end) ->
  lets_out ok D (try_except p handler).
Proof.
  induction p as [r|e|X a k IH]; simpl; intros Hp Hh; auto.
  specialize (Hh e Hp). destruct (handler e); auto.
Qed.

Lemma lo_impl ok (C D : exn -> Prop) {R : Type} (p : proc R) :
  (forall e, C e -> D e) -> lets_out ok C p -> lets_out ok D p.
Proof. intros HCD. induction p as [r|e|X a k IH]; simpl; auto. Qed.

Lemma run_lets_out ok C {R : Type} (E : env) (me : nat) (p : proc R) (h : trace) :
  answers_within ok E ->
  lets_out ok C p ->
  match fst (run E me p h) with
  | inl e => C e
  | inr _ => True
  end.
Proof.
  intros HE. revert h. induction p as [r|e|X a k IH]; intros h Hp; simpl; auto.
  apply IH, Hp, HE.
Qed.

(** ** The price fetcher *)

Arguments lit : simpl never.
Arguments markets_url : simpl never.
Arguments quoted : simpl never.
Arguments dec_of_Z : simpl never.
Arguments dec_of_N : simpl never.
Arguments isinstance : simpl never.
Arguments tag : simpl never.

(** An answer of type [unit] is [tt]. *)
Ltac unit_answers E :=
  repeat match goal with
         | |- context [E unit ?h ?m ?a] => destruct (E unit h m a)
         end.

Lemma count_app f (t u : trace) : count f (t ++ u) = (count f t + count f u)%nat.
Proof. unfold count. now rewrite filter_app, length_app. Qed.

Lemma io_of_app (t u : trace) : io_of (t ++ u) = io_of t ++ io_of u.
Proof. unfold io_of. apply flat_map_app. Qed.

Lemma last_error_from_app acc (t u : trace) :
  last_error_from acc (t ++ u) = last_error_from (last_error_from acc t) u.
Proof. revert acc. induction t as [|e t IH]; intros acc; simpl; auto. Qed.

Section Exhausted.

Variable E : env.
Variable me : nat.

(** Every request, whenever it is made, ends in a failure the fetcher
    catches. *)
Hypothesis every_attempt_fails :
  forall h url, fails_recoverably (E _ h me (HttpGet url 10 user_agent)) <> None.

Lemma fetch_fails coin_id h :
  exists e,
    fails_recoverably (E _ h me (HttpGet (markets_url coin_id) 10 user_agent)) = Some e /\
    run E me (_fetch_one_id coin_id) h
    = (inl e, h ++ [Entry me (HttpGet (markets_url coin_id) 10 user_agent)
                          (E _ h me (HttpGet (markets_url coin_id) 10 user_agent))]) /\
    isinstance e caught_by_fetcher = true.
Proof.
  pose proof (every_attempt_fails h (markets_url coin_id)) as Hf.
  unfold _fetch_one_id. simpl.
  destruct (E _ h me (HttpGet (markets_url coin_id) 10 user_agent)) as [e|status body];
    simpl in *.
  - destruct (isinstance e caught_by_fetcher) eqn:Hc; [|congruence]. eauto.
  - destruct (negb (status =? 200)); simpl in *.
    + eexists; repeat split; reflexivity.
    + destruct body as [e|data]; simpl in *.
      * destruct (isinstance e caught_by_fetcher) eqn:Hc; [|congruence]. eauto.
      * destruct data as [| | | | |items|]; simpl in *;
          try (eexists; repeat split; reflexivity).
        destruct items as [|row items]; simpl in *;
          [eexists; repeat split; reflexivity|congruence].
Qed.

Lemma one_attempt_fails first_id coin_id attempt delay h :
  exists e t,
    run E me (one_attempt first_id coin_id attempt delay) h = (inr (Failed e), h ++ t) /\
    io_of t = attempt_io coin_id (attempt, delay) /\
    count is_http_get t = 1%nat /\
    (forall acc, last_error_from acc t = Some e).
Proof.
  unfold one_attempt. rewrite run_bind.
  set (pre := if delay =? 0 then [] else [Entry me (Sleep delay) (E _ h me (Sleep delay))]).
  assert (Hpre : run E me (if delay =? 0 then Ret tt else perform (Sleep delay)) h
                 = (inr tt, h ++ pre)).
  { subst pre. destruct (delay =? 0); simpl.
    - now rewrite app_nil_r.
    - destruct (E unit h me (Sleep delay)). reflexivity. }
  rewrite Hpre, run_try, run_bind.
  destruct (fetch_fails coin_id (h ++ pre)) as (e & Hfail & Hrun & Hcaught).
  rewrite Hrun. unfold except. rewrite Hcaught. simpl.
  eexists e, _. split; [rewrite <- !app_assoc; reflexivity|].
  split; [|split].
  - rewrite io_of_app. unfold attempt_io. subst pre. simpl.
    destruct (delay =? 0); reflexivity.
  - rewrite count_app. subst pre. destruct (delay =? 0); reflexivity.
  - intros acc. rewrite last_error_from_app. simpl. rewrite Hfail. reflexivity.
Qed.

Lemma attempts_loop_fails first_id coin_id todo last_err h :
  exists t,
    run E me (attempts_loop first_id coin_id todo last_err) h
    = (inr (inr (last_error_from last_err t)), h ++ t) /\
    io_of t = flat_map (attempt_io coin_id) todo /\
    count is_http_get t = length todo.
Proof.
  revert last_err h. induction todo as [|[attempt delay] rest IH]; intros last_err h.
  - exists []. simpl. now rewrite app_nil_r.
  - simpl. rewrite run_bind.
    destruct (one_attempt_fails first_id coin_id attempt delay h)
      as (e & t1 & Hrun & Hio & Hcount & Hlast).
    rewrite Hrun.
    destruct (IH (Some e) (h ++ t1)) as (t2 & Hrun2 & Hio2 & Hcount2).
    rewrite Hrun2. exists (t1 ++ t2).
    split; [|split].
    + rewrite last_error_from_app, Hlast, app_assoc. reflexivity.
    + rewrite io_of_app, Hio, Hio2. reflexivity.
    + rewrite count_app, Hcount, Hcount2. reflexivity.
Qed.

Lemma ids_loop_fails first_id ids last_err h :
  exists t,
    run E me (ids_loop first_id ids last_err) h
    = (inl (Exn RuntimeError
              (lit "Failed to fetch XRP price after retries: "
               ++ str_opt_exn (last_error_from last_err t))),
       h ++ t) /\
    io_of t = flat_map id_io ids /\
    count is_http_get t = (length ids * length backoffs)%nat.
Proof.
  revert last_err h. induction ids as [|coin_id rest IH]; intros last_err h.
  - exists []. simpl. now rewrite app_nil_r.
  - cbn [ids_loop]. rewrite run_bind.
    destruct (attempts_loop_fails first_id coin_id (enumerate 1 backoffs) last_err h)
      as (t1 & Hrun & Hio & Hcount).
    rewrite Hrun.
    destruct (IH (last_error_from last_err t1) (h ++ t1)) as (t2 & Hrun2 & Hio2 & Hcount2).
    rewrite Hrun2. exists (t1 ++ t2).
    split; [|split].
    + rewrite last_error_from_app, app_assoc. reflexivity.
    + rewrite io_of_app, Hio, Hio2. reflexivity.
    + rewrite count_app, Hcount, Hcount2. reflexivity.
Qed.

End Exhausted.

(** When every request fails in a way the fetcher catches,
    [get_price_data] raises the RuntimeError "Failed to fetch XRP price after
    retries: <last error>", whose text carries the failure of the last
    request made; it has made one request per id and per entry of the backoff
    schedule, with no wait before the first request of an id and waits of
    1.5 s, 3 s and 5 s before the second, third and fourth. *)
Theorem all_sources_exhausted (cfg : config) (E : env) (me : nat) (h : trace) :
  (forall h' url, fails_recoverably (E _ h' me (HttpGet url 10 user_agent)) <> None) ->
  exists t,
    run E me (get_price_data cfg) h
    = (inl (Exn RuntimeError
              (lit "Failed to fetch XRP price after retries: "
               ++ str_opt_exn (last_error t))),
       h ++ t) /\
    io_of t = flat_map id_io (COIN_IDS cfg) /\
    count is_http_get t = (length (COIN_IDS cfg) * length backoffs)%nat.
Proof.
  intros Hfail. unfold get_price_data, last_error.
  apply ids_loop_fails. exact Hfail.
Qed.

(** C2, evaluated on the code: a 200 answer whose first row has no
    [current_price] member makes [get_price_data] raise [KeyError] out of its
    first attempt.  [KeyError] is none of the classes the retry loop catches,
    so nothing is recorded as the last error, no retry is made and the next
    id is never asked: the only action performed is the one request. *)
Theorem missing_price_field_escapes (cfg : config) (E : env) (me : nat) (h : trace)
  (coin_id : pystr) (rest : list pystr) (members : list (pystr * json)) (others : list json) :
  COIN_IDS cfg = coin_id :: rest ->
  E _ h me (HttpGet (markets_url coin_id) 10 user_agent)
  = HttpResponse 200 (inr (JArr (JObj members :: others))) ->
  dict_get members (lit "current_price") = None ->
  run E me (get_price_data cfg) h
  = (inl (Exn KeyError (quoted (lit "current_price"))),
     h ++ [Entry me (HttpGet (markets_url coin_id) 10 user_agent)
                 (HttpResponse 200 (inr (JArr (JObj members :: others))))]) /\
  isinstance (Exn KeyError (quoted (lit "current_price"))) caught_by_fetcher = false.
Proof.
  intros Hids Hans Hget. split; [|reflexivity].
  unfold get_price_data. rewrite Hids. simpl.
  rewrite Hans. simpl. rewrite Hget. reflexivity.
Qed.

(** The default configuration against an API that answers every request
    with a row lacking its price: one request to "ripple", then [KeyError];
    "xrp" is never tried. *)
Lemma missing_price_field_witness :
  run (answer (calm_world (always (HttpResponse 200 (inr (JArr [row_without_price]))))))
      1 (get_price_data default_config) []
  = (inl (Exn KeyError (quoted (lit "current_price"))),
     [] ++ [Entry 1 (HttpGet (markets_url (lit "ripple")) 10 user_agent)
                  (HttpResponse 200 (inr (JArr [row_without_price])))]) /\
  isinstance (Exn KeyError (quoted (lit "current_price"))) caught_by_fetcher = false.
Proof.
  apply (missing_price_field_escapes default_config _ 1 [] (lit "ripple") [lit "xrp"]
           [(lit "price_change_percentage_24h", JFloat (float_lit false 250 100))] []);
    reflexivity.
Defined.

(** A [null] price is no better: [float(None)] raises [TypeError], which
    leaves the fetcher the same way. *)
Lemma null_price_escapes :
  fst (run (answer (calm_world (always (HttpResponse 200 (inr (JArr [row_null_price]))))))
           1 (get_price_data default_config) [])
  = inl (Exn TypeError
           (lit "float() argument must be a string or a real number, not 'NoneType'")) /\
  count is_http_get
    (snd (run (answer (calm_world (always (HttpResponse 200 (inr (JArr [row_null_price]))))))
              1 (get_price_data default_config) [])) = 1%nat.
Proof. split; reflexivity. Qed.

(** An API that answers 500 to every request. *)
Lemma all_sources_exhausted_witness :
  exists t,
    run (answer (calm_world (always (HttpResponse 500 (inr JNull))))) 1
        (get_price_data default_config) []
    = (inl (Exn RuntimeError
              (lit "Failed to fetch XRP price after retries: "
               ++ str_opt_exn (last_error t))),
       [] ++ t) /\
    io_of t = flat_map id_io (COIN_IDS default_config) /\
    count is_http_get t = (length (COIN_IDS default_config) * length backoffs)%nat.
Proof.
  apply (all_sources_exhausted default_config
           (answer (calm_world (always (HttpResponse 500 (inr JNull))))) 1 []).
  intros h' url. simpl. discriminate.
Defined.

(** What one call of [_fetch_one_id] asks of the network: its one
    request. *)
Lemma fetch_one_request (E : env) (me : nat) coin_id (h : trace) :
  exists t,
    snd (run E me (_fetch_one_id coin_id) h) = h ++ t /\
    io_of t = [Req (markets_url coin_id)] /\
    count is_http_get t = 1%nat.
Proof.
  set (first := Entry me (HttpGet (markets_url coin_id) 10 user_agent)
                      (E _ h me (HttpGet (markets_url coin_id) 10 user_agent))).
  assert (Hone : forall (p : proc (float * float)),
             all_actions parse_action p ->
             exists t,
               snd (run E me p (h ++ [first])) = h ++ t /\
               io_of t = [Req (markets_url coin_id)] /\ count is_http_get t = 1%nat).
  { intros p Hp. destruct (run_all _ E me p (h ++ [first]) Hp) as (t & Ht & Hall).
    exists (first :: t). rewrite Ht, <- app_assoc. split; [reflexivity|].
    assert (Hquiet : io_of t = [] /\ count is_http_get t = 0%nat).
    { clear Ht. induction Hall as [|[w X a x] t [Ha _] _ [IHio IHc]]; [split; reflexivity|].
      destruct a; simpl in Ha; try contradiction. split; assumption. }
    destruct Hquiet as [Hio Hc].
    split; [change (io_of (first :: t)) with (io_of_entry first ++ io_of t); now rewrite Hio|].
    change (first :: t) with ([first] ++ t). rewrite count_app, Hc. reflexivity. }
  assert (Hsub : forall row key, all_actions parse_action (subscript row key)).
  { intros row key. destruct row; simpl; auto. destruct (dict_get members key); simpl; auto. }
  assert (Hfl : forall v, all_actions parse_action (py_float v)).
  { intros v. destruct v; simpl; auto.
    - destruct (float_of_int z); simpl; auto.
    - split; [exact I|]. intros [f|]; simpl; auto. }
  unfold _fetch_one_id. simpl. fold first.
  destruct (E _ h me (HttpGet (markets_url coin_id) 10 user_agent)) as [e|status body];
    simpl.
  - exists [first]. repeat split.
  - destruct (negb (status =? 200)); simpl.
    + exists [first]. repeat split.
    + destruct body as [e|data]; simpl.
      * exists [first]. repeat split.
      * apply Hone.
        destruct data as [| | | | |items|]; simpl; auto.
        destruct items as [|row items]; simpl; auto.
        apply all_bind; [apply Hsub|intros v].
        apply all_bind; [apply Hfl|intros price].
        apply all_bind; [apply Hsub|intros w].
        apply all_bind; [apply Hfl|intros change].
        exact I.
Qed.

(** C3, evaluated on the code: the fetcher exhausts its sources only for
    the failures its retry loop catches.  When the first attempt on the
    first id fails with any other error (a first row without its price or
    with a price that is no number, a body that is no JSON), that error
    leaves [get_price_data] at once: it is not the final "Failed to fetch XRP
    price after retries" error, the one request of that attempt is the only
    one made, no wait is slept, and the attempts made are fewer than the
    number of ids times the length of the backoff schedule, whatever the
    other ids and the later attempts would have answered. *)
Theorem uncaught_failure_skips_sources (cfg : config) (E : env) (me : nat) (h h' : trace)
  (coin_id : pystr) (rest : list pystr) (e : exn) :
  COIN_IDS cfg = coin_id :: rest ->
  run E me (_fetch_one_id coin_id) h = (inl e, h') ->
  isinstance e caught_by_fetcher = false ->
  run E me (get_price_data cfg) h = (inl e, h') /\
  (forall last_err, e <> exhausted last_err) /\
  exists t,
    h' = h ++ t /\
    io_of t = [Req (markets_url coin_id)] /\
    count is_http_get t = 1%nat /\
    (count is_http_get t < length (COIN_IDS cfg) * length backoffs)%nat.
Proof.
  intros Hids Hrun Hcaught. split; [|split].
  - unfold get_price_data. rewrite Hids.
    cbn [hd ids_loop backoffs enumerate attempts_loop].
    rewrite !run_bind. unfold one_attempt. rewrite run_bind. cbn [Z.eqb run].
    rewrite run_try, run_bind, Hrun. unfold except. rewrite Hcaught. reflexivity.
  - intros last_err ->. unfold exhausted in Hcaught. discriminate.
  - destruct (fetch_one_request E me coin_id h) as (t & Ht & Hio & Hc).
    rewrite Hrun in Ht. simpl in Ht. exists t.
    split; [exact Ht|]. split; [exact Hio|]. split; [exact Hc|].
    rewrite Hc, Hids. simpl. lia.
Qed.

(** Every request for every id is answered with a row whose price is
    [null]: every source would fail every attempt, yet the fetcher stops
    after its first request with the [TypeError] of [float(None)]. *)
Lemma uncaught_failure_witness :
  run (answer (calm_world (always (HttpResponse 200 (inr (JArr [row_null_price]))))))
      1 (get_price_data default_config) []
  = (inl (Exn TypeError
            (lit "float() argument must be a string or a real number, not 'NoneType'")),
     [Entry 1 (HttpGet (markets_url (lit "ripple")) 10 user_agent)
              (HttpResponse 200 (inr (JArr [row_null_price])))]) /\
  (forall last_err,
      Exn TypeError (lit "float() argument must be a string or a real number, not 'NoneType'")
      <> exhausted last_err) /\
  exists t,
    [Entry 1 (HttpGet (markets_url (lit "ripple")) 10 user_agent)
             (HttpResponse 200 (inr (JArr [row_null_price])))] = [] ++ t /\
    io_of t = [Req (markets_url (lit "ripple"))] /\
    count is_http_get t = 1%nat /\
    (count is_http_get t < length (COIN_IDS default_config) * length backoffs)%nat.
Proof.
  apply (uncaught_failure_skips_sources default_config _ 1 [] _ (lit "ripple") [lit "xrp"]);
    reflexivity.
Defined.

(** ** The per-guild update *)

(** C6: when the bot's membership in the target, cached or fetched,
    grants neither "change nickname" nor "manage nicknames", [update_guild]
    returns normally having only logged at INFO (after the membership
    request when the cache was empty): no nickname edit, no presence change,
    no request to the price API, and the status line is what it was. *)
Theorem unpermitted_target_untouched (cfg : config) (E : env) (me : nat) (g : guild)
  (h h' : trace) (m : member) :
  run E me (resolve_me g) h = (inr m, h') ->
  change_nickname (guild_permissions m) = false ->
  manage_nicknames (guild_permissions m) = false ->
  exists t,
    run E me (update_guild cfg g) h = (inr tt, h ++ t) /\
    count is_edit_nick t = 0%nat /\
    count is_change_presence t = 0%nat /\
    count is_http_get t = 0%nat /\
    Forall (fun e => forall l, log_level e = Some l ->
                               (level_rank l <= level_rank INFO)%nat) t /\
    (forall old, presence_after old (h ++ t) = presence_after old h).
Proof.
  intros Hres Hcn Hmn.
  assert (Hlast : forall (t0 : trace) (x : unit) msg old,
             presence_after old (t0 ++ [Entry me (Log INFO msg) x]) = presence_after old t0).
  { intros t0 x msg. induction t0 as [|e0 t0 IH]; intros old; simpl; auto. }
  unfold update_guild, resolve_me in *.
  destruct (guild_me g) as [m0|] eqn:Hme.
  - simpl in Hres. injection Hres as -> ->.
    simpl. unfold update_as. rewrite Hcn, Hmn. simpl. unit_answers E.
    eexists [_]. split; [reflexivity|]. repeat split; auto.
    constructor; [|constructor]. simpl. intros l [= <-]. auto.
  - simpl in Hres. simpl.
    destruct (E (exn + member)%type h me (FetchMember g)) as [e|m0] eqn:Hans;
      simpl in Hres; [discriminate|].
    injection Hres as -> <-. simpl. unfold update_as. rewrite Hcn, Hmn. simpl. unit_answers E.
    eexists [_; _]. split; [rewrite <- app_assoc; reflexivity|]. repeat split; auto.
    + constructor; [simpl; discriminate|].
      constructor; [|constructor]. simpl. intros l [= <-]. auto.
    + intros old. change (h ++ [?a; ?b]) with (h ++ [a] ++ [b]).
      rewrite app_assoc, Hlast.
      clear. revert old. induction h as [|e0 t0 IH]; intros old; simpl; auto.
Qed.

Lemma unpermitted_target_witness :
  exists t,
    run (answer (calm_world (always (HttpResponse 200 (inr (JArr [good_row])))))) 1
        (update_guild default_config guild_d) [] = (inr tt, [] ++ t) /\
    count is_edit_nick t = 0%nat /\
    count is_change_presence t = 0%nat /\
    count is_http_get t = 0%nat /\
    Forall (fun e => forall l, log_level e = Some l ->
                               (level_rank l <= level_rank INFO)%nat) t /\
    (forall old, presence_after old ([] ++ t) = presence_after old []).
Proof.
  apply (unpermitted_target_untouched default_config _ 1 guild_d [] [] may_not_nick);
    reflexivity.
Defined.

(** *** What [update_guild] lets out *)

Lemma http_is_exception e : isinstance e [HTTPException] = true -> is_exception e.
Proof. destruct e as [[] s]; vm_compute; congruence. Qed.

Section LetsOut.

(** Any restriction of the answers that makes the price request raise
    instances of [Exception] only. *)
Variable ok : forall X, action X -> X -> Prop.
Hypothesis ok_http :
  forall url t ua o, ok _ (HttpGet url t ua) o ->
    match o with
    | HttpRaises e => is_exception e
    | HttpResponse _ (inl e) => is_exception e
    | HttpResponse _ (inr _) => True
    end.

Lemma lo_perform C {X : Type} (a : action X) : lets_out ok C (perform a).
Proof. simpl. auto. Qed.

Lemma subscript_lets_out row key : lets_out ok is_exception (subscript row key).
Proof.
  destruct row; simpl; try reflexivity.
  destruct (dict_get members key); simpl; reflexivity.
Qed.

Lemma py_float_lets_out v : lets_out ok is_exception (py_float v).
Proof.
  destruct v; simpl; try reflexivity; auto.
  - destruct (float_of_int z); simpl; reflexivity.
  - intros [f|] _; simpl; reflexivity.
Qed.

Lemma parse_payload_lets_out data : lets_out ok is_exception (parse_payload data).
Proof.
  destruct data as [| | | | |items|]; simpl; try reflexivity.
  destruct items as [|row items]; [reflexivity|].
  apply lo_bind; [apply subscript_lets_out|intros v].
  apply lo_bind; [apply py_float_lets_out|intros price].
  apply lo_bind; [apply subscript_lets_out|intros w].
  apply lo_bind; [apply py_float_lets_out|intros change].
  exact I.
Qed.

Lemma fetch_lets_out coin_id : lets_out ok is_exception (_fetch_one_id coin_id).
Proof.
  unfold _fetch_one_id. simpl. intros o Ho. apply ok_http in Ho.
  destruct o as [e|status body]; simpl; auto.
  destruct (negb (status =? 200)); simpl; [reflexivity|].
  destruct body as [e|data]; simpl; auto using parse_payload_lets_out.
Qed.

Lemma one_attempt_lets_out first_id coin_id attempt delay :
  lets_out ok is_exception (one_attempt first_id coin_id attempt delay).
Proof.
  unfold one_attempt. apply lo_bind.
  - destruct (delay =? 0); simpl; auto.
  - intros _. apply lo_try with (C := is_exception).
    + apply lo_bind; [apply fetch_lets_out|intros sample].
      apply lo_bind; [|intros; exact I].
      destruct (pystr_eqb coin_id first_id); simpl; auto.
    + intros e He. unfold except.
      destruct (isinstance e caught_by_fetcher); [|exact He]. simpl. auto.
Qed.

Lemma attempts_loop_lets_out first_id coin_id todo last_err :
  lets_out ok is_exception (attempts_loop first_id coin_id todo last_err).
Proof.
  revert last_err. induction todo as [|[attempt delay] rest IH]; intros last_err;
    [exact I|].
  cbn [attempts_loop]. apply lo_bind; [apply one_attempt_lets_out|].
  intros [sample|e]; [exact I|apply IH].
Qed.

Lemma ids_loop_lets_out first_id ids last_err :
  lets_out ok is_exception (ids_loop first_id ids last_err).
Proof.
  revert last_err. induction ids as [|coin_id rest IH]; intros last_err;
    [reflexivity|].
  cbn [ids_loop]. apply lo_bind; [apply attempts_loop_lets_out|].
  intros [sample|e]; [exact I|apply IH].
Qed.

Lemma get_price_data_lets_out cfg : lets_out ok is_exception (get_price_data cfg).
Proof. apply ids_loop_lets_out. Qed.

(** The [try] around the price fetch never lets anything out when the
    presence change raises instances of [Exception] only. *)
Hypothesis ok_presence :
  forall name r, ok _ (ChangePresence name) r ->
    match r with Some e => is_exception e | None => True end.

Lemma presence_guarded C name {A : Type} (body : exn -> proc unit) :
  (forall e, lets_out ok C (body e)) ->
  lets_out ok C
    (try_except (r <- perform (ChangePresence name) ;; raising r)
                (except [Exception] body)).
Proof.
  intros Hb. apply lo_try with (C := is_exception).
  - simpl. intros r Hr. apply ok_presence in Hr. destruct r; simpl; auto.
  - intros e He. unfold except. unfold is_exception in He. rewrite He. apply Hb.
Qed.

(** Everything after the membership has been resolved: an exception
    leaves only from the nickname edit, when it is no [HTTPException]. *)
Lemma update_as_lets_out (C : exn -> Prop) cfg g me :
  (forall nick reason e, ok _ (EditNick g nick reason) (Some e) ->
                         isinstance e [HTTPException] = true \/ C e) ->
  lets_out ok C (update_as cfg g me).
Proof.
  intros Hedit. unfold update_as. cbv zeta.
  destruct (negb _); [apply lo_perform|].
  apply lo_bind.
  - apply lo_try with (C := is_exception).
    + apply lo_bind.
      * destruct (http_session cfg); simpl; reflexivity.
      * intros _. apply lo_bind; [apply get_price_data_lets_out|]. intros; exact I.
    + intros e He. unfold except. unfold is_exception in He. rewrite He.
      apply lo_bind; [apply lo_perform|intros _].
      apply lo_bind; [|intros; exact I].
      apply (presence_guarded C (lit "API error") (A := unit)). intros; exact I.
  - intros [[price change_24h]|]; [|exact I].
    apply lo_bind.
    + apply lo_try with (C := fun e => isinstance e [HTTPException] = true \/ C e).
      * simpl. intros r Hr. destruct r as [e|]; simpl; [|exact I].
        eapply Hedit, Hr.
      * intros e He.
        destruct (isinstance e [Forbidden]) eqn:Hf; [apply lo_perform|].
        destruct (isinstance e [HTTPException]) eqn:Hh; [apply lo_perform|].
        destruct He; [discriminate|assumption].
    + intros _. apply lo_bind; [|intros _; apply lo_perform].
      apply (presence_guarded C _ (A := unit)). intros e. apply lo_perform.
Qed.

End LetsOut.


(** Whatever the answers, as long as their exceptions are instances of
    [Exception], only instances of [Exception] leave [update_guild]. *)
Lemma update_guild_lets_out_exceptions cfg g :
  lets_out errors_are_exceptions is_exception (update_guild cfg g).
Proof.
  unfold update_guild. apply lo_bind.
  - apply lo_try with (C := is_exception).
    + apply lo_bind; [|intros; exact I].
      unfold resolve_me. destruct (guild_me g); simpl; auto.
      intros [e|me] Hr; simpl; auto.
    + intros e He. unfold except.
      destruct (isinstance e [HTTPException]); [simpl; auto|exact He].
  - intros [me|]; [|exact I].
    apply update_as_lets_out; simpl; auto.
Qed.




(** ** The updater loop *)

Lemma inside_a_pass_entry e :
  inside_a_pass _ (act e) -> is_sleep e = false /\ closed_seen e = false.
Proof. destruct e as [w X a x]. destruct a; simpl; tauto. Qed.

Lemma resolve_targets_lets_out ok C cfg : lets_out ok C (resolve_targets cfg).
Proof.
  unfold resolve_targets.
  destruct (GUILD_ID cfg) as [id|]; [|simpl; auto].
  destruct (id =? 0); simpl; auto.
  intros [g|] _; simpl; auto.
Qed.

Lemma tick_contained cfg :
  lets_out errors_are_exceptions (fun _ => False) (tick cfg).
Proof.
  unfold tick. apply lo_try with (C := is_exception).
  - apply lo_bind; [apply resolve_targets_lets_out|].
    intros [|g targets]; simpl; auto.
    intros [e|] Hr; simpl; auto.
  - intros e He. unfold except. unfold is_exception in He. rewrite He. simpl. auto.
Qed.

Lemma tick_actions cfg : all_actions inside_a_pass (tick cfg).
Proof.
  unfold tick. apply all_try.
  - apply all_bind.
    + unfold resolve_targets.
      destruct (GUILD_ID cfg) as [id|]; [|simpl; auto].
      destruct (id =? 0); simpl; auto.
      split; [exact I|]. intros [g|]; simpl; auto.
    + intros [|g targets]; simpl; auto.
      split; [exact I|]. intros [e|]; simpl; auto.
  - intros e q. apply all_except. intros e'. simpl. auto.
Qed.

Lemma count_none f (t : trace) :
  Forall (fun e => f e = false) t -> count f t = 0%nat.
Proof.
  unfold count. induction 1 as [|e t He Ht IH]; simpl; [reflexivity|].
  rewrite He. exact IH.
Qed.

Lemma existsb_none (f : entry -> bool) (t : trace) :
  Forall (fun e => f e = false) t -> existsb f t = false.
Proof.
  induction 1 as [|e t He Ht IH]; simpl; [reflexivity|]. now rewrite He.
Qed.

(** One pass of the loop body: it returns, whatever went wrong inside, and
    neither sleeps nor asks whether the client is closed. *)
Lemma tick_returns cfg (E : env) (h : trace) :
  answers_within errors_are_exceptions E ->
  exists t, run E 0 (tick cfg) h = (inr tt, h ++ t) /\
            count is_sleep t = 0%nat /\ existsb closed_seen t = false.
Proof.
  intros HE.
  pose proof (run_lets_out _ _ E 0%nat (tick cfg) h HE (tick_contained cfg)) as Hres.
  destruct (run_all inside_a_pass E 0%nat (tick cfg) h (tick_actions cfg))
    as (t & Ht & Hall).
  exists t. destruct (run E 0 (tick cfg) h) as [[e|[]] h1]; simpl in *; [contradiction|].
  subst h1. split; [reflexivity|].
  split; [apply count_none|apply existsb_none];
    (eapply Forall_impl; [|exact Hall]); intros e [He _];
    apply inside_a_pass_entry in He; tauto.
Qed.

Lemma loop_passes_run cfg (E : env) (passes : nat) (h : trace) :
  answers_within errors_are_exceptions E ->
  exists r t,
    run E 0 (loop_passes cfg passes) h = (inr r, h ++ t) /\
    match r with
    | PassesUsedUp => count is_sleep t = passes /\ existsb closed_seen t = false
    | ClientClosed => (count is_sleep t < passes)%nat /\ existsb closed_seen t = true
    end.
Proof.
  intros HE. revert h. induction passes as [|n IH]; intros h.
  - exists PassesUsedUp, []. simpl. rewrite app_nil_r. auto.
  - cbn [loop_passes]. rewrite run_bind, run_perform.
    destruct (E bool h 0%nat IsClosed) eqn:Hc.
    + exists ClientClosed, [Entry 0%nat IsClosed true]. simpl. split; [reflexivity|].
      split; [unfold count; simpl; lia|reflexivity].
    + rewrite run_bind.
      destruct (tick_returns cfg E (h ++ [Entry 0%nat IsClosed false]) HE)
        as (t1 & Hrun1 & Hs1 & Hc1).
      rewrite Hrun1, run_bind, run_perform.
      match goal with
      | |- context [run E 0 (loop_passes cfg n) ?h2] =>
          destruct (IH h2) as (r & t2 & Hrun2 & Hr)
      end.
      rewrite Hrun2.
      eexists r, (Entry 0%nat IsClosed false :: t1 ++ _ :: t2).
      split.
      { rewrite <- !app_assoc. reflexivity. }
      change (Entry 0%nat IsClosed false :: t1 ++ ?s :: t2)
        with ([Entry 0%nat IsClosed false] ++ t1 ++ [s] ++ t2).
      rewrite !count_app, !existsb_app, Hs1, Hc1.
      destruct r; destruct Hr as [Hn Hcl]; rewrite Hcl; simpl; split; auto;
        unfold count in *; simpl; lia.
Qed.

(** Run on its own, with the outcome of each gather left to the
    environment, the loop performs its passes. *)
Lemma updater_loop_runs (cfg : config) (E : env) (passes : nat) (h : trace) :
  answers_within errors_are_exceptions E ->
  exists r t,
    run E 0 (updater_loop cfg passes) h = (inr r, h ++ t) /\
    match r with
    | PassesUsedUp => count is_sleep t = passes /\ existsb closed_seen t = false
    | ClientClosed => (count is_sleep t < passes)%nat /\ existsb closed_seen t = true
    end.
Proof.
  intros HE. unfold updater_loop. rewrite run_bind, run_perform, run_bind, run_perform.
  match goal with
  | |- context [run E 0 (loop_passes cfg passes) ?h2] =>
      destruct (loop_passes_run cfg E passes h2 HE) as (r & t & Hrun & Hr)
  end.
  rewrite Hrun. eexists r, (_ :: _ :: t).
  split; [rewrite <- !app_assoc; reflexivity|].
  change (?a :: ?b :: t) with ([a; b] ++ t).
  rewrite count_app, existsb_app. exact Hr.
Qed.

(** ** The scheduler *)

Section MachineFacts.

Variable child : guild -> proc unit.
Variable E : env.
Variable R : Type.

Lemma step_cases choice (st : state R) : step_case child E st (step child E choice st).
Proof.
  destruct choice as [|i]; simpl.
  - unfold step_main.
    destruct (main st) as [[r|e|X a k]|targets ids k] eqn:Hmain;
      try (apply sc_idle; reflexivity).
    destruct (as_gather a) as [[targets pass]|] eqn:Hg.
    + destruct a; simpl in Hg; try discriminate.
      injection Hg as <- <-. eapply sc_spawn; [exact Hmain|reflexivity].
    + eapply sc_main; eauto.
  - unfold step_task.
    destruct (lookup i (pool st)) as [[[]|e|X a k]|] eqn:Hl.
    + eapply sc_end; [exact Hl|reflexivity|reflexivity].
    + eapply sc_end; [exact Hl|reflexivity|reflexivity].
    + eapply sc_task; [exact Hl|reflexivity].
    + apply sc_idle. reflexivity.
Qed.

Lemma exec_invariant (I : state R -> Prop) :
  (forall st st', I st -> step_case child E st st' -> I st') ->
  forall schedule st, I st -> I (exec child E schedule st).
Proof.
  intros Hstep schedule. induction schedule as [|c rest IH]; intros st Hst; simpl; auto.
  apply IH. eapply Hstep; [exact Hst|apply step_cases].
Qed.

(** *** The pool *)

Lemma lookup_in i ps (p : proc unit) : lookup i ps = Some p -> In (i, p) ps.
Proof.
  induction ps as [|[j q] ps IH]; simpl; [discriminate|].
  destruct (Nat.eqb_spec i j) as [->|Hne].
  - intros [= ->]. now left.
  - intros H. right. auto.
Qed.

Lemma in_update i q ps (jp : nat * proc unit) :
  In jp (update i q ps) -> jp = (i, q) \/ In jp ps.
Proof.
  induction ps as [|[j p] ps IH]; simpl; [tauto|].
  destruct (Nat.eqb_spec i j) as [->|Hne]; simpl; intuition.
Qed.

Lemma map_fst_update i q ps : map fst (update i q ps) = map fst ps.
Proof.
  induction ps as [|[j p] ps IH]; simpl; [reflexivity|].
  destruct (Nat.eqb_spec i j) as [->|Hne]; simpl; [reflexivity|now rewrite IH].
Qed.

Lemma live_iff ps i : live ps i = true <-> In i (map fst ps).
Proof.
  unfold live. rewrite existsb_exists, in_map_iff. split.
  - intros (jp & Hin & Heq). apply Nat.eqb_eq in Heq. eauto.
  - intros (jp & Heq & Hin). exists jp. split; [exact Hin|]. now apply Nat.eqb_eq.
Qed.

Lemma in_remove i ps (jp : nat * proc unit) :
  In jp (remove i ps) <-> In jp ps /\ fst jp <> i.
Proof.
  unfold remove. rewrite filter_In, negb_true_iff, Nat.eqb_neq. intuition.
Qed.

Lemma lookup_update_other i j q ps : i <> j -> lookup j (update i q ps) = lookup j ps.
Proof.
  intros Hne. induction ps as [|[n p] ps IH]; simpl; [reflexivity|].
  destruct (Nat.eqb_spec i n) as [->|Hin]; simpl.
  - destruct (Nat.eqb_spec j n); [congruence|reflexivity].
  - destruct (Nat.eqb_spec j n); [reflexivity|exact IH].
Qed.

Lemma lookup_remove_other i j ps : i <> j -> lookup j (remove i ps) = lookup j ps.
Proof.
  intros Hne. induction ps as [|[n p] ps IH]; simpl; [reflexivity|].
  destruct (Nat.eqb_spec i n) as [->|Hin]; simpl.
  - destruct (Nat.eqb_spec j n); [congruence|exact IH].
  - destruct (Nat.eqb_spec j n); [reflexivity|exact IH].
Qed.

Lemma gathered_app (t u : trace) : gathered (t ++ u) = gathered t ++ gathered u.
Proof. apply flat_map_app. Qed.

End MachineFacts.

(** *** One gather, from start to end *)

Section OneGather.

Variable child : guild -> proc unit.
Variable E : env.
Variable targets : list guild.

(** Every started task has an id below the number of targets and is
    either still in the pool or among the finished. *)
Definition accounted (st : state unit) : Prop :=
  (forall ip, In ip (pool st) -> (fst ip < length targets)%nat) /\
  (forall j, (j < length targets)%nat ->
             In j (map fst (pool st)) \/ In j (map fst (finished st))).

Definition all_returned (st : state unit) : Prop :=
  Forall (fun ir => snd ir = inr tt) (finished st).

Inductive phase (st : state unit) : Prop :=
| ph_before :
    main st = Running (gather_all targets) ->
    pool st = [] -> finished st = [] -> gathered (hist st) = [] -> next_id st = 0%nat ->
    phase st
| ph_waiting k :
    main st = Waiting targets (seq 0 (length targets)) k ->
    (forall r, k r = raising r) ->
    all_returned st -> gathered (hist st) = [] -> accounted st ->
    phase st
| ph_returned :
    main st = Running (Ret tt) ->
    pool st = [] -> all_returned st -> gathered (hist st) = [None] -> accounted st ->
    phase st
| ph_raised e i :
    main st = Running (Raise e) ->
    In (i, inl e) (finished st) -> gathered (hist st) = [Some e] -> accounted st ->
    phase st.

Lemma accounted_update st i q (h : trace) :
  accounted st ->
  (exists p, lookup i (pool st) = Some p) ->
  accounted {| main := main st; pool := update i q (pool st); next_id := next_id st;
               finished := finished st; hist := h |}.
Proof.
  intros [Hlt Hall] [p Hl]. split; simpl.
  - intros ip Hin. apply in_update in Hin. destruct Hin as [->|Hin]; [|auto].
    apply lookup_in in Hl. apply (Hlt _ Hl).
  - intros j Hj. rewrite map_fst_update. auto.
Qed.

Lemma accounted_finish st i r m (h : trace) :
  accounted st ->
  accounted {| main := m; pool := remove i (pool st); next_id := next_id st;
               finished := finished st ++ [(i, r)]; hist := h |}.
Proof.
  intros [Hlt Hall]. split; simpl.
  - intros ip Hin. apply in_remove in Hin. apply Hlt, Hin.
  - intros j Hj. rewrite map_app, in_app_iff. simpl.
    destruct (Nat.eq_dec j i) as [->|Hne]; [tauto|].
    destruct (Hall j Hj) as [Hin|Hin]; [left|tauto].
    apply in_map_iff in Hin. destruct Hin as (ip & Hfst & Hin).
    apply in_map_iff. exists ip. split; [exact Hfst|].
    apply in_remove. split; [exact Hin|congruence].
Qed.

Lemma map_fst_combine {A B : Type} (l : list A) (l' : list B) :
  length l = length l' -> map fst (combine l l') = l.
Proof.
  revert l'. induction l as [|a l IH]; intros [|b l'] Hlen; simpl in *;
    try discriminate; [reflexivity|]. f_equal. apply IH. lia.
Qed.

Lemma phase_start : phase (init (gather_all targets)).
Proof. apply ph_before; reflexivity. Qed.

Lemma phase_spawn st k :
  phase st ->
  main st = Running (Do (Gather targets) k) ->
  (forall r, k r = raising r) ->
  pool st = [] -> finished st = [] -> gathered (hist st) = [] -> next_id st = 0%nat ->
  phase (spawn child targets k st).
Proof.
  intros _ Hm Hk Hpool Hfin Hg Hid. unfold spawn.
  destruct targets as [|g gs] eqn:Ht.
  - apply ph_returned; simpl.
    + rewrite Hk. reflexivity.
    + exact Hpool.
    + unfold all_returned. simpl. rewrite Hfin. constructor.
    + rewrite gathered_app, Hg. reflexivity.
    + split; simpl.
      * rewrite Hpool. intros ip [].
      * intros j Hj. rewrite Ht in Hj. simpl in Hj. lia.
  - rewrite <- Ht. apply ph_waiting with (k := k); simpl.
    + rewrite Hid, Ht. reflexivity.
    + exact Hk.
    + unfold all_returned. simpl. rewrite Hfin. constructor.
    + exact Hg.
    + rewrite Hpool, Hid. simpl app. split; simpl.
      * intros [j p] Hin. apply in_combine_l in Hin. apply in_seq in Hin. simpl. lia.
      * intros j Hj. left. rewrite map_fst_combine.
        -- apply in_seq. lia.
        -- rewrite length_seq, length_map. reflexivity.
Qed.

Lemma phase_step st st' : phase st -> step_case child E st st' -> phase st'.
Proof.
  intros Hph Hstep.
  destruct Hstep as [Heq | X a k Hm Hg Heq | ts k Hm Heq | i X a k Hl Heq | i p r Hl Hend Heq];
    subst st'.
  - exact Hph.
  - destruct Hph as [H| k' H | H | e i H]; rewrite H in Hm; try discriminate.
    apply (f_equal head_gather) in Hm. simpl in Hm. rewrite Hg in Hm. discriminate.
  - pose proof Hph as Hph'.
    destruct Hph as [H Hpool Hfin Hgath Hid | k' H | H | e i H]; rewrite H in Hm;
      try discriminate.
    assert (Hts : ts = targets).
    { apply (f_equal head_gather) in Hm. simpl in Hm. congruence. }
    subst ts.
    apply phase_spawn; auto; [congruence|].
    intros r. apply (f_equal (fun m => resume_with m r)) in Hm. simpl in Hm. congruence.
  - destruct Hph as [H Hpool | k' H Hk Hret Hgath Hacc | H Hpool | e j H Hin Hgath Hacc].
    + rewrite Hpool in Hl. discriminate.
    + apply ph_waiting with (k := k'); simpl; auto.
      * rewrite gathered_app, Hgath. reflexivity.
      * apply accounted_update; eauto.
    + rewrite Hpool in Hl. discriminate.
    + apply ph_raised with (e := e) (i := j); simpl; auto.
      * rewrite gathered_app, Hgath. reflexivity.
      * apply accounted_update; eauto.
  - unfold finish.
    destruct Hph as [H Hpool | k' H Hk Hret Hgath Hacc | H Hpool | e j H Hin Hgath Hacc].
    + rewrite Hpool in Hl. discriminate.
    + rewrite H. unfold wake.
      assert (Hi : (i < length targets)%nat).
      { apply lookup_in in Hl. apply (proj1 Hacc _ Hl). }
      destruct r as [e|[]].
      * assert (Hex : existsb (Nat.eqb i) (seq 0 (length targets)) = true).
        { apply existsb_exists. exists i. split; [apply in_seq; lia|apply Nat.eqb_refl]. }
        rewrite Hex. apply ph_raised with (e := e) (i := i); simpl.
        -- rewrite Hk. reflexivity.
        -- apply in_or_app. right. now left.
        -- rewrite gathered_app, Hgath. reflexivity.
        -- apply accounted_finish. exact Hacc.
      * destruct (existsb (live (remove i (pool st))) (seq 0 (length targets))) eqn:Hex.
        -- apply ph_waiting with (k := k'); simpl; auto.
           ++ unfold all_returned. simpl. apply Forall_app. split; [exact Hret|].
              constructor; [reflexivity|constructor].
           ++ apply accounted_finish. exact Hacc.
        -- apply ph_returned; simpl.
           ++ rewrite Hk. reflexivity.
           ++ destruct (remove i (pool st)) as [|ip l] eqn:Hrem; [reflexivity|].
              exfalso.
              assert (Hin : In ip (remove i (pool st))) by (rewrite Hrem; now left).
              apply in_remove in Hin. destruct Hin as [Hin _].
              pose proof (proj1 Hacc _ Hin) as Hlt.
              assert (Htrue : existsb (live (ip :: l)) (seq 0 (length targets)) = true).
              { apply existsb_exists. exists (fst ip). split; [apply in_seq; lia|].
                simpl. now rewrite Nat.eqb_refl. }
              congruence.
           ++ unfold all_returned. simpl. apply Forall_app. split; [exact Hret|].
              constructor; [reflexivity|constructor].
           ++ rewrite gathered_app, Hgath. reflexivity.
           ++ apply accounted_finish. exact Hacc.
    + rewrite Hpool in Hl. discriminate.
    + rewrite H. simpl. apply ph_raised with (e := e) (i := j); simpl; auto.
      * apply in_or_app. now left.
      * apply accounted_finish. exact Hacc.
Qed.

Lemma phase_always schedule : phase (exec child E schedule (init (gather_all targets))).
Proof. apply exec_invariant; [apply phase_step|apply phase_start]. Qed.

End OneGather.

Lemma step_task_frame (E : env) (R : Type) (st : state R) i j :
  i <> j -> lookup j (pool (step_task E i st)) = lookup j (pool st).
Proof.
  intros Hne. unfold step_task.
  destruct (lookup i (pool st)) as [[r|e|X a k]|]; simpl; auto.
  - unfold finish. destruct (wake i (inr r) _ _ _). simpl.
    now apply lookup_remove_other.
  - unfold finish. destruct (wake i (inl e) _ _ _). simpl.
    now apply lookup_remove_other.
  - now apply lookup_update_other.
Qed.

(** *** A gather inside the updater loop *)

Section Waking.

Variable child : guild -> proc unit.
Variable E : env.
Variable R : Type.

Lemma lookup_app j (ps qs : list (nat * proc unit)) p :
  lookup j ps = Some p -> lookup j (ps ++ qs) = Some p.
Proof.
  induction ps as [|[i q] ps IH]; simpl; [discriminate|].
  destruct (Nat.eqb j i); auto.
Qed.

Lemma lookup_update_same i q ps p :
  lookup i ps = Some p -> lookup i (update i q ps) = Some q.
Proof.
  induction ps as [|[j r] ps IH]; simpl; [discriminate|].
  destruct (Nat.eqb_spec i j) as [->|Hne]; simpl.
  - now rewrite Nat.eqb_refl.
  - destruct (Nat.eqb_spec i j); [contradiction|exact IH].
Qed.

(** A step of the updater coroutine at an action that is no gather. *)
Lemma main_performs (st : state R) X (a : action X) k :
  main st = Running (Do a k) ->
  as_gather a = None ->
  step child E 0 st
  = {| main := Running (k (E _ (hist st) 0%nat a));
       pool := pool st;
       next_id := next_id st;
       finished := finished st;
       hist := hist st ++ [Entry 0%nat a (E _ (hist st) 0%nat a)] |}.
Proof. intros Hm Hg. simpl. unfold step_main. rewrite Hm, Hg. reflexivity. Qed.

(** A step of the updater coroutine at a gather of at least one target. *)
Lemma main_gathers (st : state R) targets k :
  main st = Running (Do (Gather targets) k) ->
  targets <> [] ->
  step child E 0 st
  = {| main := Waiting targets (seq (next_id st) (length targets)) k;
       pool := pool st ++ combine (seq (next_id st) (length targets)) (map child targets);
       next_id := (next_id st + length targets)%nat;
       finished := finished st;
       hist := hist st |}.
Proof.
  intros Hm Hne. simpl. unfold step_main. rewrite Hm. simpl. unfold spawn.
  destruct targets as [|g gs]; [contradiction|reflexivity].
Qed.

(** The task [i] of a gather has raised: its next step ends the wait with
    that error, whatever the other tasks are doing; they stay in the pool. *)
Lemma raise_wakes (st : state R) targets ids k i e :
  main st = Waiting targets ids k ->
  In i ids ->
  lookup i (pool st) = Some (Raise e) ->
  step child E (S i) st
  = {| main := Running (k (Some e));
       pool := remove i (pool st);
       next_id := next_id st;
       finished := finished st ++ [(i, inl e)];
       hist := hist st ++ [Entry 0%nat (Gather targets) (Some e)] |}.
Proof.
  intros Hm Hin Hl. simpl. unfold step_task. rewrite Hl. unfold finish, wake. rewrite Hm.
  assert (Hex : existsb (Nat.eqb i) ids = true).
  { apply existsb_exists. exists i. split; [exact Hin|apply Nat.eqb_refl]. }
  rewrite Hex. reflexivity.
Qed.

(** The task [i] has returned: the wait goes on as long as another awaited
    task is in the pool, and ends with it otherwise. *)
Lemma return_wakes_last (st : state R) targets ids k i :
  main st = Waiting targets ids k ->
  lookup i (pool st) = Some (Ret tt) ->
  step child E (S i) st
  = if existsb (live (remove i (pool st))) ids
    then {| main := Waiting targets ids k;
            pool := remove i (pool st);
            next_id := next_id st;
            finished := finished st ++ [(i, inr tt)];
            hist := hist st |}
    else {| main := Running (k None);
            pool := remove i (pool st);
            next_id := next_id st;
            finished := finished st ++ [(i, inr tt)];
            hist := hist st ++ [Entry 0%nat (Gather targets) None] |}.
Proof.
  intros Hm Hl. simpl. unfold step_task. rewrite Hl. unfold finish, wake. rewrite Hm.
  destruct (existsb _ ids); reflexivity.
Qed.

(** A step of the updater coroutine leaves every task as it is. *)
Lemma main_step_keeps_tasks (st : state R) j p :
  lookup j (pool st) = Some p -> lookup j (pool (step child E 0 st)) = Some p.
Proof.
  intros Hl. simpl. unfold step_main.
  destruct (main st) as [[r|e|X a k]|ts ids k]; try exact Hl.
  destruct (as_gather a) as [[ts pass]|]; [|exact Hl].
  unfold spawn. destruct ts as [|g gs]; [exact Hl|]. cbn [pool].
  now apply lookup_app.
Qed.

(** A task that is stepped on its own runs as the sequential interpreter
    runs it, to its end, whatever the updater coroutine is doing; the
    trace takes only its entries, and at most the end of the gather that
    awaited it. *)
Lemma task_runs_to_its_end (p : proc unit) :
  forall (st : state R) j,
    lookup j (pool st) = Some p ->
    exists m w,
      hist (exec child E (repeat (S j) m) st) = snd (run E (S j) p (hist st)) ++ w /\
      Forall (fun e => who e = 0%nat) w /\
      In (j, fst (run E (S j) p (hist st))) (finished (exec child E (repeat (S j) m) st)) /\
      lookup j (pool (exec child E (repeat (S j) m) st)) = None.
Proof.
  assert (Hgone : forall (ps : list (nat * proc unit)) j, lookup j (remove j ps) = None).
  { intros ps j. induction ps as [|[i q] ps IH]; simpl; [reflexivity|].
    destruct (Nat.eqb_spec j i) as [->|Hne]; simpl; [exact IH|].
    destruct (Nat.eqb_spec j i); [contradiction|exact IH]. }
  assert (Hend : forall (st : state R) j (r : result unit),
             exists w,
               hist (finish j r st) = hist st ++ w /\ Forall (fun e => who e = 0%nat) w /\
               In (j, r) (finished (finish j r st)) /\
               lookup j (pool (finish j r st)) = None).
  { intros st j r. unfold finish, wake.
    destruct (main st) as [q|ts ids k].
    - exists []. simpl. rewrite app_nil_r. repeat split; auto.
      apply in_or_app. right. now left.
    - destruct r as [e|u]; destruct (existsb _ ids); simpl;
        first [ exists []; rewrite app_nil_r; repeat split; auto;
                apply in_or_app; right; now left
              | eexists [_]; repeat split; auto; apply in_or_app; right; now left ]. }
  induction p as [r|e|X a k IH]; intros st j Hl.
  - exists 1%nat. simpl. unfold step_task. rewrite Hl.
    destruct (Hend st j (inr r)) as (w & Hh & Hw & Hin & Hp). exists w. auto.
  - exists 1%nat. simpl. unfold step_task. rewrite Hl.
    destruct (Hend st j (inl e)) as (w & Hh & Hw & Hin & Hp). exists w. auto.
  - set (st1 := step child E (S j) st).
    assert (Hst1 : lookup j (pool st1) = Some (k (E _ (hist st) (S j) a)) /\
                   hist st1 = hist st ++ [Entry (S j) a (E _ (hist st) (S j) a)]).
    { subst st1. simpl. unfold step_task. rewrite Hl. simpl. split; [|reflexivity].
      eapply lookup_update_same. exact Hl. }
    destruct Hst1 as [Hl1 Hh1].
    destruct (IH _ st1 j Hl1) as (m & w & Hh & Hw & Hin & Hp).
    exists (S m), w. simpl. fold st1. rewrite Hh1 in Hh, Hin. auto.
Qed.

End Waking.

(** One step of the updater coroutine, at the innermost state written out. *)
Ltac main_step :=
  match goal with
  | |- context [step ?c ?E 0%nat {| main := ?m; pool := ?p; next_id := ?n;
                                   finished := ?f; hist := ?h |}] =>
      rewrite (main_performs c E _ {| main := m; pool := p; next_id := n;
                                      finished := f; hist := h |} _ _ _ eq_refl eq_refl);
      cbn [main hist pool next_id finished]
  end.

Ltac main_gather :=
  match goal with
  | |- context [step ?c ?E 0%nat {| main := ?m; pool := ?p; next_id := ?n;
                                   finished := ?f; hist := ?h |}] =>
      rewrite (main_gathers c E _ {| main := m; pool := p; next_id := n;
                                     finished := f; hist := h |} _ _ eq_refl
                 ltac:(discriminate));
      cbn [main hist pool next_id finished]
  end.

(** A pass of the updater loop that finds the client open and at least one
    target starts one reconciliation per target and waits. *)
Lemma loop_reaches_gather (cfg : config) (E : env) (st : state loop_end) n targets h' :
  main st = Running (loop_passes cfg (S n)) ->
  E _ (hist st) 0%nat IsClosed = false ->
  run E 0 (resolve_targets cfg) (hist st ++ [Entry 0%nat IsClosed false]) = (inr targets, h') ->
  targets <> [] ->
  exec (update_guild cfg) E [0; 0; 0]%nat st
  = {| main := Waiting targets (seq (next_id st) (length targets)) (after_gather cfg n);
       pool := pool st ++ combine (seq (next_id st) (length targets))
                                  (map (update_guild cfg) targets);
       next_id := (next_id st + length targets)%nat;
       finished := finished st;
       hist := h' |}.
Proof.
  intros Hm Hopen Hres Hne. cbn [exec].
  rewrite (main_performs (update_guild cfg) E loop_end st bool IsClosed _ Hm eq_refl).
  rewrite Hopen. destruct st as [m ps nid fin hs]. cbn [main hist pool next_id finished] in *.
  unfold tick, resolve_targets in *.
  destruct (GUILD_ID cfg) as [id|]; [destruct (id =? 0)|].
  - simpl in Hres. injection Hres as <- <-.
    main_step.
    destruct (E (list guild) _ 0%nat Guilds) as [|g gs]; [contradiction|].
    main_gather. reflexivity.
  - simpl in Hres.
    main_step.
    destruct (E (option guild) _ 0%nat (GetGuild id)) as [g|].
    + simpl in Hres. injection Hres as <- <-.
      main_gather. reflexivity.
    + simpl in Hres. injection Hres as <- _. contradiction.
  - simpl in Hres. injection Hres as <- <-.
    main_step.
    destruct (E (list guild) _ 0%nat Guilds) as [|g gs]; [contradiction|].
    main_gather. reflexivity.
Qed.

(** A reconciliation of that gather has raised an ordinary exception: its
    next step ends the wait, and the next two steps of the loop log the
    error and start the sleep; the loop is then at its next pass.  The
    other reconciliations are in the pool as they were. *)
Lemma loop_after_raise (cfg : config) (E : env) (st : state loop_end) targets ids n i e :
  main st = Waiting targets ids (after_gather cfg n) ->
  In i ids ->
  lookup i (pool st) = Some (Raise e) ->
  isinstance e [Exception] = true ->
  exec (update_guild cfg) E [S i; 0; 0]%nat st
  = {| main := Running (loop_passes cfg n);
       pool := remove i (pool st);
       next_id := next_id st;
       finished := finished st ++ [(i, inl e)];
       hist := hist st ++ [Entry 0%nat (Gather targets) (Some e);
                           Entry 0%nat (Log ERROR (lit "Updater loop error: " ++ exn_str e)) tt;
                           Entry 0%nat (Sleep (INTERVAL_SECONDS cfg * 1000)) tt] |}.
Proof.
  intros Hm Hin Hl He.
  cbn [exec]. rewrite (raise_wakes (update_guild cfg) E loop_end st targets ids _ i e Hm Hin Hl).
  unfold after_gather. cbn [raising try_except]. unfold except. rewrite He.
  main_step.
  unit_answers E.
  main_step.
  unit_answers E.
  rewrite <- !app_assoc. reflexivity.
Qed.

(** C8, refuted as stated: one pass of the loop over two guilds.  The
    membership request of the first reconciliation times out; the gather
    ends with that error, the loop logs it and goes to sleep, and only then
    does the second reconciliation, which had its price already, edit the
    nickname and the presence.  The loop did not wait for it. *)
Lemma loop_sleeps_before_sibling_ends :
  summary (hist (exec (update_guild default_config) (answer lookup_times_out)
                      [0; 0; 0; 0; 0; 2; 1; 1; 0; 0; 2; 2; 2; 2]%nat
                      (init (updater_loop default_config 1))))
  = [(0, "wait_until_ready"); (0, "log"); (0, "is_closed"); (0, "guilds");
     (2, "http_get"); (1, "fetch_member");
     (0, "gather"); (0, "log"); (0, "sleep");
     (2, "edit_nick"); (2, "change_presence"); (2, "log")]%nat%string.
Proof. vm_compute. reflexivity. Qed.

(** C8, amended.  A pass of the updater loop that finds the client open
    and at least one target starts one reconciliation per target of the
    resolved set and waits for them together.  A gather returns normally
    only when every reconciliation has returned and none is left in the
    pool: a reconciliation that returns ends the wait only if it is the last
    one awaited.  A reconciliation that has raised ends the wait with its
    next step, with that error and whatever the others are doing; for an
    ordinary exception the loop then logs "Updater loop error: ..." at ERROR,
    sleeps the interval and is at its next pass.  The other reconciliations
    are not cancelled: each is still in the pool or has finished by itself, a
    step of the loop or of another task leaves it as it was, and stepped on
    its own it runs to its end as the sequential interpreter runs it. *)
Theorem gather_waits_unless_one_raises (cfg : config) (E : env) (targets : list guild)
  (schedule : list nat) :
  pool (step (update_guild cfg) E 0 (init (gather_all targets)))
  = combine (seq 0 (length targets)) (map (update_guild cfg) targets) /\
  (gathered (hist (exec (update_guild cfg) E schedule (init (gather_all targets)))) = [None] ->
   pool (exec (update_guild cfg) E schedule (init (gather_all targets))) = [] /\
   forall j, (j < length targets)%nat ->
             In (j, inr tt)
                (finished (exec (update_guild cfg) E schedule (init (gather_all targets))))) /\
  (forall e,
      gathered (hist (exec (update_guild cfg) E schedule (init (gather_all targets))))
      = [Some e] ->
      (exists i,
          In (i, inl e)
             (finished (exec (update_guild cfg) E schedule (init (gather_all targets))))) /\
      forall j, (j < length targets)%nat ->
        In j (map fst (pool (exec (update_guild cfg) E schedule (init (gather_all targets)))))
        \/ In j (map fst (finished (exec (update_guild cfg) E schedule
                                         (init (gather_all targets)))))) /\
  (forall (st : state unit) i j,
      i <> j ->
      lookup j (pool (step (update_guild cfg) E (S i) st)) = lookup j (pool st)) /\
  (forall (st : state loop_end) n resolved h',
      main st = Running (loop_passes cfg (S n)) ->
      E _ (hist st) 0%nat IsClosed = false ->
      run E 0 (resolve_targets cfg) (hist st ++ [Entry 0%nat IsClosed false])
      = (inr resolved, h') ->
      resolved <> [] ->
      exec (update_guild cfg) E [0; 0; 0]%nat st
      = {| main := Waiting resolved (seq (next_id st) (length resolved)) (after_gather cfg n);
           pool := pool st ++ combine (seq (next_id st) (length resolved))
                                      (map (update_guild cfg) resolved);
           next_id := (next_id st + length resolved)%nat;
           finished := finished st;
           hist := h' |}) /\
  (forall (st : state loop_end) awaited ids k i e,
      main st = Waiting awaited ids k ->
      In i ids ->
      lookup i (pool st) = Some (Raise e) ->
      step (update_guild cfg) E (S i) st
      = {| main := Running (k (Some e));
           pool := remove i (pool st);
           next_id := next_id st;
           finished := finished st ++ [(i, inl e)];
           hist := hist st ++ [Entry 0%nat (Gather awaited) (Some e)] |}) /\
  (forall (st : state loop_end) awaited ids n i e,
      main st = Waiting awaited ids (after_gather cfg n) ->
      In i ids ->
      lookup i (pool st) = Some (Raise e) ->
      isinstance e [Exception] = true ->
      exec (update_guild cfg) E [S i; 0; 0]%nat st
      = {| main := Running (loop_passes cfg n);
           pool := remove i (pool st);
           next_id := next_id st;
           finished := finished st ++ [(i, inl e)];
           hist := hist st
                   ++ [Entry 0%nat (Gather awaited) (Some e);
                       Entry 0%nat (Log ERROR (lit "Updater loop error: " ++ exn_str e)) tt;
                       Entry 0%nat (Sleep (INTERVAL_SECONDS cfg * 1000)) tt] |}) /\
  (forall (st : state loop_end) awaited ids k i,
      main st = Waiting awaited ids k ->
      lookup i (pool st) = Some (Ret tt) ->
      step (update_guild cfg) E (S i) st
      = if existsb (live (remove i (pool st))) ids
        then {| main := Waiting awaited ids k;
                pool := remove i (pool st);
                next_id := next_id st;
                finished := finished st ++ [(i, inr tt)];
                hist := hist st |}
        else {| main := Running (k None);
                pool := remove i (pool st);
                next_id := next_id st;
                finished := finished st ++ [(i, inr tt)];
                hist := hist st ++ [Entry 0%nat (Gather awaited) None] |}) /\
  (forall (st : state loop_end) i j,
      i <> j ->
      lookup j (pool (step (update_guild cfg) E (S i) st)) = lookup j (pool st)) /\
  (forall (st : state loop_end) j p,
      lookup j (pool st) = Some p ->
      lookup j (pool (step (update_guild cfg) E 0 st)) = Some p) /\
  (forall (st : state loop_end) j p,
      lookup j (pool st) = Some p ->
      exists m w,
        hist (exec (update_guild cfg) E (repeat (S j) m) st)
        = snd (run E (S j) p (hist st)) ++ w /\
        Forall (fun e => who e = 0%nat) w /\
        In (j, fst (run E (S j) p (hist st)))
           (finished (exec (update_guild cfg) E (repeat (S j) m) st)) /\
        lookup j (pool (exec (update_guild cfg) E (repeat (S j) m) st)) = None).
Proof.
  pose proof (phase_always (update_guild cfg) E targets schedule) as Hph.
  set (st := exec (update_guild cfg) E schedule (init (gather_all targets))) in *.
  split; [|split; [|split; [|split; [|split; [|split; [|split; [|split; [|split; [|split]]]]]]]]].
  - destruct targets; reflexivity.
  - intros Hg.
    destruct Hph as [H Hpool Hfin Hgath | k H Hk Hret Hgath Hacc
                    | H Hpool Hret Hgath Hacc | e j H Hin Hgath Hacc];
      try congruence.
    split; [exact Hpool|]. intros j Hj.
    destruct (proj2 Hacc j Hj) as [Hin|Hin]; [rewrite Hpool in Hin; contradiction|].
    apply in_map_iff in Hin. destruct Hin as ([j' r] & Hfst & Hin). simpl in Hfst. subst j'.
    pose proof (proj1 (Forall_forall _ _) Hret _ Hin) as Hr. simpl in Hr. now subst r.
  - intros e Hg.
    destruct Hph as [H Hpool Hfin Hgath | k H Hk Hret Hgath Hacc
                    | H Hpool Hret Hgath Hacc | e' j H Hin Hgath Hacc];
      try congruence.
    assert (e' = e) by congruence. subst e'.
    split; [eauto|]. exact (proj2 Hacc).
  - intros st0 i j Hne. simpl. now apply step_task_frame.
  - intros st0 n resolved h'. apply loop_reaches_gather.
  - intros st0 awaited ids k i e. apply raise_wakes.
  - intros st0 awaited ids n i e. apply loop_after_raise.
  - intros st0 awaited ids k i. apply return_wakes_last.
  - intros st0 i j Hne. simpl. now apply step_task_frame.
  - intros st0 j p. apply main_step_keeps_tasks.
  - intros st0 j p. apply task_runs_to_its_end.
Qed.

(** ** Counting what a coroutine spends

    [spends cost p n post]: started with [n] credits, [p] never performs an
    action it cannot pay for, and ends with a result and a remainder that
    satisfy [post]. *)

Section Spending.

Variable cost : forall X, action X -> nat.

Lemma spends_bind {A B : Type} (p : proc A) (f : A -> proc B) n post :
  spends cost p n (fun r m => match r with
                              | inr x => spends cost (f x) m post
                              | inl e => post (inl e) m
                              end) ->
  spends cost (bind p f) n post.
Proof.
  revert n. induction p as [r|e|X a k IH]; intros n; simpl; auto.
  intros [Hc Hk]. split; auto.
Qed.

Lemma spends_try {A : Type} (p : proc A) handler n post :
  spends cost p n (fun r m => match r with
                              | inr x => post (inr x) m
                              | inl e => match handler e with
                                         | Some q => spends cost q m post
                                         | None => post (inl e) m
                                         end
                              end) ->
  spends cost (try_except p handler) n post.
Proof.
  revert n. induction p as [r|e|X a k IH]; intros n; simpl; auto.
  - destruct (handler e); auto.
  - intros [Hc Hk]. split; auto.
Qed.

Lemma spends_impl {A : Type} (p : proc A) n (post post' : result A -> nat -> Prop) :
  (forall r m, post r m -> post' r m) ->
  spends cost p n post -> spends cost p n post'.
Proof.
  intros Himp. revert n. induction p as [r|e|X a k IH]; intros n; simpl; auto.
  intros [Hc Hk]. split; auto.
Qed.

(** A coroutine whose actions all cost nothing keeps its credits. *)
Lemma spends_nothing {A : Type} (p : proc A) n :
  all_actions (fun X a => cost X a = 0%nat) p ->
  spends cost p n (fun _ m => m = n).
Proof.
  induction p as [r|e|X a k IH]; simpl; auto.
  intros [Ha Hk]. rewrite Ha. split; [lia|]. intros x.
  rewrite Nat.sub_0_r. auto.
Qed.

Lemma spent_app (t u : trace) : spent cost (t ++ u) = (spent cost t + spent cost u)%nat.
Proof. unfold spent. now rewrite map_app, list_sum_app. Qed.

End Spending.

(** *** What the price fetcher performs *)

Lemma subscript_actions P row key : all_actions P (subscript row key).
Proof.
  destruct row; simpl; auto. destruct (dict_get members key); simpl; auto.
Qed.

Lemma py_float_actions v : all_actions fetcher_action (py_float v).
Proof.
  destruct v; simpl; auto.
  - destruct (float_of_int z); simpl; auto.
  - split; [exact I|]. intros [f|]; simpl; auto.
Qed.

Lemma parse_payload_actions data : all_actions fetcher_action (parse_payload data).
Proof.
  destruct data as [| | | | |items|]; simpl; auto.
  destruct items as [|row items]; simpl; auto.
  apply all_bind; [apply subscript_actions|intros v].
  apply all_bind; [apply py_float_actions|intros price].
  apply all_bind; [apply subscript_actions|intros w].
  apply all_bind; [apply py_float_actions|intros change].
  exact I.
Qed.

Lemma fetch_actions coin_id : all_actions fetcher_action (_fetch_one_id coin_id).
Proof.
  unfold _fetch_one_id. simpl. split; [exact I|].
  intros [e|status body]; simpl; auto.
  destruct (negb (status =? 200)); simpl; auto.
  destruct body as [e|data]; simpl; auto using parse_payload_actions.
Qed.

Lemma one_attempt_actions first_id coin_id attempt delay :
  all_actions fetcher_action (one_attempt first_id coin_id attempt delay).
Proof.
  unfold one_attempt. apply all_bind.
  - destruct (delay =? 0); simpl; auto.
  - intros _. apply all_try.
    + apply all_bind; [apply fetch_actions|intros sample].
      apply all_bind; [|intros; exact I].
      destruct (pystr_eqb coin_id first_id); simpl; auto.
    + intros e q. apply all_except. intros e'. simpl. auto.
Qed.

Lemma attempts_loop_actions first_id coin_id todo last_err :
  all_actions fetcher_action (attempts_loop first_id coin_id todo last_err).
Proof.
  revert last_err. induction todo as [|[attempt delay] rest IH]; intros last_err;
    [exact I|].
  cbn [attempts_loop]. apply all_bind; [apply one_attempt_actions|].
  intros [sample|e]; [exact I|apply IH].
Qed.

Lemma get_price_data_actions cfg : all_actions fetcher_action (get_price_data cfg).
Proof.
  unfold get_price_data. generalize (hd [] (COIN_IDS cfg)) as first_id.
  generalize (@None exn) as last_err.
  induction (COIN_IDS cfg) as [|coin_id rest IH]; intros last_err first_id; [exact I|].
  cbn [ids_loop]. apply all_bind; [apply attempts_loop_actions|].
  intros [sample|e]; [exact I|apply IH].
Qed.

(** *** Presence changes of one reconciliation *)

Lemma spent_presence (t : trace) : spent presence_cost t = count is_change_presence t.
Proof.
  unfold spent, count. induction t as [|[w X a x] t IH]; simpl; [reflexivity|].
  rewrite IH. destruct a; reflexivity.
Qed.

Lemma get_price_data_free cfg n :
  spends presence_cost (get_price_data cfg) n (fun _ m => m = n).
Proof.
  apply spends_nothing. eapply all_impl; [|apply get_price_data_actions].
  intros X a. destruct a; simpl; tauto.
Qed.

(** Walks a tree of actions whose costs are known. *)
Ltac pay :=
  repeat (simpl; unfold anyhow, except;
          match goal with
          | |- True => exact I
          | |- (_ <= _)%nat /\ _ => split; [simpl; lia|]
          | |- forall _ : option exn, _ => intros [?|]
          | |- forall _ : unit, _ => intros _
          | |- context [isinstance ?e ?c] => destruct (isinstance e c)
          end).

(** A reconciliation changes the presence at most once. *)
Lemma update_as_presence cfg g me : spends presence_cost (update_as cfg g me) 1 anyhow.
Proof.
  unfold update_as. cbv zeta.
  destruct (negb _); [pay|].
  apply spends_bind, spends_try, spends_bind.
  destruct (http_session cfg); [|pay].
  simpl. apply spends_bind. eapply spends_impl; [|apply get_price_data_free].
  intros [e|[price change_24h]] m ->; pay.
Qed.

Lemma update_guild_presence cfg g : spends presence_cost (update_guild cfg g) 1 anyhow.
Proof.
  unfold update_guild. apply spends_bind, spends_try, spends_bind.
  unfold resolve_me. destruct (guild_me g) as [me|]; simpl.
  - apply update_as_presence.
  - split; [lia|]. intros [e|me]; simpl.
    + unfold except. destruct (isinstance e [HTTPException]); simpl; unfold anyhow; auto.
    + apply update_as_presence.
Qed.

(** *** What a whole run spends *)

Section MachineBudget.

Variable cost : forall X, action X -> nat.
Variable child : guild -> proc unit.
Variable E : env.
Variable R : Type.

(** The task a gather starts for [g] spends at most [per_child g]. *)
Variable per_child : guild -> nat.
Hypothesis child_spends : forall g, spends cost (child g) (per_child g) anyhow.
Hypothesis gather_is_free : forall targets, cost _ (Gather targets) = 0%nat.

(** For the coroutine that gathers, a gather costs what its tasks may
    spend. *)
Definition cost_with_tasks (X : Type) (a : action X) : nat :=
  match as_gather a with
  | Some (targets, _) => list_sum (map per_child targets)
  | None => cost _ a
  end.

Definition main_spends (m : status R) (n : nat) : Prop :=
  match m with
  | Running p => spends cost_with_tasks p n anyhow
  | Waiting _ _ k => forall r, spends cost_with_tasks (k r) n anyhow
  end.

Definition task_spends (ip : nat * proc unit) (b : nat) : Prop :=
  spends cost (snd ip) b anyhow.

Definition within (total : nat) (st : state R) : Prop :=
  exists m bs,
    main_spends (main st) m /\
    Forall2 task_spends (pool st) bs /\
    (spent cost (hist st) + m + list_sum bs <= total)%nat.

Lemma pool_step ps bs i X (a : action X) k x :
  Forall2 task_spends ps bs ->
  lookup i ps = Some (Do a k) ->
  exists bs', Forall2 task_spends (update i (k x) ps) bs' /\
              (list_sum bs' + cost _ a <= list_sum bs)%nat.
Proof.
  induction 1 as [|[j p] b ps bs Hp Hrest IH]; simpl; [discriminate|].
  destruct (Nat.eqb_spec i j) as [->|Hne].
  - intros [= ->]. unfold task_spends in Hp. simpl in Hp. destruct Hp as [Hc Hk].
    exists ((b - cost _ a)%nat :: bs). split.
    + constructor; [apply Hk|exact Hrest].
    + simpl. lia.
  - intros Hl. destruct (IH Hl) as (bs' & Hf & Hsum).
    exists (b :: bs'). split; [constructor; auto|simpl; lia].
Qed.

Lemma pool_remove ps bs i :
  Forall2 task_spends ps bs ->
  exists bs', Forall2 task_spends (remove i ps) bs' /\ (list_sum bs' <= list_sum bs)%nat.
Proof.
  unfold remove.
  induction 1 as [|[j p] b ps bs Hp Hrest (bs' & Hf & Hsum)]; simpl.
  - exists []. split; [apply Forall2_nil|simpl; lia].
  - destruct (negb (Nat.eqb i j)).
    + exists (b :: bs'). split; [constructor; auto|simpl; lia].
    + exists bs'. split; [exact Hf|lia].
Qed.

Lemma pool_spawn start targets :
  Forall2 task_spends (combine (seq start (length targets)) (map child targets))
          (map per_child targets).
Proof.
  revert start. induction targets as [|g gs IH]; intros start; simpl; constructor.
  - apply child_spends.
  - apply IH.
Qed.

Lemma within_step total st st' :
  within total st -> step_case child E st st' -> within total st'.
Proof.
  intros (m & bs & Hmain & Hpool & Hsum) Hstep.
  destruct Hstep as [Heq | X a k Hm Hg Heq | ts k Hm Heq | i X a k Hl Heq | i p r Hl Hend Heq];
    subst st'.
  - exists m, bs. auto.
  - rewrite Hm in Hmain. simpl in Hmain. destruct Hmain as [Hc Hk].
    unfold cost_with_tasks in Hc, Hk. rewrite Hg in Hc, Hk.
    exists (m - cost _ a)%nat, bs. simpl. split; [apply Hk|]. split; [exact Hpool|].
    rewrite spent_app. unfold spent at 2. simpl. lia.
  - rewrite Hm in Hmain. simpl in Hmain. destruct Hmain as [Hc Hk].
    unfold cost_with_tasks in Hc, Hk. simpl in Hc, Hk.
    unfold spawn. destruct ts as [|g gs].
    + exists m, bs. simpl. split; [|split; [exact Hpool|]].
      * specialize (Hk None). simpl in Hk. now rewrite Nat.sub_0_r in Hk.
      * rewrite spent_app. unfold spent at 2. simpl. rewrite gather_is_free. lia.
    + exists (m - list_sum (map per_child (g :: gs)))%nat,
             (bs ++ map per_child (g :: gs)).
      split; [|split].
      * simpl. intros r. apply Hk.
      * cbn [pool]. apply Forall2_app; [exact Hpool|].
        exact (pool_spawn (next_id st) (g :: gs)).
      * rewrite list_sum_app. cbn [hist]. lia.
  - destruct (pool_step _ _ _ _ _ _ (E _ (hist st) (S i) a) Hpool Hl) as (bs' & Hf & Hs).
    exists m, bs'. simpl. split; [exact Hmain|]. split; [exact Hf|].
    rewrite spent_app. unfold spent at 2. simpl. lia.
  - destruct (pool_remove _ _ i Hpool) as (bs' & Hf & Hs).
    unfold finish.
    assert (Hwake : forall m0 h0,
               wake i r (remove i (pool st)) (main st) (hist st) = (m0, h0) ->
               main_spends m0 m /\ spent cost h0 = spent cost (hist st)).
    { unfold wake. destruct (main st) as [q|ts ids k]; [intros m0 h0 [= <- <-]; auto|].
      simpl in Hmain.
      destruct r as [e|u].
      - destruct (existsb _ ids); intros m0 h0 [= <- <-]; simpl; auto.
        split; [apply Hmain|].
        rewrite spent_app. unfold spent at 2. simpl. rewrite gather_is_free. lia.
      - destruct (existsb _ ids); intros m0 h0 [= <- <-]; simpl; auto.
        split; [apply Hmain|].
        rewrite spent_app. unfold spent at 2. simpl. rewrite gather_is_free. lia. }
    destruct (wake i r (remove i (pool st)) (main st) (hist st)) as [m0 h0].
    destruct (Hwake m0 h0 eq_refl) as [Hm0 Hh0].
    exists m, bs'. simpl. split; [exact Hm0|]. split; [exact Hf|]. lia.
Qed.

Lemma run_within total (p : proc R) schedule :
  spends cost_with_tasks p total anyhow ->
  (spent cost (hist (exec child E schedule (init p))) <= total)%nat.
Proof.
  intros Hp.
  assert (H : within total (exec child E schedule (init p))).
  { apply exec_invariant; [apply within_step|].
    exists total, []. simpl. split; [exact Hp|]. split; [constructor|].
    unfold spent. simpl. lia. }
  destruct H as (m & bs & _ & _ & Hsum). lia.
Qed.

End MachineBudget.

(** *** The status line *)

Lemma update_guild_writes cfg g : spends presence_cost (update_guild cfg g) (writes_of g) anyhow.
Proof.
  unfold writes_of, may_write.
  destruct (guild_me g) as [me|] eqn:Hme; [|apply update_guild_presence].
  destruct (change_nickname (guild_permissions me) || manage_nicknames (guild_permissions me))
    eqn:Hp; [apply update_guild_presence|].
  unfold update_guild, resolve_me, update_as. rewrite Hme. simpl. rewrite Hp. pay.
Qed.

Lemma writes_total targets :
  list_sum (map writes_of targets) = length (filter may_write targets).
Proof.
  induction targets as [|g gs IH]; simpl; [reflexivity|].
  unfold writes_of at 1. destruct (may_write g); simpl; lia.
Qed.

Lemma presence_after_app old (t u : trace) :
  presence_after old (t ++ u) = presence_after (presence_after old t) u.
Proof. revert old. induction t as [|e t IH]; intros old; simpl; auto. Qed.

(** C10: the status line is one value for the whole client.  A pass over
    the targets makes at most one presence change per target that may be
    updated, every one of them through the same client-wide call; the status
    line after a trace is the name of the last change that succeeded,
    whichever reconciliation made it, and a change that failed leaves it.
    In [throttled_pass] the first guild's reconciliation has its price and
    writes "24h +2.50%"; the second's fetch fails and its "API error" is
    what both guilds then show. *)
Theorem presence_is_shared (cfg : config) (E : env) (targets : list guild)
  (schedule : list nat) :
  (count is_change_presence
         (hist (exec (update_guild cfg) E schedule (init (gather_all targets))))
   <= length (filter may_write targets))%nat /\
  (forall old t me name,
      presence_after old (t ++ [Entry me (ChangePresence name) None]) = Some name) /\
  (forall old t me name e,
      presence_after old (t ++ [Entry me (ChangePresence name) (Some e)])
      = presence_after old t) /\
  map (fun e => (who e, presence_written e))
      (filter is_change_presence (hist throttled_pass))
  = [(1%nat, Some (lit "24h +2.50%")); (2%nat, Some (lit "API error"))] /\
  presence_after None (hist throttled_pass) = Some (lit "API error").
Proof.
  split; [|split; [|split; [|split]]].
  - rewrite <- spent_presence, <- writes_total.
    apply run_within with (per_child := writes_of).
    + apply update_guild_writes.
    + reflexivity.
    + simpl. unfold cost_with_tasks. simpl. split; [lia|].
      intros [e|]; exact I.
  - intros. rewrite presence_after_app. reflexivity.
  - intros. rewrite presence_after_app. reflexivity.
  - vm_compute. reflexivity.
  - vm_compute. reflexivity.
Qed.

(** *** What the updater coroutine itself performs *)

Section MainActions.

Variable P : forall X, action X -> Prop.
Variable child : guild -> proc unit.
Variable E : env.
Variable R : Type.

Definition main_only (m : status R) : Prop :=
  match m with
  | Running p => all_actions P p
  | Waiting targets _ k => P _ (Gather targets) /\ forall r, all_actions P (k r)
  end.

Definition main_entries (st : state R) : Prop :=
  main_only (main st) /\
  Forall (fun e => who e = 0%nat -> P _ (act e)) (hist st).

Lemma main_entries_step st st' :
  main_entries st -> step_case child E st st' -> main_entries st'.
Proof.
  intros [Hmain Hhist] Hstep.
  assert (Hadd : forall w X (a : action X) x,
             (w = 0%nat -> P _ a) ->
             Forall (fun e => who e = 0%nat -> P _ (act e)) (hist st ++ [Entry w a x])).
  { intros w X a x Hw. apply Forall_app. split; [exact Hhist|]. constructor; auto. }
  destruct Hstep as [Heq | X a k Hm Hg Heq | ts k Hm Heq | i X a k Hl Heq | i p r Hl Hend Heq];
    subst st'.
  - split; assumption.
  - rewrite Hm in Hmain. simpl in Hmain. destruct Hmain as [Ha Hk].
    split; simpl; [apply Hk|]. apply Hadd. auto.
  - rewrite Hm in Hmain. simpl in Hmain. destruct Hmain as [Ha Hk].
    unfold spawn. destruct ts as [|g gs]; split; simpl; auto.
  - split; simpl; [exact Hmain|]. apply Hadd. discriminate.
  - unfold finish, wake.
    destruct (main st) as [q|ts ids k]; [split; simpl; assumption|].
    simpl in Hmain. destruct Hmain as [Ha Hk].
    destruct r as [e|u]; destruct (existsb _ ids); split; simpl; auto.
Qed.

Lemma main_entries_always (p : proc R) schedule :
  all_actions P p ->
  Forall (fun e => who e = 0%nat -> P _ (act e)) (hist (exec child E schedule (init p))).
Proof.
  intros Hp.
  apply (exec_invariant child E R main_entries main_entries_step schedule (init p)).
  split; [exact Hp|constructor].
Qed.

End MainActions.

Lemma updater_loop_requests_nothing cfg passes :
  all_actions not_a_request (updater_loop cfg passes).
Proof.
  assert (Htick : all_actions not_a_request (tick cfg)).
  { unfold tick. apply all_try.
    - apply all_bind.
      + unfold resolve_targets.
        destruct (GUILD_ID cfg) as [id|]; [|simpl; auto].
        destruct (id =? 0); simpl; auto.
        split; [exact I|]. intros [g|]; simpl; auto.
      + intros [|g targets]; simpl; auto.
        split; [exact I|]. intros [e|]; simpl; auto.
    - intros e q. apply all_except. intros e'. simpl. auto. }
  unfold updater_loop. simpl. split; [exact I|]. intros _. split; [exact I|]. intros _.
  induction passes as [|n IH]; simpl; auto.
  split; [exact I|]. intros [|]; simpl; auto.
  apply all_bind; [exact Htick|]. intros _. simpl. auto.
Qed.

(** A reconciliation holding a permitted membership starts by asking the
    price API itself. *)
Lemma update_as_requests cfg (E : env) me g m h coin_id rest :
  http_session cfg = true ->
  COIN_IDS cfg = coin_id :: rest ->
  change_nickname (guild_permissions m) || manage_nicknames (guild_permissions m) = true ->
  exists t,
    snd (run E me (update_as cfg g m) h)
    = h ++ Entry me (HttpGet (markets_url coin_id) 10 user_agent)
                 (E _ h me (HttpGet (markets_url coin_id) 10 user_agent)) :: t.
Proof.
  intros Hs Hids Hp. unfold update_as, get_price_data. cbv zeta.
  rewrite Hp, Hs, Hids. simpl.
  match goal with
  | |- context [run E me ?p (h ++ [?e])] =>
      destruct (run_extends E me p (h ++ [e])) as [t Ht]
  end.
  exists t. rewrite Ht, <- app_assoc. reflexivity.
Qed.

(** C1, refuted as stated: in [throttled_pass] the price API is asked
    nine times within one pass, once by the first reconciliation and eight
    times by the second, never by the loop; the first gets a sample and edits
    its nickname, the second fails. *)
Lemma each_reconciliation_fetches :
  map who (filter is_http_get (hist throttled_pass)) = [1; 2; 2; 2; 2; 2; 2; 2; 2]%nat /\
  map who (filter is_edit_nick (hist throttled_pass)) = [1]%nat.
Proof. vm_compute. split; reflexivity. Qed.

(** C1, amended: the updater loop never asks for a price itself: in
    every run of the scheduler, no request to the price API is made by
    coroutine 0.  Each reconciliation whose membership grants one of the two
    permissions calls the price fetcher on its own, right after the
    permission check, so a pass makes one acquisition per permitted target
    and the reconciliations of one pass need not see the same outcome. *)
Theorem price_fetched_per_reconciliation (cfg : config) (E : env) :
  (forall passes schedule,
      Forall (fun e => is_http_get e = true -> who e <> 0%nat)
             (hist (exec (update_guild cfg) E schedule (init (updater_loop cfg passes))))) /\
  (forall me g h h' m coin_id rest,
      http_session cfg = true ->
      COIN_IDS cfg = coin_id :: rest ->
      run E me (resolve_me g) h = (inr m, h') ->
      change_nickname (guild_permissions m) || manage_nicknames (guild_permissions m) = true ->
      exists t,
        snd (run E me (update_guild cfg g) h)
        = h' ++ Entry me (HttpGet (markets_url coin_id) 10 user_agent)
                      (E _ h' me (HttpGet (markets_url coin_id) 10 user_agent)) :: t).
Proof.
  split.
  - intros passes schedule.
    eapply Forall_impl;
      [|apply (main_entries_always not_a_request (update_guild cfg) E loop_end
                 (updater_loop cfg passes) schedule
                 (updater_loop_requests_nothing cfg passes))].
    intros [w X a x] Hw Hget. simpl in *. intros ->.
    specialize (Hw eq_refl). destruct a; simpl in *; try discriminate. exact Hw.
  - intros me g h h' m coin_id rest Hs Hids Hres Hp.
    destruct (update_as_requests cfg E me g m h' coin_id rest Hs Hids Hp) as [t Ht].
    exists t. unfold update_guild. rewrite run_bind, run_try, run_bind, Hres.
    simpl. exact Ht.
Qed.

Lemma price_fetched_per_reconciliation_witness :
  exists t,
    snd (run (answer (calm_world (always (HttpResponse 200 (inr (JArr [good_row]))))))
             1 (update_guild default_config guild_a) [])
    = [] ++ Entry 1 (HttpGet (markets_url (lit "ripple")) 10 user_agent)
                  (HttpResponse 200 (inr (JArr [good_row]))) :: t.
Proof.
  apply (proj2 (price_fetched_per_reconciliation default_config
                  (answer (calm_world (always (HttpResponse 200 (inr (JArr [good_row])))))))
           1%nat guild_a [] [] may_nick (lit "ripple") [lit "xrp"]);
    reflexivity.
Defined.

(** *** No error leaves the updater coroutine *)

Section MainSafe.

Variable child : guild -> proc unit.
Variable E : env.
Variable R : Type.

Hypothesis tame : answers_within errors_are_exceptions E.
Hypothesis child_lets_out :
  forall g, lets_out errors_are_exceptions is_exception (child g).

Definition main_safe (m : status R) : Prop :=
  match m with
  | Running p => lets_out errors_are_exceptions (fun _ => False) p
  | Waiting targets _ k =>
      forall r, errors_are_exceptions _ (Gather targets) r ->
                lets_out errors_are_exceptions (fun _ => False) (k r)
  end.

Definition safe (st : state R) : Prop :=
  main_safe (main st) /\
  forall ip, In ip (pool st) -> lets_out errors_are_exceptions is_exception (snd ip).

Lemma safe_step st st' : safe st -> step_case child E st st' -> safe st'.
Proof.
  intros [Hmain Hpool] Hstep.
  destruct Hstep as [Heq | X a k Hm Hg Heq | ts k Hm Heq | i X a k Hl Heq | i p r Hl Hend Heq];
    subst st'.
  - split; assumption.
  - rewrite Hm in Hmain. simpl in Hmain. split; simpl; [|exact Hpool].
    apply Hmain, tame.
  - rewrite Hm in Hmain. simpl in Hmain.
    unfold spawn. destruct ts as [|g gs].
    + split; simpl; [|exact Hpool]. apply Hmain. exact I.
    + split; [exact Hmain|]. cbn [pool].
      intros [j q] Hin. apply in_app_or in Hin. destruct Hin as [Hin|Hin]; [auto|].
      apply in_combine_r in Hin.
      apply in_map_iff in Hin. destruct Hin as (g' & <- & _). apply child_lets_out.
  - split; simpl; [exact Hmain|].
    intros ip Hin. apply in_update in Hin. destruct Hin as [->|Hin]; [|auto].
    apply lookup_in in Hl. specialize (Hpool _ Hl). simpl in Hpool. simpl.
    apply Hpool, tame.
  - assert (Hleft : forall ip, In ip (remove i (pool st)) ->
                               lets_out errors_are_exceptions is_exception (snd ip)).
    { intros ip Hin. apply in_remove in Hin. apply Hpool, Hin. }
    assert (Hraised : forall e, r = inl e -> is_exception e).
    { intros e ->. apply lookup_in in Hl. specialize (Hpool _ Hl).
      destruct p; simpl in Hend; inversion Hend; subst. exact Hpool. }
    unfold finish, wake.
    destruct (main st) as [q|ts ids k]; [split; simpl; assumption|].
    simpl in Hmain.
    destruct r as [e|u]; destruct (existsb _ ids); split; simpl; auto.
Qed.

Lemma never_raised (p : proc R) schedule e :
  lets_out errors_are_exceptions (fun _ => False) p ->
  main (exec child E schedule (init p)) <> Running (Raise e).
Proof.
  intros Hp Heq.
  assert (H : safe (exec child E schedule (init p))).
  { apply exec_invariant; [apply safe_step|]. split; [exact Hp|intros ip []]. }
  destruct H as [H _]. rewrite Heq in H. exact H.
Qed.

End MainSafe.

Lemma loop_passes_contained cfg passes :
  lets_out errors_are_exceptions (fun _ => False) (loop_passes cfg passes).
Proof.
  induction passes as [|n IH]; simpl; auto.
  intros [|] _; simpl; auto.
  apply lo_bind; [apply tick_contained|]. intros _. simpl. auto.
Qed.

Lemma pass_body_lets_out cfg :
  lets_out errors_are_exceptions is_exception (targets <- resolve_targets cfg ;; fan_out targets).
Proof.
  apply lo_bind; [apply resolve_targets_lets_out|].
  intros [|g targets]; simpl; auto.
  intros [e|] Hr; simpl; auto.
Qed.

(** One pass that finds the client open: the body of the [try] runs; an
    exception it raises is logged at ERROR; the sleep follows either way, and
    then the next pass. *)
Lemma pass_catches (cfg : config) (E : env) (h : trace) (n : nat) :
  answers_within errors_are_exceptions E ->
  E _ h 0%nat IsClosed = false ->
  exists r h1,
    run E 0 (targets <- resolve_targets cfg ;; fan_out targets)
        (h ++ [Entry 0%nat IsClosed false]) = (r, h1) /\
    run E 0 (loop_passes cfg (S n)) h
    = run E 0 (loop_passes cfg n)
          (h1 ++ match r with
                 | inl e => [Entry 0%nat (Log ERROR (lit "Updater loop error: "
                                                     ++ exn_str e)) tt]
                 | inr _ => []
                 end
              ++ [Entry 0%nat (Sleep (INTERVAL_SECONDS cfg * 1000)) tt]).
Proof.
  intros HE Hopen.
  pose proof (run_lets_out _ _ E 0%nat _ (h ++ [Entry 0%nat IsClosed false]) HE
                (pass_body_lets_out cfg)) as Hexc.
  destruct (run E 0 (targets <- resolve_targets cfg ;; fan_out targets)
                (h ++ [Entry 0%nat IsClosed false])) as [r h1] eqn:Hbody.
  exists r, h1. split; [reflexivity|].
  cbn [loop_passes]. rewrite run_bind, run_perform, Hopen.
  rewrite run_bind. unfold tick. rewrite run_try, Hbody.
  destruct r as [e|[]]; simpl in Hexc.
  - unfold except. unfold is_exception in Hexc. rewrite Hexc.
    rewrite run_perform. unit_answers E.
    rewrite run_bind, run_perform. unit_answers E.
    rewrite <- !app_assoc. reflexivity.
  - rewrite run_bind, run_perform. unit_answers E. reflexivity.
Qed.

(** C9: with the exceptions the bot is handed being instances of
    [Exception] (cancellation is not), no error ever leaves the updater
    loop.  However the scheduler interleaves it with the reconciliations,
    the loop coroutine is never left with an exception raised.  Run on its
    own, given [passes] passes the loop performs all of them, one sleep
    each, unless the client is reported closed before.  Each pass that finds
    the client open runs the body of the [try] (target resolution and
    fan-out); an exception that leaves the body is caught there and logged
    as "Updater loop error: ..." at ERROR; the sleep of [INTERVAL_SECONDS]
    follows in both cases, and then the next pass.  A pass that finds the
    client closed ends the loop.  In the scheduler, a reconciliation that
    has raised ends the gather, the loop logs that error, sleeps and is at
    its next pass. *)
Theorem updater_loop_survives (cfg : config) (E : env) (passes : nat) :
  answers_within errors_are_exceptions E ->
  (forall schedule e,
      main (exec (update_guild cfg) E schedule (init (updater_loop cfg passes)))
      <> Running (Raise e)) /\
  (forall h,
      exists r t,
        run E 0 (updater_loop cfg passes) h = (inr r, h ++ t) /\
        match r with
        | PassesUsedUp => count is_sleep t = passes /\ existsb closed_seen t = false
        | ClientClosed => (count is_sleep t < passes)%nat /\ existsb closed_seen t = true
        end) /\
  (forall h n,
      E _ h 0%nat IsClosed = false ->
      exists r h1,
        run E 0 (targets <- resolve_targets cfg ;; fan_out targets)
            (h ++ [Entry 0%nat IsClosed false]) = (r, h1) /\
        run E 0 (loop_passes cfg (S n)) h
        = run E 0 (loop_passes cfg n)
              (h1 ++ match r with
                     | inl e => [Entry 0%nat (Log ERROR (lit "Updater loop error: "
                                                         ++ exn_str e)) tt]
                     | inr _ => []
                     end
                  ++ [Entry 0%nat (Sleep (INTERVAL_SECONDS cfg * 1000)) tt])) /\
  (forall h n,
      E _ h 0%nat IsClosed = true ->
      run E 0 (loop_passes cfg (S n)) h = (inr ClientClosed, h ++ [Entry 0%nat IsClosed true])) /\
  (forall (st : state loop_end) awaited ids n i e,
      main st = Waiting awaited ids (after_gather cfg n) ->
      In i ids ->
      lookup i (pool st) = Some (Raise e) ->
      isinstance e [Exception] = true ->
      exec (update_guild cfg) E [S i; 0; 0]%nat st
      = {| main := Running (loop_passes cfg n);
           pool := remove i (pool st);
           next_id := next_id st;
           finished := finished st ++ [(i, inl e)];
           hist := hist st
                   ++ [Entry 0%nat (Gather awaited) (Some e);
                       Entry 0%nat (Log ERROR (lit "Updater loop error: " ++ exn_str e)) tt;
                       Entry 0%nat (Sleep (INTERVAL_SECONDS cfg * 1000)) tt] |}).
Proof.
  intros HE. split; [|split; [|split; [|split]]].
  - intros schedule e. apply never_raised.
    + exact HE.
    + apply update_guild_lets_out_exceptions.
    + unfold updater_loop. simpl. intros _ _ _ _. apply loop_passes_contained.
  - intros h. apply updater_loop_runs. exact HE.
  - intros h n. apply pass_catches. exact HE.
  - intros h n Hclosed. cbn [loop_passes]. rewrite run_bind, run_perform, Hclosed. reflexivity.
  - intros st awaited ids n i e. apply loop_after_raise.
Qed.

(** Three passes in a world where the membership request times out and
    every gather ends with that error: each pass logs it and is followed by
    its sleep. *)
Lemma updater_loop_survives_witness :
  (forall schedule e,
      main (exec (update_guild default_config)
                 (gather_fails (Exn TimeoutError (lit "")) (answer lookup_times_out)) schedule
                 (init (updater_loop default_config 3)))
      <> Running (Raise e)) /\
  (forall h,
      exists r t,
        run (gather_fails (Exn TimeoutError (lit "")) (answer lookup_times_out)) 0
            (updater_loop default_config 3) h = (inr r, h ++ t) /\
        match r with
        | PassesUsedUp => count is_sleep t = 3%nat /\ existsb closed_seen t = false
        | ClientClosed => (count is_sleep t < 3)%nat /\ existsb closed_seen t = true
        end) /\
  (forall h n,
      gather_fails (Exn TimeoutError (lit "")) (answer lookup_times_out) _ h 0%nat IsClosed
      = false ->
      exists r h1,
        run (gather_fails (Exn TimeoutError (lit "")) (answer lookup_times_out)) 0
            (targets <- resolve_targets default_config ;; fan_out targets)
            (h ++ [Entry 0%nat IsClosed false]) = (r, h1) /\
        run (gather_fails (Exn TimeoutError (lit "")) (answer lookup_times_out)) 0
            (loop_passes default_config (S n)) h
        = run (gather_fails (Exn TimeoutError (lit "")) (answer lookup_times_out)) 0
              (loop_passes default_config n)
              (h1 ++ match r with
                     | inl e => [Entry 0%nat (Log ERROR (lit "Updater loop error: "
                                                         ++ exn_str e)) tt]
                     | inr _ => []
                     end
                  ++ [Entry 0%nat (Sleep (INTERVAL_SECONDS default_config * 1000)) tt])) /\
  (forall h n,
      gather_fails (Exn TimeoutError (lit "")) (answer lookup_times_out) _ h 0%nat IsClosed
      = true ->
      run (gather_fails (Exn TimeoutError (lit "")) (answer lookup_times_out)) 0
          (loop_passes default_config (S n)) h
      = (inr ClientClosed, h ++ [Entry 0%nat IsClosed true])) /\
  (forall (st : state loop_end) awaited ids n i e,
      main st = Waiting awaited ids (after_gather default_config n) ->
      In i ids ->
      lookup i (pool st) = Some (Raise e) ->
      isinstance e [Exception] = true ->
      exec (update_guild default_config)
           (gather_fails (Exn TimeoutError (lit "")) (answer lookup_times_out))
           [S i; 0; 0]%nat st
      = {| main := Running (loop_passes default_config n);
           pool := remove i (pool st);
           next_id := next_id st;
           finished := finished st ++ [(i, inl e)];
           hist := hist st
                   ++ [Entry 0%nat (Gather awaited) (Some e);
                       Entry 0%nat (Log ERROR (lit "Updater loop error: " ++ exn_str e)) tt;
                       Entry 0%nat (Sleep (INTERVAL_SECONDS default_config * 1000)) tt] |}).
Proof.
  apply (updater_loop_survives default_config
           (gather_fails (Exn TimeoutError (lit "")) (answer lookup_times_out)) 3).
  intros X h me a. destruct a; simpl; auto; reflexivity.
Defined.

(** The two runs of that witness, written out.  Run on its own with every
    gather failing, the loop logs the error in each of its three passes and
    sleeps after each.  In the scheduler, where the first reconciliation's
    membership request times out, the loop logs the error of the gather and
    sleeps, and the second pass starts. *)
Lemma failed_passes_are_logged :
  summary (snd (run (gather_fails (Exn TimeoutError (lit "")) (answer lookup_times_out)) 0
                    (updater_loop default_config 3) []))
  = [(0, "wait_until_ready"); (0, "log");
     (0, "is_closed"); (0, "guilds"); (0, "gather"); (0, "log"); (0, "sleep");
     (0, "is_closed"); (0, "guilds"); (0, "gather"); (0, "log"); (0, "sleep");
     (0, "is_closed"); (0, "guilds"); (0, "gather"); (0, "log"); (0, "sleep")]%nat%string /\
  filter (fun e => match log_level e with Some ERROR => true | _ => false end)
         (snd (run (gather_fails (Exn TimeoutError (lit "")) (answer lookup_times_out)) 0
                   (updater_loop default_config 1) []))
  = [Entry 0%nat (Log ERROR (lit "Updater loop error: "
                             ++ exn_str (Exn TimeoutError (lit "")))) tt] /\
  summary (hist (exec (update_guild default_config)
                      (gather_fails (Exn TimeoutError (lit "")) (answer lookup_times_out))
                      [0; 0; 0; 0; 0; 1; 1; 0; 0; 0; 0]%nat
                      (init (updater_loop default_config 2))))
  = [(0, "wait_until_ready"); (0, "log"); (0, "is_closed"); (0, "guilds");
     (1, "fetch_member"); (0, "gather"); (0, "log"); (0, "sleep");
     (0, "is_closed"); (0, "guilds")]%nat%string.
Proof. vm_compute. repeat split; reflexivity. Qed.

(** *** The nickname a reconciliation asks for *)

Lemma all_try_cases P {A : Type} (p : proc A) handler :
  all_actions P p ->
  (forall e, match handler e with
             | Some q => all_actions P q
             | None => True
             end) ->
  all_actions P (try_except p handler).
Proof.
  intros Hp Hh. apply all_try; [exact Hp|].
  intros e q He. specialize (Hh e). now rewrite He in Hh.
Qed.

Lemma update_guild_nick_fits cfg g : all_actions nick_fits (update_guild cfg g).
Proof.
  assert (Hfetch : all_actions nick_fits (get_price_data cfg)).
  { eapply all_impl; [|apply get_price_data_actions].
    intros X a. destruct a; simpl; tauto. }
  assert (Hpresence : forall name (body : exn -> proc unit),
             (forall e, all_actions nick_fits (body e)) ->
             all_actions nick_fits
               (try_except (r <- perform (ChangePresence name) ;; raising r)
                           (except [Exception] body))).
  { intros name body Hb. apply all_try_cases.
    - simpl. split; [exact I|]. intros [e|]; exact I.
    - intros e. unfold except. destruct (isinstance e [Exception]); auto. }
  unfold update_guild. apply all_bind.
  - apply all_try_cases.
    + apply all_bind; [|intros; exact I].
      unfold resolve_me. destruct (guild_me g); simpl; auto.
      split; [exact I|]. intros [e|me]; exact I.
    + intros e. unfold except. destruct (isinstance e [HTTPException]); simpl; auto.
  - intros [me|]; [|exact I].
    unfold update_as. cbv zeta. destruct (negb _); [simpl; auto|].
    apply all_bind.
    + apply all_try_cases.
      * apply all_bind; [destruct (http_session cfg); exact I|intros _].
        apply all_bind; [exact Hfetch|intros; exact I].
      * intros e. unfold except. destruct (isinstance e [Exception]); [|exact I].
        apply all_bind; [simpl; auto|intros _].
        apply all_bind; [|intros; exact I].
        apply Hpresence. intros; exact I.
    + intros [[price change_24h]|]; [|exact I].
      apply all_bind.
      * apply all_try_cases.
        -- simpl. split; [apply nickname_of_length|]. intros [e|]; exact I.
        -- intros e. destruct (isinstance e [Forbidden]); [simpl; auto|].
           destruct (isinstance e [HTTPException]); simpl; auto.
      * intros _. apply all_bind; [|intros _; simpl; auto].
        apply Hpresence. intros e. simpl. auto.
Qed.

(** C5: a formatted nickname longer than 32 characters is cut to its
    first 32 characters and a shorter one is kept; the step is a total
    function, it raises nothing.  So the nickname has at most 32 characters,
    and every nickname edit a reconciliation asks for, in any environment,
    carries at most 32. *)
Theorem nickname_truncated :
  (forall price change_24h,
      (length (nickname_of price change_24h) <= 32)%nat /\
      ((32 < length (format_nickname price change_24h))%nat ->
       nickname_of price change_24h = firstn 32 (format_nickname price change_24h) /\
       length (nickname_of price change_24h) = 32%nat) /\
      ((length (format_nickname price change_24h) <= 32)%nat ->
       nickname_of price change_24h = format_nickname price change_24h)) /\
  (forall cfg (E : env) me g h,
      exists t,
        snd (run E me (update_guild cfg g) h) = h ++ t /\
        Forall (fun e => nick_fits _ (act e)) t).
Proof.
  split.
  - intros price change_24h. split; [apply nickname_of_length|].
    unfold nickname_of. cbv zeta.
    destruct (32 <? _)%nat eqn:H.
    + apply Nat.ltb_lt in H. split; [|lia].
      intros _. split; [reflexivity|]. rewrite length_firstn. lia.
    + apply Nat.ltb_ge in H. split; [lia|reflexivity].
  - intros cfg E me g h.
    destruct (run_all nick_fits E me (update_guild cfg g) h (update_guild_nick_fits cfg g))
      as (t & Ht & Hall).
    exists t. split; [exact Ht|].
    eapply Forall_impl; [|exact Hall]. intros e [He _]. exact He.
Qed.

(** The truncation at work: 1e26 formats to 34 characters and is applied
    as the first 32 of them. *)
Lemma nickname_truncated_witness :
  length (format_nickname (float_lit false 100000000000000000000000000 1) float_zero) = 34%nat /\
  length (nickname_of (float_lit false 100000000000000000000000000 1) float_zero) = 32%nat.
Proof.
  split.
  - vm_compute. reflexivity.
  - apply (proj1 (proj2 (proj1 nickname_truncated
                           (float_lit false 100000000000000000000000000 1) float_zero))).
    apply Nat.ltb_lt. vm_compute. reflexivity.
Defined.

(** * Further properties of the fetcher *)

Lemma py_float_number (E : env) me v f h :
  number_of v = Some f -> run E me (py_float v) h = (inr f, h).
Proof.
  destruct v; simpl; try discriminate.
  - intros [= <-]. reflexivity.
  - intros ->. reflexivity.
  - intros [= <-]. reflexivity.
Qed.

Lemma parse_payload_numbers (E : env) me h members others vp vc price change :
  dict_get members (lit "current_price") = Some vp ->
  dict_get members (lit "price_change_percentage_24h") = Some vc ->
  number_of vp = Some price ->
  number_of vc = Some change ->
  run E me (parse_payload (JArr (JObj members :: others))) h = (inr (price, change), h).
Proof.
  intros Hp Hc Hnp Hnc. unfold parse_payload, subscript.
  rewrite Hp. cbn [bind]. rewrite run_bind, (py_float_number E me vp price h Hnp).
  rewrite Hc. cbn [bind]. rewrite run_bind, (py_float_number E me vc change h Hnc).
  reflexivity.
Qed.

(** When the first id answers its first request with a well-formed row,
    [get_price_data] returns that row's price and change having made this
    one request and nothing else: no wait, no log line, no other id asked. *)
Theorem primary_answer_returned_at_once (cfg : config) (E : env) (me : nat) (h : trace)
  (coin_id : pystr) (rest : list pystr) (members : list (pystr * json))
  (others : list json) (vp vc : json) (price change : float) :
  COIN_IDS cfg = coin_id :: rest ->
  E _ h me (HttpGet (markets_url coin_id) 10 user_agent)
  = HttpResponse 200 (inr (JArr (JObj members :: others))) ->
  dict_get members (lit "current_price") = Some vp ->
  dict_get members (lit "price_change_percentage_24h") = Some vc ->
  number_of vp = Some price ->
  number_of vc = Some change ->
  run E me (get_price_data cfg) h
  = (inr (price, change),
     h ++ [Entry me (HttpGet (markets_url coin_id) 10 user_agent)
                 (HttpResponse 200 (inr (JArr (JObj members :: others))))]).
Proof.
  intros Hids Hans Hp Hc Hnp Hnc.
  unfold get_price_data. rewrite Hids. cbn [hd ids_loop].
  rewrite run_bind. cbn [enumerate backoffs attempts_loop].
  rewrite run_bind. unfold one_attempt. cbn [Z.eqb bind].
  rewrite run_try, run_bind. unfold _fetch_one_id.
  rewrite run_bind, run_perform, Hans. cbn [Z.eqb negb].
  rewrite (parse_payload_numbers E me _ members others vp vc price change Hp Hc Hnp Hnc).
  rewrite pystr_eqb_refl. reflexivity.
Qed.

Lemma primary_answer_witness :
  run (answer (calm_world (always (HttpResponse 200 (inr (JArr [good_row]))))))
      1 (get_price_data default_config) []
  = (inr (float_lit false 5 10, float_lit false 250 100),
     [] ++ [Entry 1 (HttpGet (markets_url (lit "ripple")) 10 user_agent)
                  (HttpResponse 200 (inr (JArr [good_row])))]).
Proof.
  apply (primary_answer_returned_at_once default_config _ 1 [] (lit "ripple") [lit "xrp"]
           [(lit "current_price", JFloat (float_lit false 5 10));
            (lit "price_change_percentage_24h", JFloat (float_lit false 250 100))]
           [] (JFloat (float_lit false 5 10)) (JFloat (float_lit false 250 100)));
    reflexivity.
Defined.

Section PrimaryDown.

Variable E : env.
Variable me : nat.
Variable down : pystr.

(** Every request for the id [down] fails in a way the fetcher catches. *)
Hypothesis down_fails :
  forall h, fails_recoverably (E _ h me (HttpGet (markets_url down) 10 user_agent)) <> None.

Lemma fetch_down h :
  exists e,
    run E me (_fetch_one_id down) h
    = (inl e, h ++ [Entry me (HttpGet (markets_url down) 10 user_agent)
                          (E _ h me (HttpGet (markets_url down) 10 user_agent))]) /\
    isinstance e caught_by_fetcher = true.
Proof.
  pose proof (down_fails h) as Hf.
  unfold _fetch_one_id. simpl.
  destruct (E _ h me (HttpGet (markets_url down) 10 user_agent)) as [e|status body];
    simpl in *.
  - destruct (isinstance e caught_by_fetcher) eqn:Hc; [|congruence]. eauto.
  - destruct (negb (status =? 200)); simpl in *.
    + eexists; split; reflexivity.
    + destruct body as [e|data]; simpl in *.
      * destruct (isinstance e caught_by_fetcher) eqn:Hc; [|congruence]. eauto.
      * destruct data as [| | | | |items|]; simpl in *;
          try (eexists; split; reflexivity).
        destruct items as [|row items]; simpl in *;
          [eexists; split; reflexivity|congruence].
Qed.

Lemma one_attempt_down first_id attempt delay h :
  exists e t,
    run E me (one_attempt first_id down attempt delay) h = (inr (Failed e), h ++ t) /\
    io_of t = attempt_io down (attempt, delay).
Proof.
  unfold one_attempt. rewrite run_bind.
  set (pre := if delay =? 0 then [] else [Entry me (Sleep delay) (E _ h me (Sleep delay))]).
  assert (Hpre : run E me (if delay =? 0 then Ret tt else perform (Sleep delay)) h
                 = (inr tt, h ++ pre)).
  { subst pre. destruct (delay =? 0); simpl.
    - now rewrite app_nil_r.
    - destruct (E unit h me (Sleep delay)). reflexivity. }
  rewrite Hpre, run_try, run_bind.
  destruct (fetch_down (h ++ pre)) as (e & Hrun & Hcaught).
  rewrite Hrun. unfold except. rewrite Hcaught. simpl.
  eexists e, _. split; [rewrite <- !app_assoc; reflexivity|].
  rewrite io_of_app. unfold attempt_io. subst pre. simpl.
  destruct (delay =? 0); reflexivity.
Qed.

Lemma attempts_loop_down first_id todo last_err h :
  todo <> [] ->
  exists e t,
    run E me (attempts_loop first_id down todo last_err) h = (inr (inr (Some e)), h ++ t) /\
    io_of t = flat_map (attempt_io down) todo.
Proof.
  revert last_err h. induction todo as [|[attempt delay] rest IH]; intros last_err h Hne;
    [congruence|].
  cbn [attempts_loop]. rewrite run_bind.
  destruct (one_attempt_down first_id attempt delay h) as (e & t1 & Hrun & Hio).
  rewrite Hrun. destruct rest as [|nd rest'].
  - exists e, t1. simpl. split; [reflexivity|]. rewrite Hio, app_nil_r. reflexivity.
  - destruct (IH (Some e) (h ++ t1) ltac:(discriminate)) as (e' & t2 & Hrun2 & Hio2).
    rewrite Hrun2. exists e', (t1 ++ t2).
    split; [rewrite app_assoc; reflexivity|].
    rewrite io_of_app, Hio, Hio2. reflexivity.
Qed.

End PrimaryDown.

(** The first id is down on all four attempts and the second answers its
    first request with a well-formed row: [get_price_data] returns the second
    id's price and change, having waited 1.5 s, 3 s and 5 s between the four
    requests for the first id and not at all before the one for the second,
    and its last act is to log the fallback at INFO. *)
Theorem fallback_answer_returned (cfg : config) (E : env) (me : nat) (h : trace)
  (first second : pystr) (rest : list pystr) (members : list (pystr * json))
  (others : list json) (vp vc : json) (price change : float) :
  COIN_IDS cfg = first :: second :: rest ->
  second <> first ->
  (forall h', fails_recoverably (E _ h' me (HttpGet (markets_url first) 10 user_agent))
              <> None) ->
  (forall h', E _ h' me (HttpGet (markets_url second) 10 user_agent)
              = HttpResponse 200 (inr (JArr (JObj members :: others)))) ->
  dict_get members (lit "current_price") = Some vp ->
  dict_get members (lit "price_change_percentage_24h") = Some vc ->
  number_of vp = Some price ->
  number_of vc = Some change ->
  exists t,
    run E me (get_price_data cfg) h
    = (inr (price, change),
       h ++ t
         ++ [Entry me (HttpGet (markets_url second) 10 user_agent)
                   (HttpResponse 200 (inr (JArr (JObj members :: others))));
             Entry me (Log INFO (lit "Using fallback CoinGecko id " ++ quoted second
                                 ++ lit "."))
                   tt]) /\
    io_of t = id_io first.
Proof.
  intros Hids Hne Hdown Hup Hp Hc Hnp Hnc.
  unfold get_price_data. rewrite Hids. cbn [hd ids_loop].
  rewrite run_bind.
  destruct (attempts_loop_down E me first Hdown first (enumerate 1 backoffs) None h
              ltac:(discriminate)) as (e & t & Hrun & Hio).
  rewrite Hrun. exists t. split; [|exact Hio].
  rewrite run_bind. cbn [enumerate backoffs attempts_loop].
  rewrite run_bind. unfold one_attempt. cbn [Z.eqb bind].
  rewrite run_try, run_bind. unfold _fetch_one_id.
  rewrite run_bind, run_perform, Hup. cbn [Z.eqb negb].
  rewrite (parse_payload_numbers E me _ members others vp vc price change Hp Hc Hnp Hnc).
  assert (Hneq : pystr_eqb second first = false).
  { destruct (pystr_eqb second first) eqn:Heq; [|reflexivity].
    apply pystr_eqb_eq in Heq. contradiction. }
  rewrite Hneq, run_bind, run_perform.
  match goal with |- context [E unit ?a ?b ?c] => destruct (E unit a b c) end.
  cbn [run]. rewrite <- !app_assoc. reflexivity.
Qed.

Lemma fallback_answer_witness :
  exists t,
    run (answer ripple_down) 1 (get_price_data default_config) []
    = (inr (float_lit false 5 10, float_lit false 250 100),
       [] ++ t
         ++ [Entry 1 (HttpGet (markets_url (lit "xrp")) 10 user_agent)
                   (HttpResponse 200 (inr (JArr (JObj
                      [(lit "current_price", JFloat (float_lit false 5 10));
                       (lit "price_change_percentage_24h",
                        JFloat (float_lit false 250 100))] :: []))));
             Entry 1 (Log INFO (lit "Using fallback CoinGecko id " ++ quoted (lit "xrp")
                                ++ lit "."))
                   tt]) /\
    io_of t = id_io (lit "ripple").
Proof.
  apply (fallback_answer_returned default_config (answer ripple_down) 1 []
           (lit "ripple") (lit "xrp") []
           [(lit "current_price", JFloat (float_lit false 5 10));
            (lit "price_change_percentage_24h", JFloat (float_lit false 250 100))]
           [] (JFloat (float_lit false 5 10)) (JFloat (float_lit false 250 100))).
  - reflexivity.
  - intros H. vm_compute in H. discriminate.
  - intros h'. vm_compute. discriminate.
  - intros h'. vm_compute. reflexivity.
  - reflexivity.
  - reflexivity.
  - reflexivity.
  - reflexivity.
Defined.

(** ** What the fetcher spends in any environment *)

Lemma run_spends cost {R : Type} (E : env) (me : nat) (p : proc R) (n : nat) post (h : trace) :
  spends cost p n post ->
  exists t, snd (run E me p h) = h ++ t /\ (spent cost t <= n)%nat.
Proof.
  revert n h. induction p as [r|e|X a k IH]; intros n h Hp; simpl.
  - exists []. rewrite app_nil_r. split; [reflexivity|unfold spent; simpl; lia].
  - exists []. rewrite app_nil_r. split; [reflexivity|unfold spent; simpl; lia].
  - destruct Hp as [Hc Hk].
    destruct (IH (E _ h me a) (n - cost _ a)%nat (h ++ [Entry me a (E _ h me a)]) (Hk _))
      as (t & Ht & Hs).
    exists (Entry me a (E _ h me a) :: t). rewrite Ht, <- app_assoc.
    split; [reflexivity|]. unfold spent in *. simpl. lia.
Qed.

Section FetcherCost.

Variable cost : forall X, action X -> nat.
Hypothesis log_is_free : forall l msg, cost _ (Log l msg) = 0%nat.
Hypothesis float_is_free : forall s, cost _ (FloatOfStr s) = 0%nat.

Definition request_price (coin_id : pystr) : nat :=
  cost _ (HttpGet (markets_url coin_id) 10 user_agent).

(** What one attempt on [coin_id] costs: its wait, if any, and its request. *)
Definition attempt_price (coin_id : pystr) (nd : nat * Z) : nat :=
  ((if (snd nd =? 0)%Z then 0 else cost _ (Sleep (snd nd))) + request_price coin_id)%nat.

Definition id_price (coin_id : pystr) : nat :=
  list_sum (map (attempt_price coin_id) (enumerate 1 backoffs)).

Lemma parse_payload_free data n :
  spends cost (parse_payload data) n (fun _ m => m = n).
Proof.
  apply spends_nothing.
  assert (Hsub : forall row key, all_actions (fun X a => cost X a = 0%nat) (subscript row key)).
  { intros row key. apply subscript_actions. }
  assert (Hfl : forall v, all_actions (fun X a => cost X a = 0%nat) (py_float v)).
  { intros v. destruct v; simpl; auto.
    - destruct (float_of_int z); simpl; auto.
    - split; [apply float_is_free|]. intros [f|]; simpl; auto. }
  destruct data as [| | | | |items|]; simpl; auto.
  destruct items as [|row items]; simpl; auto.
  apply all_bind; [apply Hsub|intros v].
  apply all_bind; [apply Hfl|intros price].
  apply all_bind; [apply Hsub|intros w].
  apply all_bind; [apply Hfl|intros change].
  exact I.
Qed.

Lemma fetch_price coin_id n :
  spends cost (_fetch_one_id coin_id) (request_price coin_id + n) (fun _ m => m = n).
Proof.
  unfold _fetch_one_id, request_price. simpl. split; [lia|].
  intros [e|status body]; simpl; [lia|].
  destruct (negb (status =? 200)); simpl; [lia|].
  destruct body as [e|data]; simpl; [lia|].
  eapply spends_impl; [|apply parse_payload_free]. intros r m ->. lia.
Qed.

Lemma one_attempt_price first_id coin_id attempt delay n :
  spends cost (one_attempt first_id coin_id attempt delay)
         (attempt_price coin_id (attempt, delay) + n) (fun _ m => m = n).
Proof.
  unfold one_attempt, attempt_price. simpl snd.
  apply spends_bind.
  assert (Hrest : spends cost
            (try_except
               (sample <- _fetch_one_id coin_id ;;
                (if pystr_eqb coin_id first_id then Ret tt
                 else perform (Log INFO (lit "Using fallback CoinGecko id "
                                         ++ quoted coin_id ++ lit "."))) ;;
                Ret (Returned sample))
               (except caught_by_fetcher (fun e =>
                  perform (Log WARNING
                             (lit "CoinGecko error for id " ++ quoted coin_id
                              ++ lit " (attempt " ++ dec_of_N (N.of_nat attempt)
                              ++ lit "): " ++ exn_str e)) ;;
                  Ret (Failed e))))
            (request_price coin_id + n) (fun _ m => m = n)).
  { apply spends_try, spends_bind.
    eapply spends_impl; [|apply fetch_price].
    intros [e|sample] m ->.
    - unfold except. destruct (isinstance e caught_by_fetcher); [|reflexivity].
      simpl. rewrite log_is_free. split; [lia|]. intros _. lia.
    - destruct (pystr_eqb coin_id first_id); simpl; [reflexivity|].
      rewrite log_is_free. split; [lia|]. intros _. lia. }
  destruct (delay =? 0); simpl.
  - exact Hrest.
  - split; [lia|]. intros _.
    replace (cost unit (Sleep delay) + request_price coin_id + n - cost unit (Sleep delay))%nat
      with (request_price coin_id + n)%nat by lia.
    exact Hrest.
Qed.

Lemma attempts_loop_price first_id coin_id todo last_err n :
  spends cost (attempts_loop first_id coin_id todo last_err)
         (list_sum (map (attempt_price coin_id) todo) + n)
         (fun r m => match r with
                     | inr (inr _) => m = n
                     | _ => (n <= m)%nat
                     end).
Proof.
  revert last_err. induction todo as [|[attempt delay] rest IH]; intros last_err.
  - simpl. reflexivity.
  - replace (list_sum (map (attempt_price coin_id) ((attempt, delay) :: rest)) + n)%nat
      with (attempt_price coin_id (attempt, delay)
            + (list_sum (map (attempt_price coin_id) rest) + n))%nat
      by (cbn [map]; change (list_sum (?a :: ?l)) with (a + list_sum l)%nat; lia).
    cbn [attempts_loop]. apply spends_bind.
    eapply spends_impl; [|apply one_attempt_price].
    intros [e|[sample|e]] m ->; simpl; [lia|lia|]. apply IH.
Qed.

Lemma ids_loop_price first_id ids last_err :
  spends cost (ids_loop first_id ids last_err) (list_sum (map id_price ids)) anyhow.
Proof.
  revert last_err. induction ids as [|coin_id rest IH]; intros last_err.
  - exact I.
  - cbn [map]. change (list_sum (?a :: ?l)) with (a + list_sum l)%nat.
    cbn [ids_loop]. apply spends_bind. unfold id_price at 1.
    eapply spends_impl; [|apply attempts_loop_price].
    intros [e|[sample|last_err']] m Hm; simpl; try exact I.
    subst m. apply IH.
Qed.

End FetcherCost.

Lemma spent_requests (t : trace) : spent request_cost t = count is_http_get t.
Proof.
  unfold spent, count. induction t as [|[w X a x] t IH]; simpl; [reflexivity|].
  rewrite IH. destruct a; reflexivity.
Qed.

Lemma list_sum_const {A : Type} (f : A -> nat) (c : nat) (l : list A) :
  (forall x, f x = c) -> list_sum (map f l) = (c * length l)%nat.
Proof.
  intros Hf. induction l as [|x l IH]; simpl; [lia|]. rewrite Hf, IH. lia.
Qed.

Lemma get_price_data_requests cfg :
  spends request_cost (get_price_data cfg) (4 * length (COIN_IDS cfg)) anyhow.
Proof.
  rewrite <- (list_sum_const (id_price request_cost) 4 (COIN_IDS cfg)) by reflexivity.
  apply ids_loop_price; reflexivity.
Qed.

Lemma get_price_data_sleeps cfg :
  spends sleep_cost (get_price_data cfg) (Z.to_nat 9500 * length (COIN_IDS cfg)) anyhow.
Proof.
  rewrite <- (list_sum_const (id_price sleep_cost) (Z.to_nat 9500) (COIN_IDS cfg))
    by (intros; vm_compute; reflexivity).
  apply ids_loop_price; reflexivity.
Qed.

(** Whatever the price API and the runtime answer, one call of
    [get_price_data] makes at most four requests per candidate id and sleeps
    at most 9.5 seconds per candidate id in all. *)
Theorem fetcher_effort_bounded (cfg : config) (E : env) (me : nat) (h : trace) :
  exists t,
    snd (run E me (get_price_data cfg) h) = h ++ t /\
    (count is_http_get t <= 4 * length (COIN_IDS cfg))%nat /\
    Z.of_nat (spent sleep_cost t) <= 9500 * Z.of_nat (length (COIN_IDS cfg)).
Proof.
  destruct (run_spends request_cost E me _ _ _ h (get_price_data_requests cfg))
    as (t & Ht & Hreq).
  destruct (run_spends sleep_cost E me _ _ _ h (get_price_data_sleeps cfg))
    as (t' & Ht' & Hsl).
  assert (t' = t) by (rewrite Ht in Ht'; now apply app_inv_head in Ht').
  subst t'. exists t. rewrite <- spent_requests.
  split; [exact Ht|]. split; [exact Hreq|]. lia.
Qed.

(** ** What leaves the fetcher *)

Lemma lets_out_anything ok {R : Type} (p : proc R) : lets_out ok (fun _ => True) p.
Proof. induction p as [r|e|X a k IH]; simpl; auto. Qed.

Lemma any_answer_always (E : env) : answers_within any_answer E.
Proof. intros X h me a. exact I. Qed.

Lemma one_attempt_uncaught first_id coin_id attempt delay :
  lets_out any_answer (fun e => isinstance e caught_by_fetcher = false)
           (one_attempt first_id coin_id attempt delay).
Proof.
  unfold one_attempt. apply lo_bind.
  - destruct (delay =? 0); simpl; auto.
  - intros _. apply lo_try with (C := fun _ => True).
    + apply lets_out_anything.
    + intros e _. unfold except.
      destruct (isinstance e caught_by_fetcher) eqn:Hc; [simpl; auto|reflexivity].
Qed.

Lemma get_price_data_leaves cfg : lets_out any_answer leaves_fetcher (get_price_data cfg).
Proof.
  unfold get_price_data. generalize (hd [] (COIN_IDS cfg)) as first_id.
  generalize (@None exn) as last_err.
  induction (COIN_IDS cfg) as [|coin_id rest IH]; intros last_err first_id.
  - simpl. right. exists last_err. reflexivity.
  - cbn [ids_loop]. apply lo_bind; [|intros [sample|e]; [exact I|apply IH]].
    generalize (enumerate 1 backoffs) as todo. intros todo. revert last_err.
    induction todo as [|[attempt delay] todo IHt]; intros last_err; [exact I|].
    cbn [attempts_loop]. apply lo_bind.
    + eapply lo_impl; [|apply one_attempt_uncaught]. intros e He. left. exact He.
    + intros [sample|e]; [exact I|apply IHt].
Qed.

(** An error that leaves [get_price_data] is never an [aiohttp.ClientError]
    or an [asyncio.TimeoutError], and when it is a [RuntimeError] it is the
    final "Failed to fetch XRP price after retries" one: every such failure
    of an attempt has been retried first. *)
Theorem fetcher_errors_filtered (cfg : config) (E : env) (me : nat) (h : trace) (e : exn) :
  fst (run E me (get_price_data cfg) h) = inl e ->
  isinstance e [ClientError; TimeoutError] = false /\
  (isinstance e [RuntimeError] = true -> exists last_err, e = exhausted last_err).
Proof.
  intros Hrun.
  pose proof (run_lets_out _ _ E me (get_price_data cfg) h (any_answer_always E)
                (get_price_data_leaves cfg)) as H.
  rewrite Hrun in H. destruct H as [Hc|[last_err ->]].
  - unfold isinstance, caught_by_fetcher in *. simpl in *.
    destruct (issubclass (exn_cls e) ClientError); [discriminate|].
    destruct (issubclass (exn_cls e) TimeoutError); [discriminate|].
    destruct (issubclass (exn_cls e) RuntimeError); [discriminate|].
    split; [reflexivity|discriminate].
  - split; [reflexivity|]. intros _. exists last_err. reflexivity.
Qed.

Lemma fetcher_errors_witness :
  isinstance (exhausted (Some (Exn RuntimeError (lit "HTTP " ++ dec_of_Z 500))))
             [ClientError; TimeoutError] = false /\
  (isinstance (exhausted (Some (Exn RuntimeError (lit "HTTP " ++ dec_of_Z 500))))
              [RuntimeError] = true ->
   exists last_err,
     exhausted (Some (Exn RuntimeError (lit "HTTP " ++ dec_of_Z 500))) = exhausted last_err).
Proof.
  apply (fetcher_errors_filtered default_config
           (answer (calm_world (always (HttpResponse 500 (inr JNull))))) 1 []).
  vm_compute. reflexivity.
Defined.

(** * Further properties of the per-guild update *)

(** The bot's membership is not cached and the request for it fails: an
    [HTTPException] ends the update with one WARNING line and nothing else;
    any other error leaves [update_guild] right after the request. *)
Theorem lookup_failure_ends_update (cfg : config) (E : env) (me : nat) (g : guild)
  (h : trace) (e : exn) :
  guild_me g = None ->
  E _ h me (FetchMember g) = inl e ->
  run E me (update_guild cfg g) h
  = if isinstance e [HTTPException]
    then (inr tt,
          h ++ [Entry me (FetchMember g) (inl e);
                Entry me (Log WARNING (tag g ++ lit "Could not fetch bot member: "
                                       ++ exn_str e)) tt])
    else (inl e, h ++ [Entry me (FetchMember g) (inl e)]).
Proof.
  intros Hme Hans. unfold update_guild, resolve_me. rewrite Hme.
  rewrite run_bind, run_try, run_bind, run_bind, run_perform, Hans. cbn [run].
  unfold except. destruct (isinstance e [HTTPException]); [|reflexivity].
  rewrite run_bind, run_perform. unit_answers E. cbn [run].
  rewrite <- app_assoc. reflexivity.
Qed.

Lemma lookup_failure_witness :
  run (answer refusing_world) 1 (update_guild default_config guild_c) []
  = if isinstance (Exn NotFound (lit "404 Not Found")) [HTTPException]
    then (inr tt,
          [] ++ [Entry 1 (FetchMember guild_c) (inl (Exn NotFound (lit "404 Not Found")));
                 Entry 1 (Log WARNING (tag guild_c ++ lit "Could not fetch bot member: "
                                       ++ exn_str (Exn NotFound (lit "404 Not Found")))) tt])
    else (inl (Exn NotFound (lit "404 Not Found")),
          [] ++ [Entry 1 (FetchMember guild_c) (inl (Exn NotFound (lit "404 Not Found")))]).
Proof.
  apply (lookup_failure_ends_update default_config (answer refusing_world) 1 guild_c []
           (Exn NotFound (lit "404 Not Found"))); reflexivity.
Defined.

Section Permitted.

Variable cfg : config.
Variable E : env.
Variable me : nat.
Variable g : guild.
Variable m : member.
Variable h0 h : trace.

(** The membership [m], from the cache or fetched, with the trace [h] the
    lookup leaves. *)
Hypothesis resolved : run E me (resolve_me g) h0 = (inr m, h).
Hypothesis permitted :
  change_nickname (guild_permissions m) || manage_nicknames (guild_permissions m) = true.
Hypothesis session : http_session cfg = true.

(** With a permitted membership, [update_guild] goes on from the outcome
    of the price fetch. *)
Lemma update_guild_from_fetch :
  run E me (update_guild cfg g) h0
  = match run E me
            (try_except
               (sample <- get_price_data cfg ;; Ret (Some sample))
               (except [Exception] (fun e =>
                  perform (Log WARNING (tag g ++ lit "Price fetch failed: " ++ exn_str e)) ;;
                  try_except
                    (r <- perform (ChangePresence (lit "API error")) ;; raising r)
                    (except [Exception] (fun _ => Ret tt)) ;;
                  Ret None))) h with
    | (inl e, h') => (inl e, h')
    | (inr None, h') => (inr tt, h')
    | (inr (Some (price, change_24h)), h') =>
        run E me
          (try_except
             (r <- perform (EditNick g (nickname_of price change_24h)
                                     (lit "Auto price update")) ;; raising r)
             (fun e =>
                if isinstance e [Forbidden] then
                  Some (perform (Log INFO (tag g ++ lit "Forbidden: role hierarchy/permissions block nickname change.")))
                else if isinstance e [HTTPException] then
                  Some (perform (Log WARNING (tag g ++ lit "HTTP error updating nick: " ++ exn_str e)))
                else None) ;;
           try_except
             (r <- perform (ChangePresence (status_text change_24h)) ;; raising r)
             (except [Exception] (fun e =>
                perform (Log DEBUG (tag g ++ lit "Could not set presence: " ++ exn_str e)))) ;;
           perform (Log INFO (tag g ++ lit "Nick " ++ [arrow] ++ lit " "
                              ++ nickname_of price change_24h
                              ++ lit " | 24h " ++ [arrow] ++ lit " "
                              ++ format_f true 2 change_24h ++ lit "%"))) h'
    end.
Proof.
  unfold update_guild. rewrite run_bind, run_try, run_bind, resolved. cbn [run].
  unfold update_as. cbv zeta. rewrite permitted, session. cbn [negb bind].
  rewrite run_bind.
  destruct (run E me (try_except _ _) h) as [[e|[[price change_24h]|]] h']; reflexivity.
Qed.

End Permitted.

(** For a membership that grants one of the two permissions, cached or
    fetched: the price fetch fails with an ordinary exception [e], the update logs
    one WARNING, asks once for the status "API error" and stops there; the
    nickname is not touched.  A presence change that fails with an ordinary
    exception is swallowed; any other error it raises leaves [update_guild]. *)
Theorem failed_fetch_shows_api_error (cfg : config) (E : env) (me : nat) (g : guild)
  (m : member) (h0 h h1 : trace) (e : exn) (r : option exn) :
  run E me (resolve_me g) h0 = (inr m, h) ->
  change_nickname (guild_permissions m) || manage_nicknames (guild_permissions m) = true ->
  http_session cfg = true ->
  run E me (get_price_data cfg) h = (inl e, h1) ->
  isinstance e [Exception] = true ->
  E _ (h1 ++ [Entry me (Log WARNING (tag g ++ lit "Price fetch failed: " ++ exn_str e)) tt])
    me (ChangePresence (lit "API error")) = r ->
  run E me (update_guild cfg g) h0
  = (match r with
     | Some e' => if isinstance e' [Exception] then inr tt else inl e'
     | None => inr tt
     end,
     h1 ++ [Entry me (Log WARNING (tag g ++ lit "Price fetch failed: " ++ exn_str e)) tt;
            Entry me (ChangePresence (lit "API error")) r]).
Proof.
  intros Hme Hp Hs Hrun He Hr.
  rewrite (update_guild_from_fetch cfg E me g m h0 h Hme Hp Hs).
  rewrite run_try, run_bind, Hrun. unfold except at 1. rewrite He.
  rewrite run_bind, run_perform. unit_answers E.
  rewrite run_bind, run_try, run_bind, run_perform, Hr.
  destruct r as [e'|]; cbn [raising run].
  - unfold except. destruct (isinstance e' [Exception]); cbn [run];
      rewrite <- app_assoc; reflexivity.
  - rewrite <- app_assoc. reflexivity.
Qed.

(** The membership is not cached and is fetched first. *)
Lemma failed_fetch_witness :
  run (answer (calm_world (always (HttpResponse 200 (inr (JArr [row_without_price]))))))
      1 (update_guild default_config guild_c) []
  = (inr tt,
     [Entry 1 (FetchMember guild_c) (inr may_nick);
      Entry 1 (HttpGet (markets_url (lit "ripple")) 10 user_agent)
              (HttpResponse 200 (inr (JArr [row_without_price])))]
       ++ [Entry 1 (Log WARNING (tag guild_c ++ lit "Price fetch failed: "
                                 ++ exn_str (Exn KeyError (quoted (lit "current_price"))))) tt;
           Entry 1 (ChangePresence (lit "API error")) None]).
Proof.
  apply (failed_fetch_shows_api_error default_config _ 1 guild_c may_nick []
           [Entry 1 (FetchMember guild_c) (inr may_nick)]
           [Entry 1 (FetchMember guild_c) (inr may_nick);
            Entry 1 (HttpGet (markets_url (lit "ripple")) 10 user_agent)
                    (HttpResponse 200 (inr (JArr [row_without_price])))]
           (Exn KeyError (quoted (lit "current_price"))) None); reflexivity.
Defined.

(** For a permitted membership, cached or fetched: the fetch gave a
    sample, the nickname edit and the presence change both succeed: the update consists of exactly the edit (the truncated
    nickname, with the audit reason "Auto price update"), the presence change
    to the signed 24h change, and one INFO line. *)
Theorem sample_applied (cfg : config) (E : env) (me : nat) (g : guild) (m : member)
  (h0 h h1 : trace) (price change_24h : float) :
  run E me (resolve_me g) h0 = (inr m, h) ->
  change_nickname (guild_permissions m) || manage_nicknames (guild_permissions m) = true ->
  http_session cfg = true ->
  run E me (get_price_data cfg) h = (inr (price, change_24h), h1) ->
  E _ h1 me (EditNick g (nickname_of price change_24h) (lit "Auto price update")) = None ->
  E _ (h1 ++ [Entry me (EditNick g (nickname_of price change_24h)
                                 (lit "Auto price update")) None])
    me (ChangePresence (status_text change_24h)) = None ->
  run E me (update_guild cfg g) h0
  = (inr tt,
     h1 ++ [Entry me (EditNick g (nickname_of price change_24h) (lit "Auto price update"))
                  None;
            Entry me (ChangePresence (status_text change_24h)) None;
            Entry me (Log INFO (tag g ++ lit "Nick " ++ [arrow] ++ lit " "
                                ++ nickname_of price change_24h
                                ++ lit " | 24h " ++ [arrow] ++ lit " "
                                ++ format_f true 2 change_24h ++ lit "%")) tt]).
Proof.
  intros Hme Hp Hs Hrun Hedit Hpres.
  rewrite (update_guild_from_fetch cfg E me g m h0 h Hme Hp Hs).
  rewrite run_try, run_bind, Hrun. cbn [run].
  rewrite run_bind, run_try, run_bind, run_perform, Hedit. cbn [raising run].
  rewrite run_bind, run_try, run_bind, run_perform, Hpres. cbn [raising run].
  rewrite run_perform. unit_answers E.
  rewrite <- !app_assoc. reflexivity.
Qed.

(** The membership is not cached and is fetched first. *)
Lemma sample_applied_witness :
  run (answer (calm_world (always (HttpResponse 200 (inr (JArr [good_row]))))))
      1 (update_guild default_config guild_c) []
  = (inr tt,
     [Entry 1 (FetchMember guild_c) (inr may_nick);
      Entry 1 (HttpGet (markets_url (lit "ripple")) 10 user_agent)
              (HttpResponse 200 (inr (JArr [good_row])))]
       ++ [Entry 1 (EditNick guild_c
                      (nickname_of (float_lit false 5 10) (float_lit false 250 100))
                      (lit "Auto price update")) None;
           Entry 1 (ChangePresence (status_text (float_lit false 250 100))) None;
           Entry 1 (Log INFO (tag guild_c ++ lit "Nick " ++ [arrow] ++ lit " "
                              ++ nickname_of (float_lit false 5 10) (float_lit false 250 100)
                              ++ lit " | 24h " ++ [arrow] ++ lit " "
                              ++ format_f true 2 (float_lit false 250 100) ++ lit "%")) tt]).
Proof.
  apply (sample_applied default_config _ 1 guild_c may_nick []
           [Entry 1 (FetchMember guild_c) (inr may_nick)]
           [Entry 1 (FetchMember guild_c) (inr may_nick);
            Entry 1 (HttpGet (markets_url (lit "ripple")) 10 user_agent)
                    (HttpResponse 200 (inr (JArr [good_row])))]
           (float_lit false 5 10) (float_lit false 250 100)); reflexivity.
Defined.

Lemma forbidden_is_http e :
  isinstance e [Forbidden] = true -> isinstance e [HTTPException] = true.
Proof. destruct e as [[] s]; vm_compute; congruence. Qed.

(** For a permitted membership, cached or fetched: the nickname edit
    fails with [e].  If [e] is an [HTTPException] the
    update logs it (a [Forbidden] at INFO, any other at WARNING) and still
    asks for the status change, as its next action; if it is not, [e] leaves
    [update_guild] and the status is never asked for. *)
Theorem refused_edit_keeps_status (cfg : config) (E : env) (me : nat) (g : guild)
  (m : member) (h0 h h1 : trace) (price change_24h : float) (e : exn) :
  run E me (resolve_me g) h0 = (inr m, h) ->
  change_nickname (guild_permissions m) || manage_nicknames (guild_permissions m) = true ->
  http_session cfg = true ->
  run E me (get_price_data cfg) h = (inr (price, change_24h), h1) ->
  E _ h1 me (EditNick g (nickname_of price change_24h) (lit "Auto price update")) = Some e ->
  if isinstance e [HTTPException]
  then exists r t,
      snd (run E me (update_guild cfg g) h0)
      = h1 ++ [Entry me (EditNick g (nickname_of price change_24h)
                                  (lit "Auto price update")) (Some e);
               Entry me (Log (fst (refusal_line g e)) (snd (refusal_line g e))) tt;
               Entry me (ChangePresence (status_text change_24h)) r] ++ t
  else run E me (update_guild cfg g) h0
       = (inl e,
          h1 ++ [Entry me (EditNick g (nickname_of price change_24h)
                                    (lit "Auto price update")) (Some e)]).
Proof.
  intros Hme Hp Hs Hrun Hedit.
  rewrite (update_guild_from_fetch cfg E me g m h0 h Hme Hp Hs).
  rewrite run_try, run_bind, Hrun. cbn [run].
  rewrite run_bind, run_try, run_bind, run_perform, Hedit. cbn [raising run].
  unfold refusal_line.
  assert (Hrest : forall l msg,
             exists r t,
               snd (run E me
                      (perform (Log l msg) ;;
                       try_except
                         (r <- perform (ChangePresence (status_text change_24h)) ;; raising r)
                         (except [Exception] (fun e0 =>
                            perform (Log DEBUG (tag g ++ lit "Could not set presence: "
                                                ++ exn_str e0)))) ;;
                       perform (Log INFO (tag g ++ lit "Nick " ++ [arrow] ++ lit " "
                                          ++ nickname_of price change_24h
                                          ++ lit " | 24h " ++ [arrow] ++ lit " "
                                          ++ format_f true 2 change_24h ++ lit "%")))
                      (h1 ++ [Entry me (EditNick g (nickname_of price change_24h)
                                                 (lit "Auto price update")) (Some e)]))
               = h1 ++ [Entry me (EditNick g (nickname_of price change_24h)
                                           (lit "Auto price update")) (Some e);
                        Entry me (Log l msg) tt;
                        Entry me (ChangePresence (status_text change_24h)) r] ++ t).
  { intros l msg. rewrite run_bind, run_perform. unit_answers E.
    rewrite run_bind, run_try, run_bind, run_perform.
    match goal with
    | |- context [E (option exn) ?h0 me (ChangePresence ?n)] =>
        exists (E (option exn) h0 me (ChangePresence n));
        destruct (run_extends E me
                    (match E (option exn) h0 me (ChangePresence n) with
                     | Some e' =>
                         match except [Exception] (fun e0 =>
                                 perform (Log DEBUG (tag g ++ lit "Could not set presence: "
                                                     ++ exn_str e0))) e' with
                         | Some q => q ;; perform (Log INFO (tag g ++ lit "Nick " ++ [arrow] ++ lit " "
                                          ++ nickname_of price change_24h
                                          ++ lit " | 24h " ++ [arrow] ++ lit " "
                                          ++ format_f true 2 change_24h ++ lit "%"))
                         | None => Raise e'
                         end
                     | None => perform (Log INFO (tag g ++ lit "Nick " ++ [arrow] ++ lit " "
                                          ++ nickname_of price change_24h
                                          ++ lit " | 24h " ++ [arrow] ++ lit " "
                                          ++ format_f true 2 change_24h ++ lit "%"))
                     end)
                    (h0 ++ [Entry me (ChangePresence n) (E (option exn) h0 me (ChangePresence n))]))
          as [t Ht];
        exists t;
        destruct (E (option exn) h0 me (ChangePresence n)) as [e'|]
    end.
    - cbn [raising run] in *. unfold except in *.
      destruct (isinstance e' [Exception]).
      + rewrite run_bind in Ht. rewrite Ht, <- !app_assoc. reflexivity.
      + cbn [run snd] in *. rewrite Ht, <- !app_assoc. reflexivity.
    - cbn [raising run] in *. rewrite Ht, <- !app_assoc. reflexivity. }
  destruct (isinstance e [Forbidden]) eqn:Hf.
  - rewrite (forbidden_is_http e Hf). cbn [fst snd].
    destruct (Hrest INFO (tag g ++ lit "Forbidden: role hierarchy/permissions block nickname change."))
      as (r & t & Ht).
    exists r, t. rewrite <- Ht, run_bind. reflexivity.
  - destruct (isinstance e [HTTPException]); [|reflexivity]. cbn [fst snd].
    destruct (Hrest WARNING (tag g ++ lit "HTTP error updating nick: " ++ exn_str e))
      as (r & t & Ht).
    exists r, t. rewrite <- Ht, run_bind. reflexivity.
Qed.

Lemma refused_edit_witness :
  if isinstance (Exn Forbidden (lit "403 Forbidden")) [HTTPException]
  then exists r t,
      snd (run (answer discord_refuses) 1 (update_guild default_config guild_a) [])
      = ([] ++ [Entry 1 (HttpGet (markets_url (lit "ripple")) 10 user_agent)
                      (HttpResponse 200 (inr (JArr [good_row])))])
          ++ [Entry 1 (EditNick guild_a
                         (nickname_of (float_lit false 5 10) (float_lit false 250 100))
                         (lit "Auto price update")) (Some (Exn Forbidden (lit "403 Forbidden")));
              Entry 1 (Log (fst (refusal_line guild_a (Exn Forbidden (lit "403 Forbidden"))))
                           (snd (refusal_line guild_a (Exn Forbidden (lit "403 Forbidden")))))
                    tt;
              Entry 1 (ChangePresence (status_text (float_lit false 250 100))) r] ++ t
  else run (answer discord_refuses) 1 (update_guild default_config guild_a) []
       = (inl (Exn Forbidden (lit "403 Forbidden")),
          ([] ++ [Entry 1 (HttpGet (markets_url (lit "ripple")) 10 user_agent)
                        (HttpResponse 200 (inr (JArr [good_row])))])
            ++ [Entry 1 (EditNick guild_a
                           (nickname_of (float_lit false 5 10) (float_lit false 250 100))
                           (lit "Auto price update"))
                      (Some (Exn Forbidden (lit "403 Forbidden")))]).
Proof.
  apply (refused_edit_keeps_status default_config (answer discord_refuses) 1 guild_a
           may_nick [] [] _ (float_lit false 5 10) (float_lit false 250 100)
           (Exn Forbidden (lit "403 Forbidden"))); reflexivity.
Defined.

(** For a permitted membership, cached or fetched: the edit succeeded and
    the presence change fails with an ordinary exception: the failure is logged at DEBUG only, the final INFO line is
    still written and the update returns normally. *)
Theorem failed_status_is_swallowed (cfg : config) (E : env) (me : nat) (g : guild)
  (m : member) (h0 h h1 : trace) (price change_24h : float) (e : exn) :
  run E me (resolve_me g) h0 = (inr m, h) ->
  change_nickname (guild_permissions m) || manage_nicknames (guild_permissions m) = true ->
  http_session cfg = true ->
  run E me (get_price_data cfg) h = (inr (price, change_24h), h1) ->
  E _ h1 me (EditNick g (nickname_of price change_24h) (lit "Auto price update")) = None ->
  E _ (h1 ++ [Entry me (EditNick g (nickname_of price change_24h)
                                 (lit "Auto price update")) None])
    me (ChangePresence (status_text change_24h)) = Some e ->
  isinstance e [Exception] = true ->
  run E me (update_guild cfg g) h0
  = (inr tt,
     h1 ++ [Entry me (EditNick g (nickname_of price change_24h) (lit "Auto price update"))
                  None;
            Entry me (ChangePresence (status_text change_24h)) (Some e);
            Entry me (Log DEBUG (tag g ++ lit "Could not set presence: " ++ exn_str e)) tt;
            Entry me (Log INFO (tag g ++ lit "Nick " ++ [arrow] ++ lit " "
                                ++ nickname_of price change_24h
                                ++ lit " | 24h " ++ [arrow] ++ lit " "
                                ++ format_f true 2 change_24h ++ lit "%")) tt]).
Proof.
  intros Hme Hp Hs Hrun Hedit Hpres He.
  rewrite (update_guild_from_fetch cfg E me g m h0 h Hme Hp Hs).
  rewrite run_try, run_bind, Hrun. cbn [run].
  rewrite run_bind, run_try, run_bind, run_perform, Hedit. cbn [raising run].
  rewrite run_bind, run_try, run_bind, run_perform, Hpres. cbn [raising run].
  unfold except. rewrite He.
  rewrite run_perform. unit_answers E. rewrite run_perform. unit_answers E.
  rewrite <- !app_assoc. reflexivity.
Qed.

Lemma failed_status_witness :
  run (answer presence_fails) 1 (update_guild default_config guild_a) []
  = (inr tt,
     ([] ++ [Entry 1 (HttpGet (markets_url (lit "ripple")) 10 user_agent)
                   (HttpResponse 200 (inr (JArr [good_row])))])
       ++ [Entry 1 (EditNick guild_a
                      (nickname_of (float_lit false 5 10) (float_lit false 250 100))
                      (lit "Auto price update")) None;
           Entry 1 (ChangePresence (status_text (float_lit false 250 100)))
                 (Some (Exn HTTPException (lit "500 Internal Server Error")));
           Entry 1 (Log DEBUG (tag guild_a ++ lit "Could not set presence: "
                               ++ exn_str (Exn HTTPException
                                             (lit "500 Internal Server Error")))) tt;
           Entry 1 (Log INFO (tag guild_a ++ lit "Nick " ++ [arrow] ++ lit " "
                              ++ nickname_of (float_lit false 5 10) (float_lit false 250 100)
                              ++ lit " | 24h " ++ [arrow] ++ lit " "
                              ++ format_f true 2 (float_lit false 250 100) ++ lit "%")) tt]).
Proof.
  apply (failed_status_is_swallowed default_config _ 1 guild_a may_nick [] [] _
           (float_lit false 5 10) (float_lit false 250 100)
           (Exn HTTPException (lit "500 Internal Server Error"))); reflexivity.
Defined.

Lemma update_guild_own_calls cfg g : all_actions (own_call g) (update_guild cfg g).
Proof.
  assert (Hfetch : all_actions (own_call g) (get_price_data cfg)).
  { eapply all_impl; [|apply get_price_data_actions].
    intros X a. destruct a; simpl; tauto. }
  assert (Hpresence : forall name (body : exn -> proc unit),
             own_call g _ (ChangePresence name) ->
             (forall e, all_actions (own_call g) (body e)) ->
             all_actions (own_call g)
               (try_except (r <- perform (ChangePresence name) ;; raising r)
                           (except [Exception] body))).
  { intros name body Hn Hb. apply all_try_cases.
    - simpl. split; [exact Hn|]. intros [e|]; exact I.
    - intros e. unfold except. destruct (isinstance e [Exception]); auto. }
  unfold update_guild. apply all_bind.
  - apply all_try_cases.
    + apply all_bind; [|intros; exact I].
      unfold resolve_me. destruct (guild_me g); simpl; auto.
      split; [reflexivity|]. intros [e|me]; exact I.
    + intros e. unfold except. destruct (isinstance e [HTTPException]); simpl; auto.
  - intros [me|]; [|exact I].
    unfold update_as. cbv zeta. destruct (negb _); [simpl; auto|].
    apply all_bind.
    + apply all_try_cases.
      * apply all_bind; [destruct (http_session cfg); exact I|intros _].
        apply all_bind; [exact Hfetch|intros; exact I].
      * intros e. unfold except. destruct (isinstance e [Exception]); [|exact I].
        apply all_bind; [simpl; auto|intros _].
        apply all_bind; [|intros; exact I].
        apply Hpresence; [left; reflexivity|intros; exact I].
    + intros [[price change_24h]|]; [|exact I].
      apply all_bind.
      * apply all_try_cases.
        -- simpl. split; [eauto|]. intros [e|]; exact I.
        -- intros e. destruct (isinstance e [Forbidden]); [simpl; auto|].
           destruct (isinstance e [HTTPException]); simpl; auto.
      * intros _. apply all_bind; [|intros _; simpl; auto].
        apply Hpresence; [right; eauto|]. intros e. simpl. auto.
Qed.

(** In any environment, everything [update_guild] does for a guild
    concerns that guild or the client as a whole: a membership request or a
    nickname edit is for this guild (the edit with the reason "Auto price
    update"), a presence change is to "API error" or to a 24h status, and it
    never lists guilds, starts a gather or asks whether the client is
    closed. *)
Theorem update_touches_own_guild (cfg : config) (E : env) (me : nat) (g : guild)
  (h : trace) :
  exists t,
    snd (run E me (update_guild cfg g) h) = h ++ t /\
    Forall (fun e => own_call g _ (act e)) t.
Proof.
  destruct (run_all (own_call g) E me (update_guild cfg g) h (update_guild_own_calls cfg g))
    as (t & Ht & Hall).
  exists t. split; [exact Ht|].
  eapply Forall_impl; [|exact Hall]. intros e [He _]. exact He.
Qed.

Lemma pad2_table : forallb pad2_reads_back (map N.of_nat (seq 0 100)) = true.
Proof. vm_compute. reflexivity. Qed.

Lemma pad2_ok r :
  (r < 100)%N ->
  length (zero_pad 2 (dec_of_N r)) = 2%nat /\
  N_of_dec (zero_pad 2 (dec_of_N r)) = Some r.
Proof.
  intros Hr.
  assert (Hin : In r (map N.of_nat (seq 0 100))).
  { apply in_map_iff. exists (N.to_nat r). split; [apply N2Nat.id|].
    apply in_seq. lia. }
  pose proof (proj1 (forallb_forall _ _) pad2_table r Hin) as H.
  unfold pad2_reads_back in H. apply andb_prop in H. destruct H as [Hl Hv].
  apply Nat.eqb_eq in Hl. split; [exact Hl|].
  destruct (N_of_dec (zero_pad 2 (dec_of_N r))) as [r'|]; [|discriminate].
  apply N.eqb_eq in Hv. now subst.
Qed.

(** The status text always carries a sign.  For a finite change
    [(-1)^s * m * 2^e] it is "24h ", "+" or "-", the decimal writing of
    [n / 100], a point, the two digits of [n mod 100] and "%", where [n] is
    the integer nearest to [100 * m * 2^e] (ties to even); a zero reads
    "+0.00" or "-0.00" after its sign bit. *)
Theorem status_text_signed :
  (forall s m e,
      exists n int_part frac_part,
        status_text (S754_finite s m e)
        = lit "24h " ++ (if s then lit "-" else lit "+")
            ++ int_part ++ lit "." ++ frac_part ++ lit "%" /\
        nearest_even (scaled_num 2 m e) (scaled_den e) n /\
        N_of_dec int_part = Some (Z.to_N (n / 100)) /\
        length frac_part = 2%nat /\
        N_of_dec frac_part = Some (Z.to_N (n mod 100))) /\
  (forall s, status_text (S754_zero s)
             = lit "24h " ++ (if s then lit "-" else lit "+") ++ lit "0.00%") /\
  (forall change_24h,
      exists sign rest,
        status_text change_24h = lit "24h " ++ sign :: rest /\
        (sign = 43%N \/ sign = 45%N)).
Proof.
  split; [|split].
  - intros s m e.
    pose proof (round_scaled_nonneg 2 m e) as Hn.
    exists (round_scaled 2 m e),
      (dec_of_N (Z.to_N (round_scaled 2 m e / 100))),
      (zero_pad 2 (dec_of_N (Z.to_N (round_scaled 2 m e mod 100)))).
    split; [|split; [apply round_scaled_nearest|split; [apply N_of_dec_of_N|]]].
    + unfold status_text, format_f, fixed_digits, sign_prefix. cbv zeta.
      change (10 ^ Z.of_nat 2) with 100.
      destruct s; rewrite <- !app_assoc; reflexivity.
    + apply pad2_ok. pose proof (Z.mod_pos_bound (round_scaled 2 m e) 100 ltac:(lia)). lia.
  - intros []; reflexivity.
  - intros change_24h. unfold status_text, format_f, sign_prefix.
    destruct change_24h as [[]|[]| |[] m e];
      (eexists; eexists; split; [reflexivity|]; auto).
Qed.

(** * Further properties of a pass *)

(** ** What one gather costs the price API and Discord *)

Lemma get_price_data_keeps cost cfg n :
  (forall X (a : action X), fetcher_action X a -> cost X a = 0%nat) ->
  spends cost (get_price_data cfg) n (fun _ m => m = n).
Proof.
  intros Hfree. apply spends_nothing. eapply all_impl; [|apply get_price_data_actions].
  exact Hfree.
Qed.

Lemma update_as_request_budget cfg g me :
  spends request_cost (update_as cfg g me) (4 * length (COIN_IDS cfg)) anyhow.
Proof.
  unfold update_as. cbv zeta.
  destruct (negb _); [pay|].
  apply spends_bind, spends_try, spends_bind.
  destruct (http_session cfg); [|pay].
  simpl. apply spends_bind. eapply spends_impl; [|apply get_price_data_requests].
  intros [e|[price change_24h]] m _; pay.
Qed.

Lemma update_as_edit_budget cfg g me : spends edit_cost (update_as cfg g me) 1 anyhow.
Proof.
  unfold update_as. cbv zeta.
  destruct (negb _); [pay|].
  apply spends_bind, spends_try, spends_bind.
  destruct (http_session cfg); [|pay].
  simpl. apply spends_bind. eapply spends_impl; [|apply get_price_data_keeps].
  - intros [e|[price change_24h]] m ->; pay.
  - intros X a. destruct a; simpl; tauto.
Qed.

Lemma update_as_sleep_budget cfg g me :
  spends sleep_cost (update_as cfg g me) (Z.to_nat 9500 * length (COIN_IDS cfg)) anyhow.
Proof.
  pose proof (get_price_data_sleeps cfg) as Hfetch. revert Hfetch.
  generalize (Z.to_nat 9500 * length (COIN_IDS cfg))%nat as n. intros n Hfetch.
  unfold update_as. cbv zeta.
  destruct (negb _); [pay|].
  apply spends_bind, spends_try, spends_bind.
  destruct (http_session cfg); [|pay].
  simpl. apply spends_bind. eapply spends_impl; [|exact Hfetch].
  intros [e|[price change_24h]] m _; pay.
Qed.

(** What holds of every membership holds of the whole reconciliation. *)
Lemma update_guild_full_budget (cost : forall X, action X -> nat) cfg g n :
  (forall l msg, cost _ (Log l msg) = 0%nat) ->
  cost _ (FetchMember g) = 0%nat ->
  (forall me, spends cost (update_as cfg g me) n anyhow) ->
  spends cost (update_guild cfg g) n anyhow.
Proof.
  intros Hlog Hfetch Hme.
  unfold update_guild. apply spends_bind, spends_try, spends_bind.
  unfold resolve_me. destruct (guild_me g) as [me|]; simpl; [apply Hme|].
  rewrite Hfetch. split; [lia|]. intros [e|me]; simpl.
  - unfold except. destruct (isinstance e [HTTPException]); simpl; [|exact I].
    rewrite Hlog. split; [lia|]. intros ?. exact I.
  - rewrite Nat.sub_0_r. apply Hme.
Qed.

(** A reconciliation that finds itself without the permission in the cache
    spends nothing. *)
Lemma update_guild_budget (cost : forall X, action X -> nat) cfg g n :
  (forall l msg, cost _ (Log l msg) = 0%nat) ->
  cost _ (FetchMember g) = 0%nat ->
  (forall me, spends cost (update_as cfg g me) n anyhow) ->
  spends cost (update_guild cfg g) (writes_of g * n) anyhow.
Proof.
  intros Hlog Hfetch Hme.
  pose proof (update_guild_full_budget cost cfg g n Hlog Hfetch Hme) as Hfull.
  unfold writes_of, may_write.
  destruct (guild_me g) as [me|] eqn:Hg; [|now rewrite Nat.mul_1_l].
  destruct (change_nickname (guild_permissions me) || manage_nicknames (guild_permissions me))
    eqn:Hp; [now rewrite Nat.mul_1_l|].
  unfold update_guild, resolve_me, update_as. rewrite Hg. simpl. rewrite Hp. simpl.
  rewrite Hlog. split; [lia|]. intros ?. exact I.
Qed.

Lemma spent_edits (t : trace) : spent edit_cost t = count is_edit_nick t.
Proof.
  unfold spent, count. induction t as [|[w X a x] t IH]; simpl; [reflexivity|].
  rewrite IH. destruct a; reflexivity.
Qed.

Lemma list_sum_scaled {A : Type} (f : A -> nat) (c : nat) (l : list A) :
  list_sum (map (fun x => f x * c)%nat l) = (list_sum (map f l) * c)%nat.
Proof. induction l as [|x l IH]; simpl; [reflexivity|]. rewrite IH. lia. Qed.

Section GatherBudget.

Variable cost : forall X, action X -> nat.
Variable cfg : config.
Variable E : env.
Variable n : nat.

Hypothesis log_is_free : forall l msg, cost _ (Log l msg) = 0%nat.
Hypothesis lookup_is_free : forall g, cost _ (FetchMember g) = 0%nat.
Hypothesis gather_is_free : forall targets, cost _ (Gather targets) = 0%nat.
Hypothesis per_membership : forall g me, spends cost (update_as cfg g me) n anyhow.

Lemma gather_budget targets schedule :
  (spent cost (hist (exec (update_guild cfg) E schedule (init (gather_all targets))))
   <= length (filter may_write targets) * n)%nat.
Proof.
  rewrite <- writes_total, <- list_sum_scaled.
  apply run_within with (per_child := fun g => (writes_of g * n)%nat).
  - intros g. apply update_guild_budget; auto.
  - exact gather_is_free.
  - simpl. unfold cost_with_tasks. simpl. split; [lia|].
    intros [e|]; exact I.
Qed.

End GatherBudget.

(** Under every schedule and whatever the outside world answers, the
    reconciliations one gather starts make together, for each target that
    may be updated (a target whose cached membership lacks both permissions
    costs nothing): at most four price requests per candidate id, at most
    one nickname edit, and backoff sleeps of at most 9.5 seconds per
    candidate id. *)
Theorem gather_workload_bounded (cfg : config) (E : env) (targets : list guild)
  (schedule : list nat) :
  let t := hist (exec (update_guild cfg) E schedule (init (gather_all targets))) in
  let permitted := length (filter may_write targets) in
  (count is_http_get t <= permitted * (4 * length (COIN_IDS cfg)))%nat /\
  (count is_edit_nick t <= permitted)%nat /\
  Z.of_nat (spent sleep_cost t)
  <= Z.of_nat permitted * (9500 * Z.of_nat (length (COIN_IDS cfg))).
Proof.
  cbv zeta. split; [|split].
  - rewrite <- spent_requests. apply gather_budget; try reflexivity.
    intros g me. apply update_as_request_budget.
  - rewrite <- spent_edits.
    rewrite <- (Nat.mul_1_r (length (filter may_write targets))).
    apply gather_budget; try reflexivity.
    intros g me. apply update_as_edit_budget.
  - pose proof (gather_budget sleep_cost cfg E (Z.to_nat 9500 * length (COIN_IDS cfg))%nat) as H.
    specialize (H ltac:(reflexivity) ltac:(reflexivity) ltac:(reflexivity)
                  ltac:(intros g me; apply update_as_sleep_budget) targets schedule).
    lia.
Qed.

(** ** Who sleeps how long *)

Section TaskActions.

Variable Pm Pt : forall X, action X -> Prop.
Variable child : guild -> proc unit.
Variable E : env.
Variable R : Type.

Hypothesis child_ok : forall g, all_actions Pt (child g).

Definition entry_in_role (e : entry) : Prop :=
  match who e with
  | O => Pm _ (act e)
  | S _ => Pt _ (act e)
  end.

Definition in_role (st : state R) : Prop :=
  main_only Pm R (main st) /\
  (forall ip, In ip (pool st) -> all_actions Pt (snd ip)) /\
  Forall entry_in_role (hist st).

Lemma in_role_step st st' : in_role st -> step_case child E st st' -> in_role st'.
Proof.
  intros (Hmain & Hpool & Hhist) Hstep.
  assert (Hadd : forall w X (a : action X) x,
             entry_in_role (Entry w a x) -> Forall entry_in_role (hist st ++ [Entry w a x])).
  { intros w X a x Hw. apply Forall_app. split; [exact Hhist|]. constructor; auto. }
  destruct Hstep as [Heq | X a k Hm Hg Heq | ts k Hm Heq | i X a k Hl Heq | i p r Hl Hend Heq];
    subst st'.
  - repeat split; assumption.
  - rewrite Hm in Hmain. simpl in Hmain. destruct Hmain as [Ha Hk].
    split; [|split]; simpl; [apply Hk|exact Hpool|apply Hadd; exact Ha].
  - rewrite Hm in Hmain. simpl in Hmain. destruct Hmain as [Ha Hk].
    unfold spawn. destruct ts as [|g gs].
    + split; [|split]; simpl; [apply Hk|exact Hpool|apply Hadd; exact Ha].
    + split; [|split]; [simpl; auto| |exact Hhist]. cbn [pool].
      intros [j q] Hin. apply in_app_or in Hin. destruct Hin as [Hin|Hin]; [auto|].
      apply in_combine_r in Hin.
      apply in_map_iff in Hin. destruct Hin as (g' & <- & _). apply child_ok.
  - apply lookup_in in Hl. pose proof (Hpool _ Hl) as Hp. simpl in Hp. destruct Hp as [Ha Hk].
    split; [|split]; simpl; [exact Hmain| |apply Hadd; exact Ha].
    intros ip Hin. apply in_update in Hin. destruct Hin as [->|Hin]; [apply Hk|auto].
  - assert (Hleft : forall ip, In ip (remove i (pool st)) -> all_actions Pt (snd ip)).
    { intros ip Hin. apply in_remove in Hin. apply Hpool, Hin. }
    unfold finish, wake.
    destruct (main st) as [q|ts ids k]; [repeat split; simpl; assumption|].
    simpl in Hmain. destruct Hmain as [Ha Hk].
    destruct r as [e|u]; destruct (existsb _ ids); repeat split; simpl; auto.
Qed.

Lemma in_role_always (p : proc R) schedule :
  all_actions Pm p ->
  Forall entry_in_role (hist (exec child E schedule (init p))).
Proof.
  intros Hp.
  apply (exec_invariant child E R in_role in_role_step schedule (init p)).
  split; [exact Hp|]. split; [intros ip []|constructor].
Qed.

End TaskActions.

Section FetcherCalls.

Variable P : forall X, action X -> Prop.
Hypothesis requests : forall url timeout_seconds agent, P _ (HttpGet url timeout_seconds agent).
Hypothesis parses : forall s, P _ (FloatOfStr s).
Hypothesis logs : forall l msg, P _ (Log l msg).

Lemma fetch_calls coin_id : all_actions P (_fetch_one_id coin_id).
Proof.
  assert (Hfl : forall v, all_actions P (py_float v)).
  { intros v. destruct v; simpl; auto.
    - destruct (float_of_int z); simpl; auto.
    - split; [apply parses|]. intros [f|]; simpl; auto. }
  unfold _fetch_one_id. simpl. split; [apply requests|].
  intros [e|status body]; simpl; auto.
  destruct (negb (status =? 200)); simpl; auto.
  destruct body as [e|data]; simpl; auto.
  destruct data as [| | | | |items|]; simpl; auto.
  destruct items as [|row items]; simpl; auto.
  apply all_bind; [apply subscript_actions|intros v].
  apply all_bind; [apply Hfl|intros price].
  apply all_bind; [apply subscript_actions|intros w].
  apply all_bind; [apply Hfl|intros change].
  exact I.
Qed.

Lemma one_attempt_calls first_id coin_id attempt delay :
  (delay <> 0 -> P _ (Sleep delay)) ->
  all_actions P (one_attempt first_id coin_id attempt delay).
Proof.
  intros Hd. unfold one_attempt. apply all_bind.
  - destruct (Z.eqb_spec delay 0); simpl; auto.
  - intros _. apply all_try.
    + apply all_bind; [apply fetch_calls|intros sample].
      apply all_bind; [|intros; exact I].
      destruct (pystr_eqb coin_id first_id); simpl; auto.
    + intros e q. apply all_except. intros e'. simpl. auto.
Qed.

Lemma attempts_loop_calls first_id coin_id todo last_err :
  Forall (fun nd : nat * Z => snd nd <> 0 -> P _ (Sleep (snd nd))) todo ->
  all_actions P (attempts_loop first_id coin_id todo last_err).
Proof.
  intros Htodo. revert last_err.
  induction Htodo as [|[attempt delay] rest Hd Hrest IH]; intros last_err; [exact I|].
  cbn [attempts_loop]. apply all_bind; [apply one_attempt_calls; exact Hd|].
  intros [sample|e]; [exact I|apply IH].
Qed.

Lemma get_price_data_calls cfg :
  Forall (fun delay => delay <> 0 -> P _ (Sleep delay)) backoffs ->
  all_actions P (get_price_data cfg).
Proof.
  intros Hb.
  assert (Htodo : Forall (fun nd : nat * Z => snd nd <> 0 -> P _ (Sleep (snd nd)))
                         (enumerate 1 backoffs)).
  { generalize 1%nat. induction Hb as [|d ds Hd Hds IH]; intros start; simpl; constructor; auto. }
  unfold get_price_data. generalize (hd [] (COIN_IDS cfg)) as first_id.
  generalize (@None exn) as last_err.
  induction (COIN_IDS cfg) as [|coin_id rest IH]; intros last_err first_id; [exact I|].
  cbn [ids_loop]. apply all_bind; [apply attempts_loop_calls; exact Htodo|].
  intros [sample|e]; [exact I|apply IH].
Qed.

End FetcherCalls.

Lemma update_guild_sleeps cfg g : all_actions backoff_sleep (update_guild cfg g).
Proof.
  assert (Hfetch : all_actions backoff_sleep (get_price_data cfg)).
  { apply get_price_data_calls; simpl; auto.
    repeat constructor; simpl; lia. }
  assert (Hpresence : forall name (body : exn -> proc unit),
             (forall e, all_actions backoff_sleep (body e)) ->
             all_actions backoff_sleep
               (try_except (r <- perform (ChangePresence name) ;; raising r)
                           (except [Exception] body))).
  { intros name body Hb. apply all_try_cases.
    - simpl. split; [exact I|]. intros [e|]; exact I.
    - intros e. unfold except. destruct (isinstance e [Exception]); auto. }
  unfold update_guild. apply all_bind.
  - apply all_try_cases.
    + apply all_bind; [|intros; exact I].
      unfold resolve_me. destruct (guild_me g); simpl; auto.
      split; [exact I|]. intros [e|me]; exact I.
    + intros e. unfold except. destruct (isinstance e [HTTPException]); simpl; auto.
  - intros [me|]; [|exact I].
    unfold update_as. cbv zeta. destruct (negb _); [simpl; auto|].
    apply all_bind.
    + apply all_try_cases.
      * apply all_bind; [destruct (http_session cfg); exact I|intros _].
        apply all_bind; [exact Hfetch|intros; exact I].
      * intros e. unfold except. destruct (isinstance e [Exception]); [|exact I].
        apply all_bind; [simpl; auto|intros _].
        apply all_bind; [|intros; exact I].
        apply Hpresence. intros; exact I.
    + intros [[price change_24h]|]; [|exact I].
      apply all_bind.
      * apply all_try_cases.
        -- simpl. split; [exact I|]. intros [e|]; exact I.
        -- intros e. destruct (isinstance e [Forbidden]); [simpl; auto|].
           destruct (isinstance e [HTTPException]); simpl; auto.
      * intros _. apply all_bind; [|intros _; simpl; auto].
        apply Hpresence. intros e. simpl. auto.
Qed.

Lemma updater_loop_sleeps cfg passes : all_actions (loop_sleep cfg) (updater_loop cfg passes).
Proof.
  assert (Htick : all_actions (loop_sleep cfg) (tick cfg)).
  { unfold tick. apply all_try.
    - apply all_bind.
      + unfold resolve_targets.
        destruct (GUILD_ID cfg) as [id|]; [|simpl; auto].
        destruct (id =? 0); simpl; auto.
        split; [exact I|]. intros [g|]; simpl; auto.
      + intros [|g targets]; simpl; auto.
        split; [exact I|]. intros [e|]; simpl; auto.
    - intros e q. apply all_except. intros e'. simpl. auto. }
  unfold updater_loop. simpl. split; [exact I|]. intros _. split; [exact I|]. intros _.
  induction passes as [|n IH]; simpl; auto.
  split; [exact I|]. intros [|]; simpl; auto.
  apply all_bind; [exact Htick|]. intros _. simpl. auto.
Qed.

(** Under every schedule, whatever the outside world answers: each sleep
    of the updater loop lasts [INTERVAL_SECONDS] seconds, and each sleep of a
    reconciliation is one of the fetcher's waits of 1.5, 3 or 5 seconds. *)
Theorem sleeps_are_interval_or_backoff (cfg : config) (E : env) (passes : nat)
  (schedule : list nat) :
  Forall (sleeps_in_role cfg)
         (hist (exec (update_guild cfg) E schedule (init (updater_loop cfg passes)))).
Proof.
  apply (in_role_always (loop_sleep cfg) backoff_sleep (update_guild cfg) E loop_end
           (update_guild_sleeps cfg) (updater_loop cfg passes) schedule
           (updater_loop_sleeps cfg passes)).
Qed.

(** ** The targets of a pass *)

Lemma tick_guild_calls cfg : all_actions (guild_calls cfg) (tick cfg).
Proof.
  assert (Hall : forall targets, all_actions all_guilds_call (fan_out targets)).
  { intros [|g targets]; simpl; auto. split; [discriminate|]. intros [e|]; exact I. }
  unfold tick, guild_calls, resolve_targets.
  destruct (GUILD_ID cfg) as [id|].
  - destruct (id =? 0).
    + apply all_try_cases.
      * simpl. split; [exact I|]. exact Hall.
      * intros e. unfold except. destruct (isinstance e [Exception]); simpl; auto.
    + apply all_try_cases.
      * simpl. split; [reflexivity|]. intros [g|]; simpl; auto.
        split; [reflexivity|]. intros [e|]; exact I.
      * intros e. unfold except. destruct (isinstance e [Exception]); simpl; auto.
  - apply all_try_cases.
    + simpl. split; [exact I|]. exact Hall.
    + intros e. unfold except. destruct (isinstance e [Exception]); simpl; auto.
Qed.

Lemma updater_loop_guild_calls cfg passes :
  all_actions (guild_calls cfg) (updater_loop cfg passes).
Proof.
  assert (Hother : forall X (a : action X),
             inside_a_pass X a -> not_a_request X a ->
             match a with GetGuild _ | Guilds | Gather _ => True | _ => guild_calls cfg X a end).
  { intros X a. unfold guild_calls.
    destruct (GUILD_ID cfg) as [id|]; [destruct (id =? 0)|]; destruct a; simpl; auto. }
  pose proof (Hother _ WaitUntilReady I I) as Hready.
  pose proof (fun l msg => Hother _ (Log l msg) I I) as Hlog.
  assert (Hclosed : guild_calls cfg _ IsClosed).
  { unfold guild_calls. destruct (GUILD_ID cfg) as [id|]; [destruct (id =? 0)|]; exact I. }
  assert (Hsleep : forall ms, guild_calls cfg _ (Sleep ms)).
  { intros ms. unfold guild_calls.
    destruct (GUILD_ID cfg) as [id|]; [destruct (id =? 0)|]; exact I. }
  unfold updater_loop. simpl. split; [exact Hready|]. intros _. split; [apply Hlog|]. intros _.
  induction passes as [|n IH]; simpl; auto.
  split; [exact Hclosed|]. intros [|]; simpl; auto.
  apply all_bind; [apply tick_guild_calls|]. intros _. simpl. auto.
Qed.

(** Under every schedule: with a non-zero [GUILD_ID] the updater loop asks
    the client for the guild of that id only, never for the list of the
    joined guilds, and each gather it awaits has exactly one target; with
    [GUILD_ID] unset or zero it never asks for a guild by id.  In both cases
    it never gathers over no target. *)
Theorem loop_targets_follow_guild_id (cfg : config) (E : env) (passes : nat)
  (schedule : list nat) :
  Forall (fun e => who e = 0%nat -> guild_calls cfg _ (act e))
         (hist (exec (update_guild cfg) E schedule (init (updater_loop cfg passes)))).
Proof.
  apply (main_entries_always (guild_calls cfg) (update_guild cfg) E loop_end
           (updater_loop cfg passes) schedule (updater_loop_guild_calls cfg passes)).
Qed.

(** ** What the passes on one configured guild cost *)

Lemma spends_frame cost {A : Type} (p : proc A) n r post :
  spends cost p n post ->
  spends cost p (n + r) (fun _ m => (r <= m)%nat).
Proof.
  revert n. induction p as [x|e|X a k IH]; intros n; simpl; try lia.
  intros [Hc Hk]. split; [lia|]. intros x.
  replace (n + r - cost X a)%nat with (n - cost X a + r)%nat by lia.
  apply IH, Hk.
Qed.

Lemma spends_more cost {A : Type} (p : proc A) n n' :
  (n <= n')%nat -> spends cost p n anyhow -> spends cost p n' anyhow.
Proof.
  intros Hle Hp. replace n' with (n + (n' - n))%nat by lia.
  eapply spends_impl; [|apply spends_frame with (post := anyhow); exact Hp].
  intros; exact I.
Qed.

Section ConfiguredBudget.

Variable cost : forall X, action X -> nat.
Variable cfg : config.
Variable E : env.
Variable id : Z.
Variable n : nat.

Hypothesis configured : GUILD_ID cfg = Some id.
Hypothesis non_zero : id <> 0.
Hypothesis loop_is_free :
  forall X (a : action X),
    match a with
    | FetchMember _ | EditNick _ _ _ | ChangePresence _ | HttpGet _ _ _ | FloatOfStr _ => True
    | _ => cost _ a = 0%nat
    end.
Hypothesis per_guild : forall g, spends cost (update_guild cfg g) n anyhow.

Lemma free_for_the_loop X (a : action X) :
  as_gather a = None ->
  match a with
  | FetchMember _ | EditNick _ _ _ | ChangePresence _ | HttpGet _ _ _ | FloatOfStr _ => True
  | _ => cost_with_tasks cost (fun _ => n) X a = 0%nat
  end.
Proof.
  intros Hg. pose proof (loop_is_free X a) as H.
  unfold cost_with_tasks. rewrite Hg. exact H.
Qed.

Lemma tick_budget :
  spends (cost_with_tasks cost (fun _ => n)) (tick cfg) n anyhow.
Proof.
  pose proof (fun l msg => free_for_the_loop _ (Log l msg) eq_refl) as Hlog.
  pose proof (free_for_the_loop _ (GetGuild id) eq_refl) as Hget.
  assert (Hgather : forall g, cost_with_tasks cost (fun _ => n) _ (Gather [g]) = n).
  { intros g. unfold cost_with_tasks. simpl. lia. }
  cbv beta iota in Hlog, Hget.
  unfold tick, resolve_targets. rewrite configured.
  destruct (Z.eqb_spec id 0) as [Hz|_]; [contradiction|].
  apply spends_try, spends_bind. simpl.
  rewrite Hget. split; [lia|].
  intros [g|]; simpl.
  - rewrite Hgather. split; [lia|]. intros [e|]; simpl; [|exact I].
    unfold except. destruct (isinstance e [Exception]); simpl; [|exact I].
    rewrite Hlog. split; [lia|]. intros ?. exact I.
  - rewrite !Hlog. split; [lia|]. intros ?.
    split; [lia|]. intros ?. exact I.
Qed.

Lemma loop_budget passes :
  spends (cost_with_tasks cost (fun _ => n)) (updater_loop cfg passes) (passes * n) anyhow.
Proof.
  pose proof (fun l msg => free_for_the_loop _ (Log l msg) eq_refl) as Hlog.
  pose proof (free_for_the_loop _ WaitUntilReady eq_refl) as Hready.
  pose proof (free_for_the_loop _ IsClosed eq_refl) as Hclosed.
  pose proof (fun ms => free_for_the_loop _ (Sleep ms) eq_refl) as Hsleep.
  cbv beta iota in Hlog, Hready, Hclosed, Hsleep.
  unfold updater_loop. simpl.
  rewrite Hready, Hlog.
  split; [lia|]. intros _. split; [lia|]. intros _. rewrite !Nat.sub_0_r.
  induction passes as [|p IH]; [exact I|].
  cbn [loop_passes]. simpl.
  rewrite Hclosed. split; [lia|].
  intros [|]; [exact I|]. rewrite Nat.sub_0_r.
  apply spends_bind.
  eapply spends_impl; [|apply spends_frame with (post := anyhow); apply tick_budget].
  intros [e|[]] m Hm; [exact I|]. simpl.
  rewrite Hsleep. split; [lia|]. intros _.
  eapply spends_more; [|exact IH]. lia.
Qed.

Lemma configured_budget passes schedule :
  (spent cost (hist (exec (update_guild cfg) E schedule (init (updater_loop cfg passes))))
   <= passes * n)%nat.
Proof.
  apply run_within with (per_child := fun _ : guild => n).
  - exact per_guild.
  - intros targets. exact (loop_is_free _ (Gather targets)).
  - apply loop_budget.
Qed.

End ConfiguredBudget.

(** With a non-zero [GUILD_ID], under every schedule and whatever the
    outside world answers, [passes] passes of the updater loop make together
    at most four price requests per candidate id and pass, at most one
    nickname edit per pass and at most one presence change per pass. *)
Theorem configured_guild_workload (cfg : config) (E : env) (id : Z) (passes : nat)
  (schedule : list nat) (Hid : GUILD_ID cfg = Some id) (Hnz : id <> 0) :
  let t := hist (exec (update_guild cfg) E schedule (init (updater_loop cfg passes))) in
  (count is_http_get t <= passes * (4 * length (COIN_IDS cfg)))%nat /\
  (count is_edit_nick t <= passes)%nat /\
  (count is_change_presence t <= passes)%nat.
Proof.
  cbv zeta. split; [|split].
  - rewrite <- spent_requests. apply configured_budget with (id := id); auto.
    + intros X a. destruct a; reflexivity || exact I.
    + intros g. apply update_guild_full_budget; try reflexivity.
      intros me. apply update_as_request_budget.
  - rewrite <- spent_edits. rewrite <- (Nat.mul_1_r passes) at 2.
    apply configured_budget with (id := id); auto.
    + intros X a. destruct a; reflexivity || exact I.
    + intros g. apply update_guild_full_budget; try reflexivity.
      intros me. apply update_as_edit_budget.
  - rewrite <- spent_presence. rewrite <- (Nat.mul_1_r passes) at 2.
    apply configured_budget with (id := id); auto.
    + intros X a. destruct a; reflexivity || exact I.
    + intros g. apply update_guild_presence.
Qed.

(** Two whole passes on the guild 1. *)
Lemma configured_guild_workload_witness :
  let t := hist (exec (update_guild one_guild_config)
                      (answer (calm_world (always (HttpResponse 200 (inr (JArr [good_row]))))))
                      (repeat 0 5 ++ repeat 1 5 ++ repeat 0 4 ++ repeat 2 5 ++ repeat 0 1)%nat
                      (init (updater_loop one_guild_config 2))) in
  (count is_http_get t <= 2 * (4 * length (COIN_IDS one_guild_config)))%nat /\
  (count is_edit_nick t <= 2)%nat /\
  (count is_change_presence t <= 2)%nat.
Proof.
  apply (configured_guild_workload one_guild_config _ 1 2); [reflexivity|lia].
Defined.

(** * Properties of the configuration *)

Lemma lstrip_spec s :
  exists ws, s = ws ++ lstrip s /\ forallb isspace ws = true /\
             match lstrip s with
             | c :: _ => isspace c = false
             | [] => True
             end.
Proof.
  induction s as [|c s IH]; [exists []; repeat split|].
  destruct IH as (ws & Hs & Hws & Hhd). simpl. destruct (isspace c) eqn:Hc.
  - exists (c :: ws). simpl. rewrite Hc, Hws. split; [congruence|auto].
  - exists []. simpl. auto.
Qed.

Lemma rstrip_spec s :
  exists ws, s = rstrip s ++ ws /\ forallb isspace ws = true /\
             match rev (rstrip s) with
             | c :: _ => isspace c = false
             | [] => True
             end.
Proof.
  unfold rstrip. destruct (lstrip_spec (rev s)) as (ws & Hs & Hws & Hhd).
  exists (rev ws). rewrite rev_involutive. split; [|split; [|exact Hhd]].
  - rewrite <- rev_app_distr, <- Hs. symmetry. apply rev_involutive.
  - rewrite forallb_forall in *. intros c Hc. apply Hws. now apply in_rev.
Qed.

Lemma hd_rev_last (s : pystr) d : hd d (rev s) = last s d.
Proof.
  induction s as [|c s IH] using rev_ind; [reflexivity|].
  rewrite rev_app_distr, last_last. reflexivity.
Qed.

Lemma lstrip_fixed s : isspace (hd comma s) = false -> lstrip s = s.
Proof. destruct s as [|c s]; simpl; [reflexivity|]. now intros ->. Qed.

Lemma strip_fixed s :
  isspace (hd comma s) = false -> isspace (last s comma) = false -> strip s = s.
Proof.
  intros Hhd Hlast. unfold strip, rstrip. rewrite (lstrip_fixed s Hhd).
  rewrite lstrip_fixed; [apply rev_involutive|]. now rewrite hd_rev_last.
Qed.

(** What [strip] leaves is a part of the text, and when something is left
    it starts and ends with a character that is no whitespace. *)
Lemma strip_spec s :
  exists before after,
    s = before ++ strip s ++ after /\
    forallb isspace before = true /\ forallb isspace after = true /\
    (strip s <> [] ->
     isspace (hd comma (strip s)) = false /\ isspace (last (strip s) comma) = false).
Proof.
  unfold strip. destruct (lstrip_spec s) as (before & Hs & Hb & Hhd).
  destruct (rstrip_spec (lstrip s)) as (after & Ht & Ha & Hlast).
  exists before, after. split; [|split; [exact Hb|split; [exact Ha|]]].
  - rewrite <- Ht. exact Hs.
  - intros Hne. split.
    + destruct (rstrip (lstrip s)) as [|c u] eqn:Hr; [contradiction|].
      rewrite Ht in Hhd. simpl in Hhd. exact Hhd.
    + rewrite <- hd_rev_last.
      destruct (rev (rstrip (lstrip s))) as [|c u] eqn:Hr; [|exact Hlast].
      exfalso. apply Hne. apply (f_equal (@rev pychar)) in Hr.
      rewrite rev_involutive in Hr. exact Hr.
Qed.

Lemma strip_blank s : forallb isspace s = true -> strip s = [].
Proof.
  intros Hs. unfold strip.
  assert (Hl : lstrip s = []).
  { induction s as [|c s IH]; [reflexivity|]. simpl in *.
    apply andb_true_iff in Hs. destruct Hs as [-> Hs]. auto. }
  rewrite Hl. reflexivity.
Qed.

(** The pieces of a split hold the characters of the text that are not the
    separator. *)
Lemma split_pieces sep s piece c :
  In piece (str_split sep s) -> In c piece -> In c s /\ c <> sep.
Proof.
  revert piece. induction s as [|d s IH]; intros piece; simpl.
  - intros [<-|[]] [].
  - destruct (N.eqb_spec d sep) as [->|Hne].
    + intros [<-|Hin] Hc; [destruct Hc|]. destruct (IH _ Hin Hc). auto.
    + destruct (str_split sep s) as [|w ws] eqn:Hsplit.
      * intros [<-|[]] [<-|[]]. auto.
      * intros [<-|Hin] Hc.
        -- destruct Hc as [<-|Hc]; [auto|].
           destruct (IH w (or_introl eq_refl) Hc). auto.
        -- destruct (IH piece (or_intror Hin) Hc). auto.
Qed.

Lemma split_whole sep s : ~ In sep s -> str_split sep s = [s].
Proof.
  induction s as [|c s IH]; [reflexivity|]. simpl. intros Hn.
  destruct (N.eqb_spec c sep) as [->|Hne]; [tauto|].
  rewrite IH by tauto. reflexivity.
Qed.

Lemma split_first sep piece rest :
  ~ In sep piece -> str_split sep (piece ++ sep :: rest) = piece :: str_split sep rest.
Proof.
  induction piece as [|c piece IH]; simpl; intros Hn.
  - now rewrite N.eqb_refl.
  - destruct (N.eqb_spec c sep) as [->|Hne]; [tauto|].
    rewrite IH by tauto. reflexivity.
Qed.

Lemma split_join sep pieces :
  pieces <> [] -> Forall (fun piece => ~ In sep piece) pieces ->
  str_split sep (join sep pieces) = pieces.
Proof.
  intros Hne Hall. induction Hall as [|piece rest Hp Hrest IH]; [contradiction|].
  destruct rest as [|next rest].
  - simpl. now apply split_whole.
  - change (join sep (piece :: next :: rest)) with (piece ++ sep :: join sep (next :: rest)).
    rewrite split_first by exact Hp. rewrite IH by discriminate. reflexivity.
Qed.

(** Whatever the variable holds, every id of [COIN_IDS] is non-empty, has
    no comma in it and neither starts nor ends with whitespace. *)
Theorem coin_ids_are_clean (raw : option pystr) : Forall clean_id (parse_coin_ids raw).
Proof.
  unfold parse_coin_ids. cbv zeta.
  apply Forall_forall. intros id Hin.
  apply in_map_iff in Hin. destruct Hin as (piece & <- & Hin).
  apply filter_In in Hin. destruct Hin as [Hin Hkept].
  assert (Hne : strip piece <> []) by (destruct (strip piece); [discriminate|discriminate]).
  destruct (strip_spec piece) as (before & after & Hpiece & _ & _ & Hends).
  destruct (Hends Hne) as [Hhd Hlast].
  split; [exact Hne|]. split; [|split; assumption].
  intros Hcomma.
  assert (Hc : In comma piece).
  { rewrite Hpiece. apply in_or_app. right. apply in_or_app. now left. }
  destruct (split_pieces _ _ _ _ Hin Hc) as [_ Habs]. now apply Habs.
Qed.

Lemma lstrip_padding before s : forallb isspace before = true -> lstrip (before ++ s) = lstrip s.
Proof.
  induction before as [|c before IH]; simpl; [reflexivity|].
  intros H. apply andb_true_iff in H. destruct H as [-> H]. auto.
Qed.

Lemma strip_padded before id after :
  forallb isspace before = true -> clean_id id -> forallb isspace after = true ->
  strip (before ++ id ++ after) = id.
Proof.
  intros Hb (Hne & _ & Hhd & Hlast) Ha. unfold strip, rstrip.
  rewrite lstrip_padding by exact Hb.
  rewrite (lstrip_fixed (id ++ after)) by (destruct id; [contradiction|exact Hhd]).
  rewrite rev_app_distr, lstrip_padding.
  - rewrite (lstrip_fixed (rev id)); [apply rev_involutive|]. now rewrite hd_rev_last.
  - rewrite forallb_forall in *. intros c Hc. apply Ha. now apply in_rev.
Qed.

Lemma whitespace_without_comma s : forallb isspace s = true -> ~ In comma s.
Proof.
  intros Hs Hin. rewrite forallb_forall in Hs. specialize (Hs _ Hin). discriminate.
Qed.

(** Ids written with whitespace around them and joined with commas are
    read back without the whitespace, in order. *)
Theorem coin_ids_round_trip (pieces : list (pystr * pystr * pystr)) :
  Forall well_padded pieces ->
  parse_coin_ids (Some (join comma (map padded pieces))) = map padded_id pieces.
Proof.
  intros Hall. unfold parse_coin_ids. cbv zeta.
  destruct pieces as [|p pieces]; [reflexivity|].
  rewrite split_join; [|discriminate|].
  - induction Hall as [|[[before id] after] rest (Hb & Hid & Ha) Hrest IH]; [reflexivity|].
    cbn [map filter padded padded_id fst snd].
    rewrite (strip_padded before id after Hb Hid Ha).
    destruct id as [|c id]; [now destruct Hid|].
    cbn [map]. rewrite (strip_padded before (c :: id) after Hb Hid Ha).
    f_equal. exact IH.
  - apply Forall_map. eapply Forall_impl; [|exact Hall].
    intros [[before id] after] (Hb & (_ & Hn & _) & Ha) Hin. simpl in Hin.
    apply in_app_or in Hin. destruct Hin as [Hin|Hin].
    + now apply (whitespace_without_comma before).
    + apply in_app_or in Hin. destruct Hin as [Hin|Hin]; [auto|].
      now apply (whitespace_without_comma after).
Qed.

(** "ripple , xrp". *)
Lemma coin_ids_round_trip_witness :
  parse_coin_ids (Some (join comma (map padded [([], lit "ripple", lit " ");
                                                (lit " ", lit "xrp", [])])))
  = map padded_id [([], lit "ripple", lit " "); (lit " ", lit "xrp", [])].
Proof.
  apply (coin_ids_round_trip [([], lit "ripple", lit " "); (lit " ", lit "xrp", [])]).
  constructor; [|constructor; [|constructor]];
    (split; [reflexivity|]); (split; [|reflexivity]);
    (split; [vm_compute; discriminate|]);
    (split; [vm_compute; intuition discriminate|]);
    split; vm_compute; reflexivity.
Defined.

Lemma parse_blank raw : blank raw = true -> parse_coin_ids (Some raw) = [].
Proof.
  intros Hraw. unfold parse_coin_ids. cbv zeta.
  assert (Hall : forall piece, In piece (str_split comma raw) -> strip piece = []).
  { intros piece Hin. apply strip_blank. apply forallb_forall. intros c Hc.
    destruct (split_pieces _ _ _ _ Hin Hc) as [Hraw_c Hne].
    unfold blank in Hraw. rewrite forallb_forall in Hraw. specialize (Hraw _ Hraw_c).
    apply orb_true_iff in Hraw. destruct Hraw as [H|H]; [exact H|].
    apply N.eqb_eq in H. contradiction. }
  induction (str_split comma raw) as [|piece pieces IH]; [reflexivity|].
  simpl. rewrite (Hall piece (or_introl eq_refl)). apply IH.
  intros p Hp. apply Hall. now right.
Qed.

(** A variable that holds only commas and whitespace (the empty text
    included) leaves no id at all, not the default ones; [get_price_data]
    then fails at once, without a request or a wait, with the error text
    that ends in "None". *)
Theorem blank_coin_ids_fail_at_once (raw : pystr) (cfg : config) (E : env) (me : nat)
  (h : trace) :
  blank raw = true ->
  COIN_IDS cfg = parse_coin_ids (Some raw) ->
  run E me (get_price_data cfg) h
  = (inl (Exn RuntimeError (lit "Failed to fetch XRP price after retries: None")), h).
Proof.
  intros Hraw Hids. unfold get_price_data. rewrite Hids, (parse_blank raw Hraw).
  reflexivity.
Qed.

(** [COINGECKO_IDS=" , "]. *)
Lemma blank_coin_ids_witness :
  run (answer (calm_world (always (HttpResponse 200 (inr (JArr [good_row])))))) 1
      (get_price_data {| COIN_IDS := parse_coin_ids (Some (lit " , "));
                         INTERVAL_SECONDS := 60;
                         GUILD_ID := None;
                         http_session := true |}) []
  = (inl (Exn RuntimeError (lit "Failed to fetch XRP price after retries: None")), []).
Proof.
  apply (blank_coin_ids_fail_at_once (lit " , ")); reflexivity.
Defined.

(** * Properties of the start-up *)

(** However the globals stand, [on_ready] leaves a session in use and an
    updater running; it creates a session exactly when there was none in
    use, and before it starts the updater; it starts an updater exactly
    when none was running.  A further [on_ready] (Discord sends the event on
    every reconnect) then only logs: no second updater is started and the
    session is kept. *)
Theorem on_ready_starts_one_updater (user user' : pystr) (guild_count guild_count' : nat)
  (gl : globals) :
  let '(gl', steps) := on_ready user guild_count gl in
  _http_session gl' = Live /\ update_task gl' = Live /\
  acts steps
  = (if to_replace (_http_session gl) then [SessionCreated] else [])
    ++ (if to_replace (update_task gl) then [UpdaterStarted] else []) /\
  fst (on_ready user' guild_count' gl') = gl' /\
  acts (snd (on_ready user' guild_count' gl')) = [].
Proof.
  destruct gl as [[] []]; repeat split; reflexivity.
Qed.
